(** * walsplit: receipt parsing and bill splitting

    A shallow embedding of [walsplit.py] (parse_receipt, build_summary,
    add_member and the extra-item, unit-card and tally code of main)
    together with the properties its specification states about them and
    further properties of the code.

    Modelling conventions.
    - A Python [str] is the list of its characters and a character is its
      Unicode code point.  Whitespace ([\s], [str.strip]) and decimal
      digits ([\d], [int], [float]) are those of Unicode 14, listed below;
      [[A-Z]] and [[a-z]] are ranges of code points.
    - [re] is modelled by a backtracking matcher for sequences of quantified
      character classes, which is all the two patterns of the program use.
    - A Python [int] is a [Z]; [int] of a str refuses more than 4300
      digits.  A [float] is an element of a number interface with two
      instances: IEEE-754 binary64 (what the program runs on, as
      [SpecFloat] specifies it) and exact rationals (to separate rounding
      from logic).  The rounding of binary64 is bounded against the
      rationals in [RoundFacts] and [SimFacts].
    - A pandas DataFrame is a row count and a finite map from column names
      to typed columns; the row labels are always 0..n-1.  The quantities
      parsed from a receipt are kept in a column of dtype int64; a receipt
      with a quantity of 2^63 or more, for which pandas chooses another
      dtype, is outside the model, and parse_receipt says so
      ([OutsideModel]) instead of returning a table.  The sum of a float64
      column is numpy's pairwise summation.
    - Exceptions are values of a [result] type.
    - Streamlit is not modelled: the session state is a record, and what
      the drag-and-drop widget returns is a list of containers, about
      which the theorems say what they assume. *)

From Stdlib Require Import ZArith NArith QArith Qpower Qcanon List Bool Lia Lqa.
From Stdlib Require Import SpecFloat.
From stdpp Require Import gmap list.

Local Open Scope Z_scope.

(** ** Characters and strings

    A character is a Unicode code point and a Python [str] is the list of
    its characters.  String literals stand for the list of the codes of
    their characters (ASCII in this file); a character literal is one
    character or, with three digits, a decimal code. *)

Abbreviation char := N (only parsing).
Abbreviation string := (list N) (only parsing).

Inductive literal := LNil | LCons (c : N) (s : literal).

Fixpoint literal_parse (l : list Byte.byte) : literal :=
  match l with
  | nil => LNil
  | cons b l' => LCons (Byte.to_N b) (literal_parse l')
  end.

Fixpoint literal_print (s : literal) : option (list Byte.byte) :=
  match s with
  | LNil => Some nil
  | LCons c s' =>
      match Byte.of_N c with
      | Some b => if (c <? 128)%N then option_map (cons b) (literal_print s') else None
      | None => None
      end
  end.

Declare Scope str_scope.
#[warnings="-hiding-delimiting-key"]
Delimit Scope str_scope with string.
#[warnings="-via-type-remapping,-via-type-mismatch"]
String Notation list literal_parse literal_print
  (via literal mapping [[nil] => LNil, [cons] => LCons]) : str_scope.

Definition char_parse (l : list Byte.byte) : option N :=
  match l with
  | [b] => Some (Byte.to_N b)
  | [a; b; c] =>
      let d x := (Byte.to_N x - 48)%N in
      if forallb (fun x => (48 <=? Byte.to_N x)%N && (Byte.to_N x <=? 57)%N) [a; b; c]
      then Some (100 * d a + 10 * d b + d c)%N
      else None
  | _ => None
  end.

Definition char_print (c : N) : option (list Byte.byte) := None.

Declare Scope uchar_scope.
#[warnings="-hiding-delimiting-key"]
Delimit Scope uchar_scope with char.
#[add_top] Bind Scope uchar_scope with N.
String Notation N char_parse char_print : uchar_scope.

Open Scope str_scope.

(** [s + t] *)
Infix "+:+" := (@app char) (at level 60, right associativity) : str_scope.

Definition chars (s : string) : list char := s.
Definition text (l : list char) : string := l.

Definition code (c : char) : N := c.

Definition char_eqb (a b : char) : bool := N.eqb a b.
(** [s == t] *)
Definition str_eqb (a b : string) : bool := bool_decide (a = b).

Definition in_range (a b : char) (c : char) : bool :=
  ((code a <=? code c) && (code c <=? code b))%N.

(** The decimal digits (category Nd, Unicode 14.0 as in Python 3.11): 66
    runs of ten characters, each from its zero on; these are the zeros.
    [\d], [int] and [float] take any of them for a digit. *)
Definition digit_zeros : list char :=
  [48; 1632; 1776; 1984; 2406; 2534; 2662; 2790; 2918; 3046; 3174; 3302;
   3430; 3558; 3664; 3792; 3872; 4160; 4240; 6112; 6160; 6470; 6608; 6784;
   6800; 6992; 7088; 7232; 7248; 42528; 43216; 43264; 43472; 43504; 43600;
   44016; 65296; 66720; 68912; 69734; 69872; 69942; 70096; 70384; 70736;
   70864; 71248; 71360; 71472; 71904; 72016; 72784; 73040; 73120; 92768;
   92864; 93008; 120782; 120792; 120802; 120812; 120822; 123200; 123632;
   125264; 130032]%N.

(** The value of a decimal digit. *)
Definition decimal (c : char) : option N :=
  (fun z => (c - z)%N) <$> List.find (fun z => ((z <=? c) && (c <? z + 10))%N) digit_zeros.

(** [\d] *)
Definition is_digit (c : char) : bool :=
  match decimal c with Some _ => true | None => false end.
(** [A-Z] and [a-z] *)
Definition is_upper : char -> bool := in_range "A" "Z".
Definition is_lower : char -> bool := in_range "a" "z".

(** The whitespace of [str.isspace]: what [\s] matches and [str.strip]
    removes. *)
Definition whitespace : list char :=
  [9; 10; 11; 12; 13; 28; 29; 30; 31; 32; 133; 160; 5760; 8192; 8193; 8194;
   8195; 8196; 8197; 8198; 8199; 8200; 8201; 8202; 8232; 8233; 8239; 8287;
   12288]%N.

(** [\s] *)
Definition is_space (c : char) : bool := existsb (char_eqb c) whitespace.
(** [.] without DOTALL: anything but a line feed. *)
Definition is_dot (c : char) : bool := negb (char_eqb c "010").
Definition is_char (a : char) (c : char) : bool := char_eqb a c.

Fixpoint lstrip (l : list char) : list char :=
  match l with
  | c :: l' => if is_space c then lstrip l' else l
  | [] => []
  end.

(** [str.strip()] *)
Definition strip (l : list char) : list char := rev (lstrip (rev (lstrip l))).

(** The integer and the fraction digits of a decimal literal. *)
Fixpoint split_at_dot (l : list char) : list char * list char :=
  match l with
  | [] => ([], [])
  | c :: l' =>
      if char_eqb c "." then ([], l')
      else let (a, b) := split_at_dot l' in (c :: a, b)
  end.

Definition digit_value (c : char) : Z :=
  match decimal c with Some d => Z.of_N d | None => 0 end.

(** The number that a string of decimal digits writes. *)
Definition int_of_digits (l : list char) : Z :=
  fold_left (fun acc c => 10 * acc + digit_value c) l 0.

(** ** Regular expressions

    A pattern is a sequence of pieces; a piece is a character class with a
    repetition range, greedy or lazy, and the number of the capture group
    it lies in (0 for none). *)

Module Re.

Inductive mode := Greedy | Lazy.

Record piece := Piece {
  cls : char -> bool;
  lo : nat;
  hi : option nat;
  greed : mode;
  grp : nat
}.

Definition one (g : nat) (f : char -> bool) := Piece f 1 (Some 1%nat) Greedy g.
Definition plus (g : nat) (f : char -> bool) := Piece f 1 None Greedy g.
Definition lazy_plus (g : nat) (f : char -> bool) := Piece f 1 None Lazy g.
Definition opt (g : nat) (f : char -> bool) := Piece f 0 (Some 1%nat) Greedy g.
Definition between (g : nat) (f : char -> bool) (a b : nat) := Piece f a (Some b) Greedy g.
Definition lit (g : nat) (s : string) : list piece := map (fun c => one g (is_char c)) (chars s).

Definition below (h : option nat) (n : nat) : bool :=
  match h with
  | None => true
  | Some m => (n <? m)%nat
  end.

(** The result of a successful match: what each piece consumed, and the
    rest of the subject. *)
Definition outcome : Type := list (list char) * list char.

Definition push (acc : list char) (r : option outcome) : option outcome :=
  match r with
  | Some (segs, rest) => Some (rev acc :: segs, rest)
  | None => None
  end.

(** One piece followed by the continuation [k]: [n] characters are already
    taken (held reversed in [acc]).  Greedy takes one more first and gives
    back on failure; lazy tries the continuation first. *)
Fixpoint rep (e : piece) (k : list char -> option outcome)
    (n : nat) (acc : list char) (s : list char) : option outcome :=
  match greed e with
  | Greedy =>
      match
        match s with
        | c :: s' => if cls e c && below (hi e) n then rep e k (S n) (c :: acc) s' else None
        | [] => None
        end
      with
      | Some r => Some r
      | None => if (lo e <=? n)%nat then push acc (k s) else None
      end
  | Lazy =>
      match (if (lo e <=? n)%nat then push acc (k s) else None) with
      | Some r => Some r
      | None =>
          match s with
          | c :: s' => if cls e c && below (hi e) n then rep e k (S n) (c :: acc) s' else None
          | [] => None
          end
      end
  end.

(** The two alternatives of one step of [rep]: take one more character, or
    stop and go on with the continuation. *)
Definition more (e : piece) (k : list char -> option outcome) n acc s : option outcome :=
  match s with
  | c :: s' => if cls e c && below (hi e) n then rep e k (S n) (c :: acc) s' else None
  | [] => None
  end.

Definition stop (e : piece) (k : list char -> option outcome) n acc s : option outcome :=
  if (lo e <=? n)%nat then push acc (k s) else None.

(** [re.match]: the pattern anchored at the head of [s]. *)
Fixpoint match_here (p : list piece) : list char -> option outcome :=
  match p with
  | [] => fun s => Some ([], s)
  | e :: p' => rep e (match_here p') 0 []
  end.

(** [re.search]: the leftmost position at which the pattern matches; the
    skipped prefix is returned with the outcome. *)
Fixpoint search (p : list piece) (s : list char) : option (list char * outcome) :=
  match match_here p s with
  | Some r => Some ([], r)
  | None =>
      match s with
      | [] => None
      | c :: s' =>
          match search p s' with
          | Some (pre, r) => Some (c :: pre, r)
          | None => None
          end
      end
  end.

(** [re.finditer]: successive non-overlapping matches, scanning from the
    left.  [skip] counts the characters of the previous match still to be
    passed over. *)
Fixpoint finditer_from (p : list piece) (skip : nat) (s : list char) : list (list (list char)) :=
  match skip with
  | S n =>
      match s with
      | [] => []
      | _ :: s' => finditer_from p n s'
      end
  | O =>
      match match_here p s with
      | Some (segs, _) =>
          segs :: match s with
                  | [] => []
                  | _ :: s' => finditer_from p (Nat.pred (length (concat segs))) s'
                  end
      | None =>
          match s with
          | [] => []
          | _ :: s' => finditer_from p 0 s'
          end
      end
  end.

Definition finditer (p : list piece) (s : list char) := finditer_from p 0 s.

(** [match.group(g)]: what the pieces of group [g] consumed. *)
Fixpoint group (g : nat) (p : list piece) (segs : list (list char)) : list char :=
  match p, segs with
  | e :: p', seg :: segs' => (if (grp e =? g)%nat then seg else []) ++ group g p' segs'
  | _, _ => []
  end.

(** What a match is, independently of the matcher: every piece consumed a
    run of its class whose length lies in its range. *)
Definition fits (e : piece) (seg : list char) : Prop :=
  Forall (fun c => cls e c = true) seg /\ (lo e <= length seg)%nat /\
  match hi e with
  | Some h => (length seg <= h)%nat
  | None => True
  end.

Definition Matches (p : list piece) (segs : list (list char)) : Prop :=
  Forall2 fits p segs.

(** Some match of [p] begins at the head of [s]. *)
Definition starts (p : list piece) (s : list char) : Prop :=
  exists segs rest, Matches p segs /\ s = concat segs ++ rest.

End Re.

(** ** The two patterns of parse_receipt *)

(** [([A-Z][a-z]{2,8} \d{1,2}, \d{4}) order] *)
Definition date_pattern : list Re.piece :=
  [Re.one 1 is_upper; Re.between 1 is_lower 2 8] ++ Re.lit 1 " " ++
  [Re.between 1 is_digit 1 2] ++ Re.lit 1 ", " ++ [Re.between 1 is_digit 4 4] ++
  Re.lit 0 " order".

(** [(.+?)\s+Qty\s+(\d+)\s+\$?(\d+\.\d{2})] *)
Definition item_pattern : list Re.piece :=
  [Re.lazy_plus 1 is_dot; Re.plus 0 is_space] ++ Re.lit 0 "Qty" ++
  [Re.plus 0 is_space; Re.plus 2 is_digit; Re.plus 0 is_space; Re.opt 0 (is_char "$");
   Re.plus 3 is_digit] ++ Re.lit 3 "." ++ [Re.between 3 is_digit 2 2].

Definition nl : string := ["010"%char].

(** ** Numbers *)

Fixpoint dec_digits (fuel : nat) (n : N) (acc : list char) : list char :=
  match fuel with
  | O => acc
  | S f =>
      let acc' := (48 + n mod 10)%N :: acc in
      if (n <? 10)%N then acc' else dec_digits f (n / 10) acc'
  end.

(** [str(n)] for a natural number. *)
Definition dec_of_N (n : N) : list char := dec_digits (S (N.to_nat (N.log2 n))) n [].

(** [str(z)] for a Python int. *)
Definition str_of_Z (z : Z) : string :=
  match z with
  | Zneg p => "-"%char :: text (dec_of_N (Npos p))
  | _ => text (dec_of_N (Z.to_N z))
  end.

(** Signed 64-bit wrap-around of numpy's int64 arithmetic. *)
Definition wrap64 (z : Z) : Z := (z + 2 ^ 63) mod 2 ^ 64 - 2 ^ 63.

(** What the program needs of its floating-point numbers. *)
Class Number (F : Type) := {
  of_int : Z -> F;                (* conversion of an integer *)
  of_ratio : Z -> positive -> F;  (* the number nearest to n/d: [float] of a decimal literal *)
  add : F -> F -> F;
  mul : F -> F -> F;
  div : F -> F -> F;
  is_nan : F -> bool;
  gt0 : F -> bool;                (* x > 0 *)
  trunc : F -> option Z;          (* int(x); fails on infinities and NaN *)
  fmt2 : F -> string;             (* format(x, ".2f") *)
  repr : F -> string              (* str(x) *)
}.

(** *** IEEE-754 binary64, as specified by [SpecFloat] *)

Module B64.

Definition prec : Z := 53.
Definition emax : Z := 1024.
Abbreviation float := spec_float.

Definition of_Z (z : Z) : float := binary_normalize prec emax z 0 false.

Definition of_frac (n : Z) (d : positive) : float :=
  match n with
  | Z0 => S754_zero false
  | Zpos p => SFdiv prec emax (S754_finite false p 0) (S754_finite false d 0)
  | Zneg p => SFdiv prec emax (S754_finite true p 0) (S754_finite false d 0)
  end.

Definition isnan (x : float) : bool :=
  match x with S754_nan => true | _ => false end.

Definition positive_p (x : float) : bool := SFltb (S754_zero false) x.

Definition to_int (x : float) : option Z :=
  match x with
  | S754_zero _ => Some 0
  | S754_finite s m e =>
      let a := match e with
               | Zneg k => Z.pos m / 2 ^ Z.pos k
               | _ => Z.pos m * 2 ^ e
               end in
      Some (if s then - a else a)
  | _ => None
  end.

(** The magnitude of a finite number as a fraction. *)
Definition fraction (m : positive) (e : Z) : N * N :=
  match e with
  | Zneg k => (Npos m, 2 ^ Npos k)%N
  | _ => (Npos m * 2 ^ Z.to_N e, 1)%N
  end.

(** Nearest integer to n/d, ties to even. *)
Definition round_half_even (n d : N) : N :=
  let q := (n / d)%N in
  let r := (n mod d)%N in
  match (2 * r ?= d)%N with
  | Lt => q
  | Gt => (q + 1)%N
  | Eq => if N.even q then q else (q + 1)%N
  end.

Definition two_digits (n : N) : list char :=
  [(48 + n / 10)%N; (48 + n mod 10)%N].

Definition sign_str (s : bool) : string := if s then "-" else "".

Definition format2 (x : float) : string :=
  match x with
  | S754_nan => "nan"
  | S754_infinity s => sign_str s +:+ "inf"
  | S754_zero s => sign_str s +:+ "0.00"
  | S754_finite s m e =>
      let (n, d) := fraction m e in
      let c := round_half_even (100 * n) d in
      sign_str s +:+ text (dec_of_N (c / 100) ++ "."%char :: two_digits (c mod 100))
  end.

(** Shortest decimal that reads back as the same number. *)
Section Repr.
Variables (m : positive) (e : Z).

Definition same (n : Z) (d : positive) : bool :=
  match of_frac n d with
  | S754_finite _ m' e' => Pos.eqb m m' && Z.eqb e e'
  | _ => false
  end.

(* floor of log10 of num/den *)
Fixpoint log10_up (fuel : nat) (q : N) (k : Z) : Z :=
  match fuel with
  | O => k
  | S f => if (q <? 10)%N then k else log10_up f (q / 10) (k + 1)
  end.
Fixpoint log10_down (fuel : nat) (n d : N) (k : Z) : Z :=
  match fuel with
  | O => k
  | S f => if (d <=? n)%N then k else log10_down f (10 * n) d (k - 1)
  end.
Definition log10_floor (n d : N) : Z :=
  if (d <=? n)%N then log10_up 400 (n / d) 0 else log10_down 400 n d 0.

(* the candidates with [nd] significant digits: Some (D, s) for D * 10^s *)
Definition candidate (k : Z) (nd : Z) : option (N * Z) :=
  let (n, d) := fraction m e in
  let s := k - nd + 1 in
  let (n', d') := match s with
                  | Zneg p => (n * 10 ^ Npos p, d)%N
                  | _ => (n, d * 10 ^ Z.to_N s)%N
                  end in
  let q := (n' / d')%N in
  let r := (n' mod d')%N in
  let back (D : N) :=
    match s with
    | Zneg p => same (Z.of_N D) (10 ^ p)
    | _ => same (Z.of_N D * 10 ^ s) 1
    end in
  let lo_ok := negb (q =? 0)%N && back q in
  let hi_ok := negb (r =? 0)%N && back (q + 1)%N in
  let near_lo := match (2 * r ?= d')%N with
                 | Lt => true
                 | Gt => false
                 | Eq => N.even q
                 end in
  if lo_ok && (near_lo || negb hi_ok) then Some (q, s)
  else if hi_ok then Some ((q + 1)%N, s)
  else None.

Fixpoint shortest (fuel : nat) (k : Z) (nd : Z) : N * Z :=
  match fuel with
  | O => (0%N, 0)
  | S f =>
      match candidate k nd with
      | Some r => r
      | None => shortest f k (nd + 1)
      end
  end.

Fixpoint drop_zeros (fuel : nat) (D : N) (s : Z) : N * Z :=
  match fuel with
  | O => (D, s)
  | S f => if ((D mod 10 =? 0) && negb (D =? 0))%N then drop_zeros f (D / 10)%N (s + 1) else (D, s)
  end.

Definition zeros (n : Z) : list char := repeat "0"%char (Z.to_nat n).

Definition repr_finite : list char :=
  let (n, d) := fraction m e in
  let k := log10_floor n d in
  let (D0, s0) := shortest 17 k 1 in
  let (D, s) := drop_zeros 20 D0 s0 in
  let ds := dec_of_N D in
  let nd := Z.of_nat (length ds) in
  let decpt := s + nd in
  if (decpt <=? -4) || (16 <? decpt) then
    let x := decpt - 1 in
    let mant := match ds with
                | [] => []
                | [c] => [c]
                | c :: tl => c :: "."%char :: tl
                end in
    let ex := dec_of_N (Z.to_N (Z.abs x)) in
    mant ++ "e"%char :: (if x <? 0 then "-"%char else "+"%char) ::
      (if Z.abs x <? 10 then "0"%char :: ex else ex)
  else if decpt <=? 0 then
    "0"%char :: "."%char :: zeros (- decpt) ++ ds
  else if decpt <? nd then
    firstn (Z.to_nat decpt) ds ++ "."%char :: skipn (Z.to_nat decpt) ds
  else
    ds ++ zeros (decpt - nd) ++ chars ".0".
End Repr.

Definition str (x : float) : string :=
  match x with
  | S754_nan => "nan"
  | S754_infinity s => sign_str s +:+ "inf"
  | S754_zero s => sign_str s +:+ "0.0"
  | S754_finite s m e => sign_str s +:+ text (repr_finite m e)
  end.

#[global] Instance number : Number float := {|
  of_int := of_Z;
  of_ratio := of_frac;
  add := SFadd prec emax;
  mul := SFmul prec emax;
  div := SFdiv prec emax;
  is_nan := isnan;
  gt0 := positive_p;
  trunc := to_int;
  fmt2 := format2;
  repr := str
|}.

End B64.


(** *** Exact rationals *)

Module Rat.

Definition of_Z (z : Z) : Qc := Q2Qc (inject_Z z).
Definition of_frac (n : Z) (d : positive) : Qc := Q2Qc (n # d).
Definition positive_p (x : Qc) : bool := 0 <? Qnum x.
Definition to_int (x : Qc) : option Z := Some (Z.quot (Qnum x) (Z.pos (Qden x))).

Definition format2 (x : Qc) : string :=
  let c := B64.round_half_even (100 * Z.to_N (Z.abs (Qnum x))) (Npos (Qden x)) in
  B64.sign_str (Qnum x <? 0) +:+
  text (dec_of_N (c / 100) ++ "."%char :: B64.two_digits (c mod 100)).

(** As Python prints a Fraction. *)
Definition str (x : Qc) : string :=
  str_of_Z (Qnum x) +:+
  match Qden x with
  | xH => ""
  | d => "/" +:+ text (dec_of_N (Npos d))
  end.

#[global] Instance number : Number Qc := {|
  of_int := of_Z;
  of_ratio := of_frac;
  add := Qcplus;
  mul := Qcmult;
  div := Qcdiv;
  is_nan := fun _ => false;
  gt0 := positive_p;
  trunc := to_int;
  fmt2 := format2;
  repr := str
|}.

End Rat.

(** *** Rounding errors of binary64

    The vocabulary for bounding how far the binary64 run of the program
    can drift from its run on exact rationals. *)

Module Round.

(** Powers of two, with integer exponents. *)
Definition pow2 (e : Z) : Q := (2 ^ e)%Q.
Definition hpow (p : positive) : Q := pow2 (- Zpos p).

(** The value of a number. *)
Definition val (x : B64.float) : Q :=
  match x with
  | S754_finite s m e =>
      if s then (- (inject_Z (Zpos m) * pow2 e))%Q else (inject_Z (Zpos m) * pow2 e)%Q
  | _ => 0%Q
  end.

(** Zero, or a positive normal number. *)
Definition nf (x : B64.float) : Prop :=
  match x with
  | S754_zero false => True
  | S754_finite false m e => digits2_pos m = 53%positive /\ -1074 <= e <= 971
  | _ => False
  end.

(** Where the rational [v] lies between the integers [m] and [m + 1], as
    [SpecFloat] records it while it shifts a mantissa. *)
Definition inloc (m : Z) (l : location) (v : Q) : Prop :=
  match l with
  | loc_Exact => (v == inject_Z m)%Q
  | loc_Inexact Lt => (inject_Z m < v /\ v < inject_Z m + (1 # 2))%Q
  | loc_Inexact Eq => (v == inject_Z m + (1 # 2))%Q
  | loc_Inexact Gt => (inject_Z m + (1 # 2) < v /\ v < inject_Z m + 1)%Q
  end.

Definition inrec (r : shr_record) (v : Q) : Prop :=
  inloc (shr_m r) (loc_of_shr_record r) v.

(** One rounding to nearest: [r] is within 2^-53 of [x], relatively. *)
Definition eps : Q := pow2 (-53).
Definition near (x r : Q) : Prop := (x * (1 - eps) <= r /\ r <= x * (1 + eps))%Q.

(** The values that round without overflow or underflow. *)
Definition inrange (q : Q) : Prop := (pow2 (-1000) <= q /\ q <= pow2 1000)%Q.

(** [k] roundings: [v] is within the factor (1 + 2^-52)^k of the
    nonnegative [q]. *)
Definition u : Q := 4503599627370497 # 4503599627370496.

Fixpoint upow (k : nat) : Q :=
  match k with
  | O => 1%Q
  | S k' => (u * upow k')%Q
  end.

Definition close (k : nat) (v q : Q) : Prop :=
  (0 <= q /\ q <= v * upow k /\ v <= q * upow k)%Q.

(** The exact values near which every number is normal. *)
Definition ok (q : Q) : Prop := (q == 0 \/ (pow2 (-900) <= q /\ q <= pow2 900))%Q.

Definition small (k : nat) : Prop := Z.of_nat k <= 2 ^ 50.

(** An exact amount: zero or at least 2^lo, and at most [T]. *)
Definition amount (lo : Z) (T : Q) (q : Q) : Prop :=
  (0 <= q /\ (q == 0 \/ pow2 lo <= q) /\ q <= T)%Q.

(** The number [x] stands for the exact [q], up to [k] roundings. *)
Definition sim (k : nat) (x : B64.float) (q : Q) : Prop := nf x /\ close k (val x) q.

(** A partial sum inside a summation: [x] stands for the exact [q] up to
    [k + d] roundings, and [q] is the sum of [c] amounts of at most [T]. *)
Definition approx (k : nat) (lo : Z) (T : Q) (d c : nat) (x : B64.float) (q : Q) : Prop :=
  sim (k + d) x q /\ amount lo (inject_Z (Z.of_nat c) * T) q.

End Round.

(** ** Exceptions *)

Inductive error :=
  | KeyError (key : string)       (* a missing column or row field *)
  | IndexKeyError (i : nat)       (* a row label missing from the assignments *)
  | ZeroDivisionError
  | OverflowError
  | ValueError
  | TypeError
  | OutsideModel.                 (* not an exception: pandas leaves the dtypes that are modelled *)

Inductive result (A : Type) :=
  | Ok (a : A)
  | Err (e : error).
Arguments Ok {A} a.
Arguments Err {A} e.

#[export] Instance result_ret : MRet result := fun A a => Ok a.
#[export] Instance result_bind : MBind result := fun A B f m =>
  match m with
  | Ok a => f a
  | Err e => Err e
  end.
#[export] Instance result_fmap : FMap result := fun A B f m =>
  match m with
  | Ok a => Ok (f a)
  | Err e => Err e
  end.

(** A loop whose body may raise: the elements are visited in order and the
    first exception ends the loop. *)
Fixpoint for_each {A B : Type} (f : A -> result B) (l : list A) : result (list B) :=
  match l with
  | [] => Ok []
  | a :: l' => b ← f a; bs ← for_each f l'; Ok (b :: bs)
  end.

Fixpoint for_fold {A S : Type} (f : S -> A -> result S) (l : list A) (s : S) : result S :=
  match l with
  | [] => Ok s
  | a :: l' => s' ← f s a; for_fold f l' s'
  end.

Definition concat_str (l : list string) : string := fold_right (@app char) "" l.

(** ** int

    [int(s)] for a str: a str that is not ASCII is first rewritten (a
    whitespace character becomes a space, a decimal digit its ASCII digit,
    the first other character beyond ASCII becomes [?] and ends the text:
    _PyUnicode_TransformDecimalAndSpaceToASCII); then blanks around the
    text are skipped, a sign and decimal digits with single underscores
    between them are read, and more than 4300 digits are refused
    (sys.get_int_max_str_digits). *)

Fixpoint to_ascii (l : list char) : list char :=
  match l with
  | [] => []
  | c :: l' =>
      if (c <? 127)%N then c :: to_ascii l'
      else if is_space c then " "%char :: to_ascii l'
      else match decimal c with
           | Some d => (48 + d)%N :: to_ascii l'
           | None => ["?"%char]
           end
  end.

Definition ascii_form (l : list char) : list char :=
  if forallb (fun c => (c <? 128)%N) l then l else to_ascii l.

(** [0-9] *)
Definition is_ascii_digit : char -> bool := in_range "0" "9".

(** Digits, with single underscores between them. *)
Fixpoint digits_us (after_digit : bool) (l : list char) : bool :=
  match l with
  | [] => after_digit
  | c :: l' =>
      if is_ascii_digit c then digits_us true l'
      else if char_eqb c "_" then after_digit && digits_us false l'
      else false
  end.

(** The blanks that [int] skips around the text: tab, LF, VT, FF, CR and
    the space (the separators 0x1c-0x1f are not skipped). *)
Definition is_cspace (c : char) : bool := in_range "009" "013" c || char_eqb c " ".

Fixpoint lskip (l : list char) : list char :=
  match l with
  | c :: l' => if is_cspace c then lskip l' else l
  | [] => []
  end.

Definition max_str_digits : nat := 4300.

(** [limit]: the most digits that are accepted, when there is a limit. *)
Definition int_of_str (limit : option nat) (l : list char) : result Z :=
  let s := rev (lskip (rev (lskip (ascii_form l)))) in
  let (neg, body) := match s with
                     | "-"%char :: r => (true, r)
                     | "+"%char :: r => (false, r)
                     | _ => (false, s)
                     end in
  if digits_us false body
  then let ds := List.filter (fun c => negb (char_eqb c "_")) body in
       if match limit with Some n => (n <? length ds)%nat | None => false end
       then Err ValueError
       else let n := int_of_digits ds in Ok (if neg then - n else n)
  else Err ValueError.

Definition py_int (l : list char) : result Z := int_of_str (Some max_str_digits) l.

(** The integers of a column of dtype int64. *)
Definition int64 (z : Z) : bool := (- 2 ^ 63 <=? z) && (z <? 2 ^ 63).

(** ** Data frames *)

Section Frames.
Context {F : Type} `{Number F}.

Inductive column :=
  | ColStr (l : list string)   (* dtype object, holding str *)
  | ColInt (l : list Z)        (* dtype int64 *)
  | ColFlt (l : list F).       (* dtype float64 *)

(** A scalar taken out of a frame. *)
Inductive value :=
  | VStr (s : string)
  | VInt (z : Z)
  | VFlt (x : F).

Record DataFrame := Frame {
  nrows : nat;
  cols : gmap string column
}.

(** [pd.DataFrame()] *)
Definition empty_frame : DataFrame := Frame 0 ∅.

(** [df.empty] *)
Definition df_empty (df : DataFrame) : bool :=
  (nrows df =? 0)%nat || bool_decide (cols df = ∅).

(** [name in df.columns] *)
Definition has_col (name : string) (df : DataFrame) : bool :=
  bool_decide (is_Some (cols df !! name)).

(** [df[name]] *)
Definition get_col (name : string) (df : DataFrame) : result column :=
  match cols df !! name with
  | Some c => Ok c
  | None => Err (KeyError name)
  end.

(** [df[name] = c] *)
Definition set_col (name : string) (c : column) (df : DataFrame) : DataFrame :=
  Frame (nrows df) (<[name := c]> (cols df)).

Definition to_float (v : value) : result F :=
  match v with
  | VInt z => Ok (of_int z)
  | VFlt x => Ok x
  | VStr _ => Err TypeError
  end.

(** Element-wise [a / b] for columns of dtype float64 or int64 (true
    division; numpy yields inf or NaN on a zero divisor). *)
Definition col_div (a b : column) : result column :=
  match a, b with
  | ColFlt x, ColInt y => Ok (ColFlt (zip_with (fun t q => div t (of_int q)) x y))
  | ColFlt x, ColFlt y => Ok (ColFlt (zip_with div x y))
  | ColInt x, ColInt y => Ok (ColFlt (zip_with (fun t q => div (of_int t) (of_int q)) x y))
  | ColInt x, ColFlt y => Ok (ColFlt (zip_with (fun t q => div (of_int t) q) x y))
  | _, _ => Err TypeError
  end.

(** Element-wise [a * b]; int64 times int64 stays int64. *)
Definition col_mul (a b : column) : result column :=
  match a, b with
  | ColInt x, ColFlt y => Ok (ColFlt (zip_with (fun c u => mul (of_int c) u) x y))
  | ColInt x, ColInt y => Ok (ColInt (zip_with (fun c u => wrap64 (c * u)) x y))
  | ColFlt x, ColFlt y => Ok (ColFlt (zip_with mul x y))
  | ColFlt x, ColInt y => Ok (ColFlt (zip_with (fun c u => mul c (of_int u)) x y))
  | _, _ => Err TypeError
  end.

(** The sum of a float64 array as numpy computes it (pairwise summation,
    DOUBLE_pairwise_sum): fewer than 8 numbers are added from the left; up
    to 128 numbers are added into 8 accumulators, the accumulators are
    combined as a tree and what is left over of the numbers is added from
    the left; more numbers are halved (at a multiple of 8) and the two
    sums added.  The halves are shorter than the whole, so the length is
    fuel enough.  The reduction adds the result to its initial 0.0; where
    numpy starts from -0.0 instead, the sum differs only for an array made
    of negative zeros alone. *)
Fixpoint unrolled (blocks : nat) (r l : list F) : list F * list F :=
  match blocks with
  | O => (r, l)
  | S b => unrolled b (zip_with add r (take 8 l)) (drop 8 l)
  end.

Definition tree8 (r : list F) : F :=
  match r with
  | [r0; r1; r2; r3; r4; r5; r6; r7] =>
      add (add (add r0 r1) (add r2 r3)) (add (add r4 r5) (add r6 r7))
  | _ => of_int 0
  end.

Definition block_sum (l : list F) : F :=
  if (length l <? 8)%nat then fold_left add l (of_int 0)
  else let (r, rest) := unrolled (length l / 8 - 1) (take 8 l) (drop 8 l) in
       fold_left add rest (tree8 r).

Fixpoint pairwise_sum (fuel : nat) (l : list F) : F :=
  match fuel with
  | S f =>
      if (128 <? length l)%nat
      then let n2 := (length l / 2 - (length l / 2) mod 8)%nat in
           add (pairwise_sum f (take n2 l)) (pairwise_sum f (drop n2 l))
      else block_sum l
  | O => block_sum l
  end.

Definition np_sum (l : list F) : F := add (of_int 0) (pairwise_sum (length l) l).

(** What [Series.sum] adds for an entry: 0 in the place of a NaN. *)
Definition nan_to_zero (x : F) : F := if is_nan x then of_int 0 else x.

(** [Series.sum()]: a NaN counts as 0; an int64 sum wraps. *)
Definition col_sum (c : column) : result value :=
  match c with
  | ColFlt x => Ok (VFlt (np_sum (nan_to_zero <$> x)))
  | ColInt x => Ok (VInt (fold_left (fun acc v => wrap64 (acc + v)) x 0))
  | ColStr _ => Err TypeError
  end.

(** [col > 0] *)
Definition col_gt0 (c : column) : result (list bool) :=
  match c with
  | ColFlt x => Ok (map gt0 x)
  | ColInt x => Ok (map (fun z => 0 <? z) x)
  | ColStr _ => Err TypeError
  end.

(** The [+] of Python's [sum] on numpy scalars. *)
Definition value_add (a b : value) : result value :=
  match a, b with
  | VInt x, VInt y => Ok (VInt (wrap64 (x + y)))
  | _, _ => x ← to_float a; y ← to_float b; Ok (VFlt (add x y))
  end.

(** [sum(xs)]: starts from the int 0. *)
Definition py_sum (xs : list value) : result value :=
  for_fold value_add xs (VInt 0).

(** [format(v, ".2f")]: an int is converted to float first. *)
Definition value_fmt2 (v : value) : result string :=
  x ← to_float v; Ok (fmt2 x).

(** [str(v)] *)
Definition value_str (v : value) : string :=
  match v with
  | VStr s => s
  | VInt z => str_of_Z z
  | VFlt x => repr x
  end.

(** [int(v)] *)
Definition value_int (v : value) : result Z :=
  match v with
  | VInt z => Ok z
  | VFlt x =>
      match trunc x with
      | Some z => Ok z
      | None => if is_nan x then Err ValueError else Err OverflowError
      end
  | VStr _ => Err ValueError
  end.

Definition cell (c : column) (i : nat) : option value :=
  match c with
  | ColStr l => VStr <$> l !! i
  | ColInt l => VInt <$> l !! i
  | ColFlt l => VFlt <$> l !! i
  end.

Definition is_str_col (c : column) : bool := match c with ColStr _ => true | _ => false end.
Definition is_flt_col (c : column) : bool := match c with ColFlt _ => true | _ => false end.

(** The rows that [iterrows] yields have one dtype: with an object column
    the values are kept as they are; otherwise a float column turns every
    int into a float. *)
Definition upcasts (df : DataFrame) : bool :=
  let cs := snd <$> map_to_list (cols df) in
  negb (existsb is_str_col cs) && existsb is_flt_col cs.

Definition upcast (b : bool) (v : value) : value :=
  match v with
  | VInt z => if b then VFlt (of_int z) else v
  | _ => v
  end.

(** [row[name]] for the row with label [i]. *)
Definition row_get (df : DataFrame) (i : nat) (name : string) : result value :=
  match cols df !! name with
  | Some c =>
      match cell c i with
      | Some v => Ok (upcast (upcasts df) v)
      | None => Err (KeyError name)
      end
  | None => Err (KeyError name)
  end.

(** The row labels selected by a boolean mask. *)
Fixpoint select (mask : list bool) (i : nat) : list nat :=
  match mask with
  | [] => []
  | b :: m => if b then i :: select m (S i) else select m (S i)
  end.

End Frames.

Arguments column F : clear implicits.
Arguments value F : clear implicits.
Arguments DataFrame F : clear implicits.

(** ** The program *)

Section Program.
Context {F : Type} `{Number F}.

(** *** parse_receipt *)

(** The loop over the pages: a page without text contributes nothing. *)
Definition page_text (pages : list (option string)) : string :=
  fold_left (fun acc page =>
               match page with
               | Some (c :: t) => acc +:+ (c :: t) +:+ nl
               | _ => acc
               end) pages "".

(** [float(s)] for a decimal literal [digits.digits]: the nearest float. *)
Definition float_of_decimal (l : list char) : F :=
  let (ip, fp) := split_at_dot l in
  of_ratio (int_of_digits (ip ++ fp)) (Z.to_pos (10 ^ Z.of_nat (length fp))).

Definition order_date_of (s : string) : string :=
  match Re.search date_pattern (chars s) with
  | Some (_, (segs, _)) => text (Re.group 1 date_pattern segs)
  | None => "Date Not Found"
  end.

(** One dict of [rows]: item, qty, total; [int] raises on a quantity of
    more than 4300 digits. *)
Definition item_row (segs : list (list char)) : result (string * Z * F) :=
  q ← py_int (Re.group 2 item_pattern segs);
  Ok (text (strip (Re.group 1 item_pattern segs)), q,
      float_of_decimal (Re.group 3 item_pattern segs)).

Definition item_rows (s : string) : result (list (string * Z * F)) :=
  for_each item_row (Re.finditer item_pattern (chars s)).

(** [pd.DataFrame(rows)] for a list of such dicts whose quantities fit
    int64. *)
Definition frame_of_rows (rows : list (string * Z * F)) : DataFrame F :=
  match rows with
  | [] => empty_frame
  | _ => Frame (length rows)
           (<["item" := ColStr (map (fun r => r.1.1) rows)]>
            (<["qty" := ColInt (map (fun r => r.1.2) rows)]>
             (<["total" := ColFlt (map (fun r => r.2) rows)]> ∅)))
  end.

(** The function on the text of the pages.  A quantity of 2^63 or more
    makes the qty column uint64 or object for pandas: the model stops
    there. *)
Definition parse_text (s : string) : result (DataFrame F * string) :=
  let order_date := order_date_of s in
  rows ← item_rows s;
  if negb (forallb (fun r => int64 r.1.2) rows) then Err OutsideModel else
  let df := frame_of_rows rows in
  if df_empty df || negb (has_col "total" df) then Ok (empty_frame, order_date)
  else
    t ← get_col "total" df;
    q ← get_col "qty" df;
    u ← col_div t q;
    Ok (set_col "unit_price" u df, order_date).

Definition parse_receipt (pages : list (option string)) : result (DataFrame F * string) :=
  parse_text (page_text pages).

(** *** build_summary *)

(** [assignments[i].get(person, 0)] for every row label. *)
Definition person_counts (assignments : gmap nat (gmap string Z)) (person : string)
    (n : nat) : result (list Z) :=
  for_each (fun i =>
              match assignments !! i with
              | Some d => Ok (default 0 (d !! person))
              | None => Err (IndexKeyError i)
              end) (seq 0 n).

(** The body of the first loop: the quantity and cost columns of a person. *)
Definition add_person (assignments : gmap nat (gmap string Z)) (df : DataFrame F)
    (person : string) : result (DataFrame F) :=
  counts ← person_counts assignments person (nrows df);
  let df := set_col person (ColInt counts) df in
  q ← get_col person df;
  u ← get_col "unit_price" df;
  cost ← col_mul q u;
  Ok (set_col (person +:+ "_cost") cost df).

Definition times : string := [215%N].    (* U+00D7 *)
Definition dash : string := [8211%N].    (* U+2013 *)

(** One line of a person's breakdown. *)
Definition item_line (df : DataFrame F) (person : string) (i : nat) : result string :=
  qv ← row_get df i person;
  qty ← value_int qv;
  cost ← row_get df i (person +:+ "_cost");
  it ← row_get df i "item";
  c ← value_fmt2 cost;
  Ok (str_of_Z qty +:+ times +:+ " " +:+ value_str it +:+ " " +:+ dash +:+ " $" +:+ c +:+ nl).

(** The body of the second loop. *)
Definition person_section (df : DataFrame F) (person : string) : result string :=
  ccol ← get_col (person +:+ "_cost") df;
  total_cost ← col_sum ccol;
  t ← value_fmt2 total_cost;
  qcol ← get_col person df;
  mask ← col_gt0 qcol;
  lines ← for_each (item_line df person) (select mask 0);
  Ok (person +:+ ": $" +:+ t +:+ nl +:+ concat_str lines +:+ nl).

Definition person_total (df : DataFrame F) (person : string) : result (value F) :=
  ccol ← get_col (person +:+ "_cost") df;
  col_sum ccol.

Definition total_allocated (df : DataFrame F) (people : list string) : result (value F) :=
  sums ← for_each (person_total df) people;
  py_sum sums.

Definition assign_frame (df : DataFrame F) (assignments : gmap nat (gmap string Z))
    (people : list string) : result (DataFrame F) :=
  for_fold (add_person assignments) people df.

Definition build_summary (df : DataFrame F) (assignments : gmap nat (gmap string Z))
    (people : list string) (order_date : string) : result string :=
  assign_df ← assign_frame df assignments people;
  let output := order_date +:+ ":" +:+ nl +:+ nl in
  sections ← for_each (person_section assign_df) people;
  let output := output +:+ concat_str sections in
  total ← total_allocated assign_df people;
  t ← value_fmt2 total;
  Ok (output +:+ "Grand Total = $" +:+ t +:+ nl).

(** *** main: extra items and unit cards *)

Record LineItem := {
  item : string;
  qty : Z;
  total : F;
  unit_price : F
}.


(** [pd.DataFrame(extra_items)] *)
Definition frame_of_items (items : list LineItem) : DataFrame F :=
  match items with
  | [] => empty_frame
  | _ => Frame (length items)
           (<["item" := ColStr (map item items)]>
            (<["qty" := ColInt (map qty items)]>
             (<["total" := ColFlt (map total items)]>
              (<["unit_price" := ColFlt (map unit_price items)]> ∅))))
  end.

Definition col_app (a b : column F) : option (column F) :=
  match a, b with
  | ColStr x, ColStr y => Some (ColStr (x ++ y))
  | ColInt x, ColInt y => Some (ColInt (x ++ y))
  | ColFlt x, ColFlt y => Some (ColFlt (x ++ y))
  | _, _ => None
  end.

(** [pd.concat([a, b], ignore_index=True)] for two frames with the same
    typed columns, which is how main uses it. *)
Definition pd_concat (a b : DataFrame F) : DataFrame F :=
  Frame (nrows a + nrows b)
    (merge (fun x y => match x, y with
                       | Some cx, Some cy => col_app cx cy
                       | _, _ => None
                       end) (cols a) (cols b)).

(** The table shown and assigned: main stops when no item was parsed;
    otherwise the extra items, if any, are appended to the parsed ones. *)
Definition item_table (df : DataFrame F) (extra_items : list LineItem) : option (DataFrame F) :=
  if df_empty df then None
  else match extra_items with
       | [] => Some df
       | _ => Some (pd_concat df (frame_of_items extra_items))
       end.

Definition unit_card (idx i : nat) (name : string) : string :=
  text (dec_of_N (N.of_nat idx)) +:+ "_" +:+ text (dec_of_N (N.of_nat i)) +:+ ": " +:+ name.

(** The cards of one row. *)
Definition row_cards (df : DataFrame F) (idx : nat) : result (list string) :=
  qv ← row_get df idx "qty";
  n ← value_int qv;
  for_each (fun i => it ← row_get df idx "item"; Ok (unit_card idx i (value_str it)))
           (seq 0 (Z.to_nat n)).

Definition unit_cards (df : DataFrame F) : result (list string) :=
  cards ← for_each (row_cards df) (seq 0 (nrows df));
  Ok (concat cards).

(** The rows of a frame carrying the four item columns. *)
Definition line_item (df : DataFrame F) (i : nat) : option LineItem :=
  match cols df !! "item", cols df !! "qty", cols df !! "total", cols df !! "unit_price" with
  | Some (ColStr a), Some (ColInt b), Some (ColFlt c), Some (ColFlt d) =>
      match a !! i, b !! i, c !! i, d !! i with
      | Some x, Some y, Some z, Some w => Some {| item := x; qty := y; total := z; unit_price := w |}
      | _, _, _, _ => None
      end
  | _, _, _, _ => None
  end.

Definition line_items (df : DataFrame F) : list LineItem :=
  omap (line_item df) (seq 0 (nrows df)).

End Program.

Arguments LineItem F : clear implicits.

(** ** The shapes the specification names

    The two patterns, restated as decompositions of the matched text. *)

Definition spaces (l : list char) : Prop := l <> [] /\ Forall (fun c => is_space c = true) l.
Definition digits (l : list char) : Prop := l <> [] /\ Forall (fun c => is_digit c = true) l.

(** [<item name><whitespace>Qty<whitespace><integer><whitespace>$?<decimal>] *)
Record item_match := ItemMatch {
  m_name : list char;
  m_ws1 : list char;
  m_ws2 : list char;
  m_qty : list char;
  m_ws3 : list char;
  m_cur : list char;
  m_int : list char;
  m_frac : list char
}.

Definition m_total (m : item_match) : list char := m_int m ++ chars "." ++ m_frac m.

Definition matched (m : item_match) : list char :=
  m_name m ++ m_ws1 m ++ chars "Qty" ++ m_ws2 m ++ m_qty m ++ m_ws3 m ++ m_cur m ++ m_total m.

Definition item_shape (m : item_match) : Prop :=
  m_name m <> [] /\ Forall (fun c => c <> "010"%char) (m_name m) /\
  spaces (m_ws1 m) /\ spaces (m_ws2 m) /\ digits (m_qty m) /\ spaces (m_ws3 m) /\
  (m_cur m = [] \/ m_cur m = chars "$") /\
  digits (m_int m) /\ Forall (fun c => is_digit c = true) (m_frac m) /\ length (m_frac m) = 2%nat.

(** What the pieces of [item_pattern] consume in such a match. *)
Definition item_segs (m : item_match) : list (list char) :=
  [m_name m; m_ws1 m; chars "Q"; chars "t"; chars "y"; m_ws2 m; m_qty m; m_ws3 m;
   m_cur m; m_int m; chars "."; m_frac m].





(** An item match begins at the head of [s]. *)
Definition item_starts (s : list char) : Prop :=
  exists m rest, item_shape m /\ s = matched m ++ rest.

(** The successive non-overlapping matches of a text, from the left: each
    one begins at the first position, after the previous match, where a
    match can begin, and takes the shortest item name possible there. *)
Inductive ItemScan : list char -> list item_match -> Prop :=
  | scan_end s :
      (forall pre suf, s = pre ++ suf -> ~ item_starts suf) ->
      ItemScan s []
  | scan_match gap m rest ms :
      item_shape m ->
      (forall p1 p2, gap = p1 ++ p2 -> p2 <> [] -> ~ item_starts (p2 ++ matched m ++ rest)) ->
      (forall m' rest', item_shape m' -> matched m ++ rest = matched m' ++ rest' ->
                        (length (m_name m) <= length (m_name m'))%nat) ->
      ItemScan rest ms ->
      ItemScan (gap ++ matched m ++ rest) (m :: ms).




Section Spec.
Context {F : Type} `{Number F}.

(** The LineItem the specification derives from a match. *)
Definition to_item (m : item_match) : LineItem F :=
  let q := int_of_digits (m_qty m) in
  let t := float_of_decimal (m_total m) in
  {| item := text (strip (m_name m)); qty := q; total := t; unit_price := div t (of_int q) |}.

(** The cards of the item at index [idx]: one for each ordinal below its
    quantity. *)
Definition cards_of (idx : nat) (it : LineItem F) : list string :=
  (fun i => unit_card idx i (item it)) <$> seq 0 (Z.to_nat (qty it)).

(** The number of units of item [i] that the assignment gives to a person. *)
Definition assigned_qty (assignments : gmap nat (gmap string Z)) (person : string) (i : nat) : Z :=
  default 0 (assignments !! i ≫= fun d => d !! person).

(** The quantity column of a person. *)
Definition counts (assignments : gmap nat (gmap string Z)) (person : string) (n : nat) : list Z :=
  assigned_qty assignments person <$> seq 0 n.

(** [cost[person][item] = assigned_qty * unit_price], item by item. *)
Definition costs (items : list (LineItem F)) (assignments : gmap nat (gmap string Z))
    (person : string) : list F :=
  imap (fun i it => mul (of_int (assigned_qty assignments person i)) (unit_price it)) items.

(** The sum of a float column, as [Series.sum] computes it. *)
Definition series_sum (xs : list F) : F := np_sum (nan_to_zero <$> xs).

(** [person_total[person]]: the sum over the items of the person's costs. *)
Definition person_sum (items : list (LineItem F)) (assignments : gmap nat (gmap string Z))
    (person : string) : F :=
  series_sum (costs items assignments person).

(** The sum over all people of their totals, starting from 0 as [sum] does. *)
Definition grand_total (items : list (LineItem F)) (assignments : gmap nat (gmap string Z))
    (people : list string) : F :=
  fold_left add (person_sum items assignments <$> people) (of_int 0).

(** The summary as the specification lays it out: a header with the order
    date; for each person, in order, the total and one line for each item
    with a positive assigned quantity, then a blank line; the grand total. *)
Definition line_text (c : Z) (it : LineItem F) : string :=
  str_of_Z c +:+ times +:+ " " +:+ item it +:+ " " +:+ dash +:+ " $" +:+
  fmt2 (mul (of_int c) (unit_price it)) +:+ nl.

Definition item_lines (items : list (LineItem F)) (assignments : gmap nat (gmap string Z))
    (person : string) : list string :=
  omap (fun i =>
          it ← items !! i;
          let c := assigned_qty assignments person i in
          if 0 <? c then Some (line_text c it) else None)
       (seq 0 (length items)).

Definition section_text (items : list (LineItem F)) (assignments : gmap nat (gmap string Z))
    (person : string) : string :=
  person +:+ ": $" +:+ fmt2 (person_sum items assignments person) +:+ nl +:+
  concat_str (item_lines items assignments person) +:+ nl.

Definition summary_text (items : list (LineItem F)) (assignments : gmap nat (gmap string Z))
    (people : list string) (order_date : string) : string :=
  (order_date +:+ ":" +:+ nl +:+ nl) +:+
  concat_str (section_text items assignments <$> people) +:+
  "Grand Total = $" +:+ fmt2 (grand_total items assignments people) +:+ nl.

(** The units of item [i] assigned to the people, together. *)
Definition total_assigned (assignments : gmap nat (gmap string Z)) (people : list string)
    (i : nat) : Z :=
  foldr Z.add 0 ((fun p => assigned_qty assignments p i) <$> people).

(** What the first loop of build_summary has established once the people
    in [done] are processed. *)
Definition assigned (items : list (LineItem F)) (assignments : gmap nat (gmap string Z))
    (done : list string) (df : DataFrame F) : Prop :=
  nrows df = length items /\
  cols df !! "unit_price" = Some (ColFlt (unit_price <$> items)) /\
  cols df !! "item" = Some (ColStr (item <$> items)) /\
  forall p, p ∈ done ->
    cols df !! p = Some (ColInt (counts assignments p (length items))) /\
    cols df !! (p +:+ "_cost") = Some (ColFlt (costs items assignments p)).

(** The summary with a given grand total. *)
Definition summary_with (items : list (LineItem F)) (assignments : gmap nat (gmap string Z))
    (people : list string) (order_date : string) (g : F) : string :=
  (order_date +:+ ":" +:+ nl +:+ nl) +:+
  concat_str (section_text items assignments <$> people) +:+
  "Grand Total = $" +:+ fmt2 g +:+ nl.

(** Reconciliation: when every unit of every item is assigned, the summary
    reports the sum of the item totals as its grand total. *)
Definition reconciles (items : list (LineItem F)) (assignments : gmap nat (gmap string Z))
    (people : list string) : Prop :=
  (forall i it, items !! i = Some it -> total_assigned assignments people i = qty it) ->
  forall order_date,
    build_summary (frame_of_items items) assignments people order_date =
    Ok (summary_with items assignments people order_date (series_sum (total <$> items))).

(** A row of the item table whose total is a whole number of cents, as
    [float] reads it from a literal with two decimals: name, quantity and
    cents. *)
Definition cent_item (r : string * Z * Z) : LineItem F :=
  {| item := r.1.1; qty := r.1.2; total := of_ratio r.2 100;
     unit_price := div (of_ratio r.2 100) (of_int r.1.2) |}.

(** The row of cents that a match stands for. *)
Definition row_of (m : item_match) : string * Z * Z :=
  (text (strip (m_name m)), int_of_digits (m_qty m), int_of_digits (m_int m ++ m_frac m)).

(** A sum from the right, for reasoning in exact arithmetic. *)
Definition sumr (xs : list F) : F := foldr add (of_int 0) xs.

(** The names under which build_summary stores the columns of the people do
    not run into each other or into the two columns it reads back. *)
Definition fresh_names (people : list string) : Prop :=
  ("item" ∉ people) /\ ("unit_price" ∉ people) /\
  forall p q, p ∈ people -> q ∈ people -> q <> p +:+ "_cost".

End Spec.

(** *** The exact amounts

    What the columns of build_summary hold when nothing is rounded. *)

Definition qsum (l : list Q) : Q := foldr Qplus 0%Q l.

(** The cents of a table, together. *)
Definition cents_sum (rows : list (string * Z * Z)) : Z := foldr Z.add 0 (snd <$> rows).

(** The exact unit price of a row. *)
Definition share (r : string * Z * Z) : Q := ((r.2 # 100) / inject_Z r.1.2)%Q.

(** A row that the error analysis covers: a quantity of at least 1 that
    fits int64, and a total below 2^50 cents. *)
Definition row_ok (r : string * Z * Z) : Prop :=
  1 <= r.1.2 < 2 ^ 63 /\ 0 <= r.2 < 2 ^ 50.

(** The exact cost column for given quantities. *)
Definition exact_costs (f : nat -> Z) (rows : list (string * Z * Z)) : list Q :=
  imap (fun i r => (inject_Z (f i) * share r)%Q) rows.

(** *** Exact arithmetic

    The laws of a number interface without rounding, overflow or NaN. *)
Class Exact (F : Type) `{Number F} : Prop := {
  add_comm x y : add x y = add y x;
  add_assoc x y z : add x (add y z) = add (add x y) z;
  add_zero x : add (of_int 0) x = x;
  of_int_add a b : of_int (a + b) = add (of_int a) (of_int b);
  mul_add a b u : mul (add a b) u = add (mul a u) (mul b u);
  mul_zero u : mul (of_int 0) u = of_int 0;
  mul_div q t : q <> 0 -> mul (of_int q) (div t (of_int q)) = t;
  no_nan x : is_nan x = false
}.

(** ** The session: members and the tally of the cards

    What main keeps in [st.session_state] and does between the parsed
    table and build_summary.  The drag-and-drop widget is not modelled:
    what it returns is a list of containers, each a header and the cards
    under it. *)

(** *** add_member *)

Record Session := {
  members : list string;
  new_member : string       (* the text of the "Member name" box *)
}.

Definition add_member (s : Session) : Session :=
  let name := text (strip (chars (new_member s))) in
  {| members := if negb (str_eqb name "") && negb (bool_decide (name ∈ members s))
                then members s ++ [name]
                else members s;
     new_member := "" |}.

(** *** The index of a card *)

(** [s.split(sep)[0]]: what precedes the first [sep]. *)
Fixpoint before (sep : char) (l : list char) : list char :=
  match l with
  | [] => []
  | c :: l' => if char_eqb c sep then [] else c :: before sep l'
  end.

(** [int(card.split(':')[0].split('_')[0])].  What int reads here is the
    label of a row when the card is one that main wrote; the limit of int
    on the number of digits, far above the digits of a row label, is left
    out. *)
Definition card_index (card : string) : result Z :=
  int_of_str None (before "_" (before ":" (chars card))).

(** *** The tally *)

(** [{idx: {person: 0 for person in people} for idx in df.index}] *)
Definition init_counts (people : list string) : gmap string Z :=
  list_to_map ((fun p => (p, 0)) <$> people).

Definition init_assignments (people : list string) (n : nat) : gmap nat (gmap string Z) :=
  list_to_map ((fun i => (i, init_counts people)) <$> seq 0 n).

(** [assignments[idx][person] += 1] *)
Definition bump (a : gmap nat (gmap string Z)) (idx : Z) (person : string)
    : result (gmap nat (gmap string Z)) :=
  if idx <? 0 then Err (KeyError (str_of_Z idx))
  else match a !! Z.to_nat idx with
       | None => Err (IndexKeyError (Z.to_nat idx))
       | Some d =>
           match d !! person with
           | None => Err (KeyError person)
           | Some c => Ok (<[Z.to_nat idx := <[person := c + 1]> d]> a)
           end
       end.

(** One container: a header and its cards. *)
Definition tally_container (a : gmap nat (gmap string Z)) (c : string * list string)
    : result (gmap nat (gmap string Z)) :=
  if str_eqb c.1 "Unassigned" then Ok a
  else for_fold (fun a card => idx ← card_index card; bump a idx c.1) c.2 a.

Definition tally (people : list string) (n : nat) (containers : list (string * list string))
    : result (gmap nat (gmap string Z)) :=
  for_fold tally_container containers (init_assignments people n).

(** The containers handed to the widget: one for each member, empty, and
    Unassigned with all the cards. *)
Definition start_containers (people : list string) (unit_cards : list string)
    : list (string * list string) :=
  ((fun p => (p, [])) <$> people) ++ [("Unassigned"%string, unit_cards)].

(** "Compute Summary": the tally, then build_summary. *)
Definition compute_summary {F} `{Number F} (df : DataFrame F) (people : list string)
    (containers : list (string * list string)) (order_date : string) : result string :=
  assignments ← tally people (nrows df) containers;
  build_summary df assignments people order_date.

(** *** Counting cards *)

(** The card decodes to the index [i]. *)
Definition is_index (i : nat) (card : string) : bool :=
  match card_index card with
  | Ok z => z =? Z.of_nat i
  | Err _ => false
  end.

(** The number of cards of item [i] in a list. *)
Definition count_cards (i : nat) (cards : list string) : Z :=
  Z.of_nat (length (List.filter (is_index i) cards)).

(** The number of cards of item [i] under the header [p]; the header
    Unassigned is not tallied. *)
Definition held (containers : list (string * list string)) (p : string) (i : nat) : Z :=
  if str_eqb p "Unassigned" then 0
  else foldr Z.add 0
         ((fun c => if str_eqb c.1 p then count_cards i c.2 else 0) <$> containers).

(** *** Vocabulary for the properties of the session *)

(** No whitespace at either end. *)
Definition trimmed (l : list char) : Prop :=
  (forall c r, l = c :: r -> is_space c = false) /\
  (forall r c, l = r ++ [c] -> is_space c = false).

(** Typing a name into the box and pressing Enter. *)
Definition type_name (s : Session) (typed : string) : Session :=
  add_member {| members := members s; new_member := typed |}.

(** The session when the page is first run: no member yet. *)
Definition start_session : Session := {| members := []; new_member := "" |}.

(** A container that the tally accepts: Unassigned, or cards of rows of
    the table under the name of a member (no name is looked up for a
    container without cards). *)
Definition valid_container (people : list string) (n : nat) (c : string * list string) : Prop :=
  c.1 = "Unassigned"%string \/
  (Forall (fun card => exists z, card_index card = Ok z /\ 0 <= z < Z.of_nat n) c.2 /\
   (c.2 = [] \/ c.1 ∈ people)).

(** Counts are kept for the rows of the table and the members, and for
    nothing else. *)
Definition covers (people : list string) (n : nat) (a : gmap nat (gmap string Z)) : Prop :=
  forall q j, is_Some (a !! j ≫= fun d : gmap string Z => d !! q) <-> (j < n)%nat /\ q ∈ people.

(** The cards left under Unassigned, and the cards of all containers. *)
Definition unassigned_cards (containers : list (string * list string)) : list string :=
  concat ((fun c => if str_eqb c.1 "Unassigned" then c.2 else []) <$> containers).

Definition all_cards (containers : list (string * list string)) : list string :=
  concat (snd <$> containers).

(** Every container is that of a member or is Unassigned, as main builds
    them. *)
Definition headers_ok (people : list string) (containers : list (string * list string)) : Prop :=
  Forall (fun c => c.1 ∈ people \/ c.1 = "Unassigned"%string) containers.

(** An amount of cents as it is printed with two decimals. *)
Definition money (cents : Z) : string :=
  text (dec_of_N (Z.to_N cents / 100) ++ "."%char :: B64.two_digits (Z.to_N cents mod 100)).

(** *** What parse_receipt makes of the matches

    [int] reads a quantity of at most 4300 digits; pandas keeps the
    quantities in an int64 column when they are below 2^63. *)

Definition qty_readable (m : item_match) : bool :=
  (length (m_qty m) <=? max_str_digits)%nat.

Definition qty_int64 (m : item_match) : bool := int64 (int_of_digits (m_qty m)).

Definition parse_of {F} `{Number F} (ms : list item_match) (order_date : string)
    : result (DataFrame F * string) :=
  if negb (forallb qty_readable ms) then Err ValueError
  else if negb (forallb qty_int64 ms) then Err OutsideModel
  else Ok (frame_of_items (to_item <$> ms), order_date).

(** * Characters *)

Lemma char_eqb_spec (a b : char) : reflect (a = b) (char_eqb a b).
Proof. apply N.eqb_spec. Qed.

Lemma char_eqb_eq (a b : char) : char_eqb a b = true <-> a = b.
Proof. apply N.eqb_eq. Qed.

Lemma char_eqb_refl (a : char) : char_eqb a a = true.
Proof. apply N.eqb_refl. Qed.

Lemma str_eqb_spec (a b : string) : reflect (a = b) (str_eqb a b).
Proof. unfold str_eqb. apply bool_decide_reflect. Qed.

(** The whitespace characters, one by one. *)
Lemma is_space_elem c : is_space c = true <-> In c whitespace.
Proof.
  unfold is_space. rewrite existsb_exists. split.
  - intros (x & Hx & E). apply char_eqb_eq in E. subst x. exact Hx.
  - intros H. exists c. split; [exact H | apply char_eqb_refl].
Qed.

(** A decimal digit lies in the run of ten that begins at its zero. *)
Lemma decimal_spec c d :
  decimal c = Some d <->
  exists z, List.find (fun z => ((z <=? c) && (c <? z + 10))%N) digit_zeros = Some z /\
            (z <= c < z + 10)%N /\ d = (c - z)%N.
Proof.
  unfold decimal.
  destruct (List.find (fun z => ((z <=? c) && (c <? z + 10))%N) digit_zeros) as [z|] eqn:E; cbn.
  - pose proof (find_some _ _ E) as [_ Hz]. apply andb_true_iff in Hz as [H1 H2].
    apply N.leb_le in H1. apply N.ltb_lt in H2. split.
    + intros [= <-]. exists z. auto.
    + intros (z' & [= <-] & _ & ->). reflexivity.
  - split; [discriminate | intros (z & Hz & _); discriminate].
Qed.

Lemma decimal_lt c d : decimal c = Some d -> (d < 10)%N.
Proof. intros H. apply decimal_spec in H as (z & _ & Hz & ->). lia. Qed.

Lemma is_digit_decimal c : is_digit c = true <-> exists d, decimal c = Some d.
Proof.
  unfold is_digit. destruct (decimal c) as [d|]; split; eauto; try discriminate.
  intros (d & H). discriminate.
Qed.

Lemma digit_value_range c : 0 <= digit_value c < 10.
Proof.
  unfold digit_value. destruct (decimal c) as [d|] eqn:E; [|lia].
  apply decimal_lt in E. lia.
Qed.

(** No digit is a whitespace character. *)
Lemma space_not_digit c : is_space c = true -> is_digit c = false.
Proof.
  intros H. apply is_space_elem in H. unfold whitespace in H. cbn [In] in H.
  repeat (destruct H as [<- | H]; [vm_compute; reflexivity|]). contradiction.
Qed.

Lemma digit_not_space c : is_digit c = true -> is_space c = false.
Proof.
  intros H. destruct (is_space c) eqn:E; [|reflexivity].
  apply space_not_digit in E. congruence.
Qed.

(** The ASCII digits. *)
Lemma is_ascii_digit_spec c : is_ascii_digit c = true <-> (48 <= c <= 57)%N.
Proof.
  unfold is_ascii_digit, in_range, code. rewrite andb_true_iff, !N.leb_le.
  change ("0"%char : N) with 48%N. change ("9"%char : N) with 57%N. reflexivity.
Qed.

Lemma decimal_ascii c : (48 <= c <= 57)%N -> decimal c = Some (c - 48)%N.
Proof.
  intros Hc. unfold decimal, digit_zeros. cbn [List.find].
  replace ((48 <=? c) && (c <? 48 + 10))%N with true; [reflexivity|].
  symmetry. apply andb_true_iff. split; [apply N.leb_le | apply N.ltb_lt]; lia.
Qed.

Lemma ascii_digit_digit c : is_ascii_digit c = true -> is_digit c = true.
Proof.
  intros H. apply is_ascii_digit_spec in H. unfold is_digit. rewrite decimal_ascii by exact H.
  reflexivity.
Qed.

(** * The matcher agrees with the declarative notion of a match *)

Module ReFacts.
Import Re.

Lemma below_spec h n :
  below h n = true <-> match h with Some m => (n < m)%nat | None => True end.
Proof.
  destruct h as [m|]; simpl; [apply Nat.ltb_lt | tauto].
Qed.

Lemma push_some acc r segs rest :
  push acc r = Some (segs, rest) ->
  exists segs', segs = rev acc :: segs' /\ r = Some (segs', rest).
Proof.
  destruct r as [[segs' rest']|]; simpl; [|discriminate].
  intros [= <- <-]. eauto.
Qed.

Lemma rep_unfold e k n acc s :
  rep e k n acc s =
  match greed e with
  | Greedy => match more e k n acc s with Some r => Some r | None => stop e k n acc s end
  | Lazy => match stop e k n acc s with Some r => Some r | None => more e k n acc s end
  end.
Proof. destruct s; reflexivity. Qed.

Lemma rep_cases e k n acc s r :
  rep e k n acc s = Some r -> more e k n acc s = Some r \/ stop e k n acc s = Some r.
Proof.
  rewrite rep_unfold.
  destruct (greed e); destruct (more e k n acc s), (stop e k n acc s);
    intros; simplify_eq; auto.
Qed.

Lemma rep_sound e k s : forall n acc segs rest,
  rep e k n acc s = Some (segs, rest) ->
  length acc = n ->
  Forall (fun c => cls e c = true) acc ->
  match hi e with Some h => (n <= h)%nat | None => True end ->
  exists seg' segs' s',
    segs = (rev acc ++ seg') :: segs' /\ s = seg' ++ s' /\
    k s' = Some (segs', rest) /\ fits e (rev acc ++ seg').
Proof.
  induction s as [|c s IH]; intros n acc segs rest Hr Hn Hacc Hhi;
    apply rep_cases in Hr as [Hr|Hr].
  - discriminate.
  - unfold stop in Hr. destruct (lo e <=? n)%nat eqn:Hlo; [|discriminate].
    apply push_some in Hr as (segs' & -> & Hk).
    exists [], segs', []. rewrite app_nil_r. repeat split; auto.
    + apply Forall_rev. exact Hacc.
    + rewrite length_rev, Hn. apply Nat.leb_le. exact Hlo.
    + rewrite length_rev, Hn. exact Hhi.
  - simpl in Hr. destruct (cls e c) eqn:Hc; [|discriminate].
    destruct (below (hi e) n) eqn:Hb; [|discriminate]. simpl in Hr.
    apply IH in Hr as (seg' & segs' & s' & -> & -> & Hk & Hfit).
    + exists (c :: seg'), segs', s'.
      replace (rev acc ++ c :: seg') with (rev (c :: acc) ++ seg')
        by (simpl; rewrite <- app_assoc; reflexivity).
      refine (conj _ (conj _ (conj Hk Hfit))); reflexivity.
    + simpl. lia.
    + constructor; auto.
    + apply below_spec in Hb. destruct (hi e); [lia | exact I].
  - unfold stop in Hr. destruct (lo e <=? n)%nat eqn:Hlo; [|discriminate].
    apply push_some in Hr as (segs' & -> & Hk).
    exists [], segs', (c :: s). rewrite app_nil_r. repeat split; auto.
    + apply Forall_rev. exact Hacc.
    + rewrite length_rev, Hn. apply Nat.leb_le. exact Hlo.
    + rewrite length_rev, Hn. exact Hhi.
Qed.

Lemma rep_complete e k seg' : forall n acc s',
  is_Some (k s') ->
  Forall (fun c => cls e c = true) seg' ->
  (lo e <= n + length seg')%nat ->
  match hi e with Some h => (n + length seg' <= h)%nat | None => True end ->
  is_Some (rep e k n acc (seg' ++ s')).
Proof.
  induction seg' as [|c t IH]; intros n acc s' Hk Hcls Hlo Hhi; rewrite rep_unfold.
  - simpl in Hlo. rewrite Nat.add_0_r in Hlo.
    assert (Hs : is_Some (stop e k n acc ([] ++ s'))).
    { unfold stop. apply Nat.leb_le in Hlo. rewrite Hlo.
      destruct Hk as [[segs rest] Hk]. simpl. rewrite Hk. simpl. eauto. }
    destruct (greed e); destruct (more e k n acc ([] ++ s')); destruct Hs as [r Hs];
      rewrite ?Hs; eauto.
  - assert (Hm : is_Some (more e k n acc ((c :: t) ++ s'))).
    { simpl. inversion Hcls as [|? ? Hc Ht]; subst. rewrite Hc.
      assert (Hb : below (hi e) n = true).
      { apply below_spec. simpl in Hhi. destruct (hi e); [lia | exact I]. }
      rewrite Hb. simpl. apply IH; auto.
      - simpl in Hlo. lia.
      - simpl in Hhi. destruct (hi e); [lia | exact I]. }
    destruct Hm as [r Hm]. rewrite Hm.
    destruct (greed e); destruct (stop e k n acc ((c :: t) ++ s')); eauto.
Qed.

(** A lazy piece stops at the first count from which the rest matches. *)
Lemma stop_some e k n acc s :
  (lo e <= n)%nat -> is_Some (k s) ->
  exists segs rest, stop e k n acc s = Some (rev acc :: segs, rest).
Proof.
  intros Hlo [[segs rest] Hk]. unfold stop.
  apply Nat.leb_le in Hlo. rewrite Hlo, Hk. simpl. eauto.
Qed.

Lemma rep_lazy_min e k s : forall n acc seg segs rest,
  greed e = Lazy ->
  rep e k n acc s = Some (seg :: segs, rest) ->
  length acc = n ->
  forall seg' s', s = seg' ++ s' -> (lo e <= n + length seg')%nat ->
    is_Some (k s') -> (length seg <= n + length seg')%nat.
Proof.
  induction s as [|c s IH]; intros n acc seg segs rest Hg Hr Hn seg' s' Hs Hlo Hk;
    rewrite rep_unfold, Hg in Hr.
  - symmetry in Hs. apply app_eq_nil in Hs as [-> ->].
    rewrite Nat.add_0_r in Hlo.
    destruct (stop_some e k n acc [] Hlo Hk) as (a & b & Hst).
    rewrite Hst in Hr. injection Hr as <- _ _. rewrite length_rev. lia.
  - destruct seg' as [|c' t'].
    + simpl in Hs. subst s'. rewrite Nat.add_0_r in Hlo.
      destruct (stop_some e k n acc (c :: s) Hlo Hk) as (a & b & Hst).
      rewrite Hst in Hr. injection Hr as <- _ _. rewrite length_rev. lia.
    + simpl in Hs. injection Hs as <- ->.
      destruct (stop e k n acc (c :: t' ++ s')) as [r|] eqn:Hst.
      * injection Hr as ->. unfold stop in Hst.
        destruct (lo e <=? n)%nat; [|discriminate].
        apply push_some in Hst as (segs' & [= -> ->] & _).
        rewrite length_rev. simpl. lia.
      * simpl in Hr. destruct (cls e c && below (hi e) n); [|discriminate].
        eapply IH with (seg' := t') in Hr; eauto; simpl in *; lia.
Qed.

Theorem match_here_sound p : forall s segs rest,
  match_here p s = Some (segs, rest) ->
  Matches p segs /\ s = concat segs ++ rest.
Proof.
  induction p as [|e p IH]; intros s segs rest Hm; simpl in Hm.
  - injection Hm as <- <-. split; [constructor | reflexivity].
  - apply rep_sound in Hm as (seg' & segs' & s' & -> & -> & Hk & Hfit); auto.
    + apply IH in Hk as [HM ->]. simpl in *. split.
      * constructor; auto.
      * rewrite <- app_assoc. reflexivity.
    + destruct (hi e); [lia | exact I].
Qed.

Theorem match_here_complete p : forall segs rest,
  Matches p segs -> is_Some (match_here p (concat segs ++ rest)).
Proof.
  induction p as [|e p IH]; intros segs rest HM; inversion HM as [|? seg ? segs' Hfit HM']; subst.
  - simpl. eauto.
  - simpl. rewrite <- app_assoc. destruct Hfit as (Hc & Hlo & Hhi).
    apply rep_complete; auto.
Qed.

Corollary match_here_starts p s :
  is_Some (match_here p s) <-> starts p s.
Proof.
  split.
  - intros [[segs rest] Hm]. apply match_here_sound in Hm as [HM ->].
    exists segs, rest. auto.
  - intros (segs & rest & HM & ->). apply match_here_complete. exact HM.
Qed.

Corollary match_here_none p s :
  match_here p s = None <-> ~ starts p s.
Proof.
  rewrite <- match_here_starts. rewrite <- eq_None_not_Some. reflexivity.
Qed.

(** With a lazy first piece, the match found has the shortest first run. *)
Theorem match_here_lazy_min e p s seg segs rest :
  greed e = Lazy ->
  match_here (e :: p) s = Some (seg :: segs, rest) ->
  forall seg' segs' rest', Matches (e :: p) (seg' :: segs') ->
    s = concat (seg' :: segs') ++ rest' -> (length seg <= length seg')%nat.
Proof.
  intros Hg Hm seg' segs' rest' HM Hs. simpl in Hm.
  inversion HM as [|? ? ? ? Hfit HM']; subst.
  eapply rep_lazy_min with (seg' := seg') (s' := concat segs' ++ rest') in Hm; eauto.
  - simpl. rewrite <- app_assoc. reflexivity.
  - destruct Hfit as (_ & Hlo & _). simpl. exact Hlo.
  - apply match_here_complete. exact HM'.
Qed.

End ReFacts.

(** * search and finditer *)

Module ScanFacts.
Import Re ReFacts.

Lemma search_some p s : forall pre segs rest,
  search p s = Some (pre, (segs, rest)) ->
  s = pre ++ concat segs ++ rest /\
  match_here p (concat segs ++ rest) = Some (segs, rest) /\
  forall p1 p2, pre = p1 ++ p2 -> p2 <> [] -> ~ starts p (p2 ++ concat segs ++ rest).
Proof.
  induction s as [|c s IH]; intros pre segs rest Hs; simpl in Hs.
  - destruct (match_here p []) as [r|] eqn:Hm; [|discriminate].
    injection Hs as <- ->. pose proof (match_here_sound _ _ _ _ Hm) as [_ Heq].
    rewrite <- Heq. split; [reflexivity|]. split; [exact Hm|].
    intros p1 p2 Hp Hne. symmetry in Hp. apply app_eq_nil in Hp as [_ ->]. congruence.
  - destruct (match_here p (c :: s)) as [r|] eqn:Hm.
    + injection Hs as <- ->. pose proof (match_here_sound _ _ _ _ Hm) as [_ Heq].
      rewrite <- Heq. split; [reflexivity|]. split; [exact Hm|].
      intros p1 p2 Hp Hne. symmetry in Hp. apply app_eq_nil in Hp as [_ ->]. congruence.
    + destruct (search p s) as [[pre' r]|] eqn:Hs'; [|discriminate].
      injection Hs as <- ->. destruct (IH _ _ _ eq_refl) as (Heq & Hm' & Hgap).
      split; [simpl; congruence|]. split; [exact Hm'|].
      intros p1 p2 Hp Hne. destruct p1 as [|c' p1].
      * simpl in Hp. subst p2. simpl. rewrite <- Heq.
        apply match_here_none. exact Hm.
      * simpl in Hp. injection Hp as -> ->. eapply Hgap; eauto.
Qed.


Lemma search_none p s :
  search p s = None -> forall pre suf, s = pre ++ suf -> ~ starts p suf.
Proof.
  induction s as [|c s IH]; simpl; intros Hs pre suf Heq.
  - destruct (match_here p []) eqn:Hm; [discriminate|].
    symmetry in Heq. apply app_eq_nil in Heq as [_ ->]. apply match_here_none. exact Hm.
  - destruct (match_here p (c :: s)) eqn:Hm; [discriminate|].
    destruct (search p s) as [[? ?]|] eqn:Hs'; [discriminate|].
    destruct pre as [|c' pre].
    + simpl in Heq. subst suf. apply match_here_none. exact Hm.
    + simpl in Heq. injection Heq as -> ->. eapply IH; eauto.
Qed.

Lemma finditer_from_skip p n : forall s,
  (n <= length s)%nat ->
  finditer_from p n s = finditer_from p 0 (drop n s).
Proof.
  induction n as [|n IH]; intros s Hn.
  - rewrite drop_0. reflexivity.
  - destruct s as [|c s]; simpl in Hn; [lia|]. simpl. apply IH. lia.
Qed.

(** [finditer] is [search] repeated on what follows each match, as long as
    no match is empty. *)
Theorem finditer_search p :
  (forall segs, Matches p segs -> concat segs <> []) ->
  forall s, finditer p s =
            match search p s with
            | Some (_, (segs, rest)) => segs :: finditer p rest
            | None => []
            end.
Proof.
  intros Hne. unfold finditer. induction s as [|c s IH]; simpl.
  - destruct (match_here p []) as [[segs rest]|] eqn:Hm; [|reflexivity].
    apply match_here_sound in Hm as [HM Heq].
    symmetry in Heq. apply app_eq_nil in Heq as [Heq _]. apply Hne in HM. contradiction.
  - destruct (match_here p (c :: s)) as [[segs rest]|] eqn:Hm.
    + f_equal. apply match_here_sound in Hm as [HM Heq].
      destruct (concat segs) as [|c' l] eqn:Hc; [apply Hne in HM; contradiction|].
      simpl in Heq. injection Heq as -> ->. simpl.
      rewrite finditer_from_skip by (rewrite length_app; lia).
      rewrite drop_app_length. reflexivity.
    + rewrite IH. destruct (search p s) as [[pre [segs rest]]|]; reflexivity.
Qed.

End ScanFacts.

(** * The two patterns and the shapes they stand for *)

Module PatternFacts.
Import Re ReFacts ScanFacts.

Lemma fits_one g f seg :
  fits (one g f) seg <-> exists c, seg = [c] /\ f c = true.
Proof.
  unfold fits, one; simpl. split.
  - intros (Hc & Hlo & Hhi). destruct seg as [|c [|c' t]]; simpl in *; try lia.
    exists c. split; [reflexivity|]. inversion Hc; assumption.
  - intros (c & -> & Hc). simpl. repeat split; auto.
Qed.

Lemma fits_char g a seg : fits (one g (is_char a)) seg <-> seg = [a].
Proof.
  rewrite fits_one. unfold is_char. split.
  - intros (c & -> & Hc). apply char_eqb_eq in Hc. congruence.
  - intros ->. exists a. split; [reflexivity|]. apply char_eqb_refl.
Qed.

Lemma fits_plus g f seg :
  fits (plus g f) seg <-> seg <> [] /\ Forall (fun c => f c = true) seg.
Proof.
  unfold fits, plus; simpl. split.
  - intros (Hc & Hlo & _). split; [|exact Hc]. destruct seg; simpl in *; [lia|discriminate].
  - intros (Hne & Hc). repeat split; auto. destruct seg; simpl; [congruence|lia].
Qed.

Lemma fits_lazy_plus g f seg :
  fits (lazy_plus g f) seg <-> seg <> [] /\ Forall (fun c => f c = true) seg.
Proof. apply (fits_plus g f seg). Qed.

Lemma fits_opt g a seg :
  fits (opt g (is_char a)) seg <-> seg = [] \/ seg = [a].
Proof.
  unfold fits, opt; simpl. split.
  - intros (Hc & _ & Hhi). destruct seg as [|c [|c' t]]; simpl in *; try lia; auto.
    right. inversion Hc as [|? ? Hx _]; subst. apply char_eqb_eq in Hx. congruence.
  - intros [-> | ->]; simpl; repeat split; auto; try lia.
    constructor; [apply char_eqb_refl | constructor].
Qed.

Lemma fits_between g f a b seg :
  fits (between g f a b) seg <->
  Forall (fun c => f c = true) seg /\ (a <= length seg <= b)%nat.
Proof. unfold fits, between; simpl. tauto. Qed.

Ltac split_matches H :=
  repeat match type of H with
         | Forall2 _ (_ :: _) _ =>
             let seg := fresh "seg" in
             let Hfit := fresh "Hfit" in
             apply Forall2_cons_inv_l in H as (seg & ? & Hfit & H & ->)
         | Forall2 _ [] _ => apply Forall2_nil_inv_l in H as ->
         end.

Lemma dot_not_newline l :
  Forall (fun c => is_dot c = true) l <-> Forall (fun c => c <> "010"%char) l.
Proof.
  apply Forall_iff. intros c. unfold is_dot.
  rewrite negb_true_iff. rewrite <- not_true_iff_false, char_eqb_eq. reflexivity.
Qed.

(** The matches of [item_pattern] are the item shapes. *)
Theorem item_pattern_shape segs :
  Matches item_pattern segs <-> exists m, item_shape m /\ segs = item_segs m.
Proof.
  unfold Matches, item_pattern, lit. simpl. split.
  - intros H. split_matches H.
    apply fits_lazy_plus in Hfit as [Hn1 Hn2]. apply dot_not_newline in Hn2.
    apply fits_plus in Hfit0. apply fits_char in Hfit1 as ->.
    apply fits_char in Hfit2 as ->. apply fits_char in Hfit3 as ->.
    apply fits_plus in Hfit4. apply fits_plus in Hfit5. apply fits_plus in Hfit6.
    apply fits_opt in Hfit7. apply fits_plus in Hfit8. apply fits_char in Hfit9 as ->.
    apply fits_between in Hfit10 as [Hf1 Hf2].
    exists (ItemMatch seg seg0 seg4 seg5 seg6 seg7 seg8 seg10).
    split; [|reflexivity].
    unfold item_shape, spaces, digits; simpl.
    repeat split; try tauto; try lia.
  - intros ([name ws1 ws2 q ws3 cur ip fp] & Hs & ->).
    unfold item_shape, spaces, digits in Hs. simpl in Hs.
    destruct Hs as (H1 & H2 & H3 & H4 & H5 & H6 & H7 & H8 & H9 & H10).
    unfold item_segs; simpl.
    repeat apply List.Forall2_cons; try apply List.Forall2_nil;
      rewrite ?fits_char, ?fits_plus, ?fits_lazy_plus, ?fits_opt, ?fits_between, ?dot_not_newline;
      try tauto; try reflexivity.
    split; [exact H9 | lia].
Qed.

Lemma concat_item_segs m : concat (item_segs m) = matched m.
Proof.
  unfold item_segs, matched, m_total. simpl. rewrite app_nil_r. reflexivity.
Qed.

Lemma item_groups m :
  group 1 item_pattern (item_segs m) = m_name m /\
  group 2 item_pattern (item_segs m) = m_qty m /\
  group 3 item_pattern (item_segs m) = m_total m.
Proof.
  unfold item_segs, m_total. simpl. rewrite !app_nil_r. auto.
Qed.

Lemma item_starts_iff s : item_starts s <-> starts item_pattern s.
Proof.
  unfold item_starts, starts. split.
  - intros (m & rest & Hs & ->). exists (item_segs m), rest.
    split; [apply item_pattern_shape; eauto | rewrite concat_item_segs; reflexivity].
  - intros (segs & rest & HM & ->). apply item_pattern_shape in HM as (m & Hs & ->).
    exists m, rest. rewrite concat_item_segs. auto.
Qed.

Lemma item_match_nonempty segs : Matches item_pattern segs -> concat segs <> [].
Proof.
  intros HM. apply item_pattern_shape in HM as (m & Hs & ->).
  rewrite concat_item_segs. unfold matched. destruct Hs as (Hn & _).
  destruct (m_name m); [congruence | discriminate].
Qed.

(** [finditer] with the item pattern scans the text as the specification
    describes. *)
Theorem finditer_items s :
  exists ms, finditer item_pattern s = item_segs <$> ms /\ ItemScan s ms.
Proof.
  remember (length s) as n eqn:Hn. revert s Hn.
  induction n as [n IH] using lt_wf_ind. intros s ->.
  rewrite (finditer_search _ item_match_nonempty).
  destruct (search item_pattern s) as [[pre [segs rest]]|] eqn:Hs.
  - apply search_some in Hs as (-> & Hm & Hgap).
    pose proof (match_here_sound _ _ _ _ Hm) as [HM _].
    pose proof (item_match_nonempty _ HM) as Hne.
    apply item_pattern_shape in HM as (m & Hshape & ->).
    rewrite concat_item_segs in *.
    destruct (IH (length rest)) with (s := rest) as (ms & -> & Hscan); [|reflexivity|].
    { rewrite !length_app. destruct (matched m); [congruence | simpl; lia]. }
    exists (m :: ms). split; [reflexivity|].
    apply scan_match; auto.
    + intros p1 p2 Hp Hp2. rewrite item_starts_iff. eauto.
    + intros m' rest' Hs' Heq.
      assert (HM' : Matches item_pattern (item_segs m')) by (apply item_pattern_shape; eauto).
      change item_pattern with (lazy_plus 1 is_dot :: tl item_pattern) in Hm, HM'.
      change (item_segs m) with (m_name m :: tl (item_segs m)) in Hm.
      apply (match_here_lazy_min (lazy_plus 1 is_dot) _ _ _ _ _ eq_refl Hm
               (m_name m') (tl (item_segs m')) rest' HM').
      rewrite Heq. change (m_name m' :: tl (item_segs m')) with (item_segs m').
      rewrite concat_item_segs. reflexivity.
  - exists []. split; [reflexivity|].
    apply scan_end. intros pre suf Heq. rewrite item_starts_iff.
    eapply search_none; eauto.
Qed.




(** ** A line of its own is matched as it stands *)















End PatternFacts.

(** * The exception monad *)

Lemma bind_Ok {A B} (f : A -> result B) (a : A) : (Ok a ≫= f) = f a.
Proof. reflexivity. Qed.

Lemma bind_Err {A B} (f : A -> result B) (e : error) : (Err e ≫= f) = Err e.
Proof. reflexivity. Qed.

Lemma bind_Ok_inv {A B} (f : A -> result B) (m : result A) (b : B) :
  (m ≫= f) = Ok b -> exists a, m = Ok a /\ f a = Ok b.
Proof. destruct m as [a|e]; [eauto | discriminate]. Qed.

(** * parse_receipt *)

Section ParseFacts.
Context {F : Type} `{Number F}.
Import Re ReFacts ScanFacts PatternFacts.

(** [int] on a run of decimal digits. *)
Lemma digit_zero_cases z : In z digit_zeros -> z = 48%N \/ (1632 <= z)%N.
Proof.
  unfold digit_zeros. cbn [In]. intros Hz.
  repeat (destruct Hz as [<- | Hz]; [first [left; reflexivity | right; lia]|]). contradiction.
Qed.

Lemma digit_below c : is_digit c = true -> (c < 1632)%N -> (48 <= c <= 57)%N.
Proof.
  intros Hd Hc. apply is_digit_decimal in Hd as (d & Hd).
  apply decimal_spec in Hd as (z & Hz & Hr & _).
  apply find_some in Hz as [Hz _]. apply digit_zero_cases in Hz as [-> | Hz]; lia.
Qed.

(** The ASCII digit that [int] reads for a decimal digit. *)
Lemma to_ascii_digits l :
  Forall (fun c => is_digit c = true) l ->
  Forall (fun c => is_ascii_digit c = true) (ascii_form l) /\
  length (ascii_form l) = length l /\
  int_of_digits (ascii_form l) = int_of_digits l.
Proof.
  intros Hl. unfold ascii_form.
  destruct (forallb (fun c => (c <? 128)%N) l) eqn:Ha.
  - split; [|auto]. rewrite forallb_forall in Ha. rewrite Forall_forall in Hl |- *.
    intros c Hc. apply is_ascii_digit_spec. apply digit_below; [apply Hl; exact Hc|].
    specialize (Ha c (proj1 (list_elem_of_In _ _) Hc)). apply N.ltb_lt in Ha. lia.
  - clear Ha. unfold int_of_digits.
    assert (Hgen : forall acc,
              Forall (fun c => is_ascii_digit c = true) (to_ascii l) /\
              length (to_ascii l) = length l /\
              fold_left (fun acc c => 10 * acc + digit_value c) (to_ascii l) acc =
              fold_left (fun acc c => 10 * acc + digit_value c) l acc); [|apply Hgen].
    induction Hl as [|c l Hc _ IH]; intros acc.
    2: destruct (IH (10 * acc + digit_value c)) as (IH1 & IH2 & IH3).
    + cbn. auto.
    + cbn [to_ascii]. destruct (N.ltb_spec c 127) as [Hlt | Hge].
      * assert (Hr : (48 <= c <= 57)%N) by (apply digit_below; [exact Hc | lia]).
        split; [constructor; [apply is_ascii_digit_spec; exact Hr | exact IH1]|].
        split; [cbn [length]; congruence|]. cbn [fold_left]. apply IH3.
      * rewrite (digit_not_space c Hc).
        apply is_digit_decimal in Hc as (d & Hd). rewrite Hd.
        pose proof (decimal_lt c d Hd) as Hd10.
        split; [constructor; [apply is_ascii_digit_spec; lia | exact IH1]|].
        split; [cbn [length]; congruence|]. cbn [fold_left].
        replace (digit_value (48 + d)%N) with (digit_value c); [apply IH3|].
        unfold digit_value. rewrite Hd, decimal_ascii by lia. f_equal. lia.
Qed.

Lemma ascii_digit_cspace c : is_ascii_digit c = true -> is_cspace c = false.
Proof.
  intros Hd. apply is_ascii_digit_spec in Hd. unfold is_cspace, in_range, char_eqb, code.
  apply orb_false_iff. split.
  - apply andb_false_iff. right. apply N.leb_gt. change ("013"%char : N) with 13%N. lia.
  - apply N.eqb_neq. change (" "%char : N) with 32%N. lia.
Qed.

Lemma lskip_ascii_digits l :
  Forall (fun c => is_ascii_digit c = true) l -> rev (lskip (rev (lskip l))) = l.
Proof.
  intros Hl. destruct l as [|c l]; [reflexivity|].
  assert (Hs : forall x r, is_ascii_digit x = true -> lskip (x :: r) = x :: r).
  { intros x r Hx. cbn [lskip]. rewrite (ascii_digit_cspace x Hx). reflexivity. }
  rewrite Hs by (inversion Hl; assumption).
  destruct (exists_last (l := c :: l)) as (r & y & Hy); [discriminate|].
  rewrite Hy in *. rewrite rev_app_distr. cbn [rev app].
  rewrite Hs.
  - cbn [rev]. rewrite rev_involutive. reflexivity.
  - apply Forall_app in Hl as [_ Hl]. inversion Hl. assumption.
Qed.

Lemma digits_us_ascii l : Forall (fun c => is_ascii_digit c = true) l ->
  forall b, digits_us b l = match l with [] => b | _ => true end.
Proof.
  induction 1 as [|c l Hc Hl IH]; intros b; cbn [digits_us]; [reflexivity|].
  rewrite Hc, IH. destruct l; reflexivity.
Qed.

Lemma filter_ascii_digits l : Forall (fun c => is_ascii_digit c = true) l ->
  List.filter (fun c => negb (char_eqb c "_")) l = l.
Proof.
  induction 1 as [|c l Hc Hl IH]; cbn [List.filter]; [reflexivity|].
  rewrite IH. destruct (char_eqb_spec c "_") as [-> | ]; [discriminate Hc | reflexivity].
Qed.

Lemma ascii_form_ascii l :
  Forall (fun c => is_ascii_digit c = true) l -> ascii_form l = l.
Proof.
  intros Hl. unfold ascii_form.
  replace (forallb (fun c => (c <? 128)%N) l) with true; [reflexivity|].
  symmetry. induction Hl as [|c l Hc _ IH]; [reflexivity|]. cbn [forallb].
  rewrite IH, andb_true_r. apply is_ascii_digit_spec in Hc. apply N.ltb_lt. lia.
Qed.

Lemma int_of_str_ascii limit l :
  l <> [] -> Forall (fun c => is_ascii_digit c = true) l ->
  int_of_str limit l =
  if match limit with Some n => (n <? length l)%nat | None => false end
  then Err ValueError else Ok (int_of_digits l).
Proof.
  intros Hne Hl. unfold int_of_str.
  rewrite (ascii_form_ascii l Hl), (lskip_ascii_digits l Hl).
  destruct l as [|c l]; [congruence|].
  assert (Hc : (48 <= c <= 57)%N) by (apply is_ascii_digit_spec; inversion Hl; assumption).
  assert (Hsign : match c :: l with
                  | "-"%char :: r => (true, r)
                  | "+"%char :: r => (false, r)
                  | _ => (false, c :: l)
                  end = (false, c :: l)).
  { destruct c as [|p]; [lia|].
    do 6 (destruct p as [p|p|]; try reflexivity); lia. }
  rewrite Hsign, (digits_us_ascii (c :: l) Hl), (filter_ascii_digits (c :: l) Hl). reflexivity.
Qed.

Lemma int_of_str_digits limit l :
  l <> [] -> Forall (fun c => is_digit c = true) l ->
  int_of_str limit l =
  if match limit with Some n => (n <? length l)%nat | None => false end
  then Err ValueError else Ok (int_of_digits l).
Proof.
  intros Hne Hl. destruct (to_ascii_digits l Hl) as (Ha & Hlen & Hval).
  rewrite <- Hlen, <- Hval.
  assert (Hne' : ascii_form l <> []).
  { intros E. rewrite E in Hlen. destruct l; [congruence | discriminate]. }
  rewrite <- (int_of_str_ascii limit (ascii_form l) Hne' Ha).
  unfold int_of_str. rewrite (ascii_form_ascii _ Ha). reflexivity.
Qed.


Lemma py_int_digits l :
  l <> [] -> Forall (fun c => is_digit c = true) l ->
  py_int l = if (max_str_digits <? length l)%nat then Err ValueError else Ok (int_of_digits l).
Proof. intros Hne Hl. apply (int_of_str_digits (Some max_str_digits) l Hne Hl). Qed.

Lemma item_row_segs m :
  item_shape m ->
  item_row (item_segs m) =
  if qty_readable m
  then Ok (item (to_item (F:=F) m), qty (to_item (F:=F) m), total (to_item (F:=F) m))
  else Err ValueError.
Proof.
  intros Hm. pose proof Hm as (_ & _ & _ & _ & [Hq Hd] & _).
  unfold item_row, to_item, qty_readable. destruct (item_groups m) as (-> & -> & ->).
  rewrite (py_int_digits (m_qty m) Hq Hd).
  destruct (Nat.ltb_spec max_str_digits (length (m_qty m))) as [Hlt | Hle].
  - rewrite (proj2 (Nat.leb_gt _ _)) by exact Hlt. reflexivity.
  - rewrite (proj2 (Nat.leb_le _ _)) by exact Hle. reflexivity.
Qed.

Lemma frame_of_rows_ne (rows : list (string * Z * F)) :
  rows <> [] ->
  frame_of_rows rows =
  Frame (length rows)
    (<["item" := ColStr (map (fun r => r.1.1) rows)]>
     (<["qty" := ColInt (map (fun r => r.1.2) rows)]>
      (<["total" := ColFlt (map (fun r => r.2) rows)]> ∅))).
Proof. destruct rows; [congruence | reflexivity]. Qed.

Lemma frame_of_items_ne (items : list (LineItem F)) :
  items <> [] ->
  frame_of_items items =
  Frame (length items)
    (<["item" := ColStr (map item items)]>
     (<["qty" := ColInt (map qty items)]>
      (<["total" := ColFlt (map total items)]>
       (<["unit_price" := ColFlt (map unit_price items)]> ∅)))).
Proof. destruct items; [congruence | reflexivity]. Qed.

(** The frame built from the dicts differs from the frame of the items only
    by the unit price column. *)
Lemma frame_with_unit_price (items : list (LineItem F)) :
  items <> [] ->
  Forall (fun it => unit_price it = div (total it) (of_int (qty it))) items ->
  let df := frame_of_rows ((fun it => (item it, qty it, total it)) <$> items) in
  df_empty df = false /\ has_col "total" df = true /\
  get_col "total" df = Ok (ColFlt (total <$> items)) /\
  get_col "qty" df = Ok (ColInt (qty <$> items)) /\
  set_col "unit_price"
    (ColFlt (zip_with (fun t q => div t (of_int q)) (total <$> items) (qty <$> items))) df
  = frame_of_items items.
Proof.
  intros Hne Hup. cbn zeta.
  rewrite frame_of_rows_ne by (destruct items; [congruence | discriminate]).
  rewrite frame_of_items_ne by assumption.
  unfold df_empty, has_col, get_col, set_col. cbn [nrows cols].
  change (@map) with (@fmap list _). rewrite <- !list_fmap_compose, length_fmap.
  split; [|split; [|split; [|split]]].
  - apply orb_false_iff. split.
    + apply Nat.eqb_neq. destruct items; [congruence | discriminate].
    + apply bool_decide_eq_false. apply insert_non_empty.
  - apply bool_decide_eq_true.
    rewrite lookup_insert_ne, lookup_insert_ne, lookup_insert_eq by done. eauto.
  - rewrite lookup_insert_ne, lookup_insert_ne, lookup_insert_eq by done. reflexivity.
  - rewrite lookup_insert_ne, lookup_insert_eq by done. reflexivity.
  - f_equal.
    rewrite (insert_insert_ne _ "unit_price" "item") by done.
    rewrite (insert_insert_ne _ "unit_price" "qty") by done.
    rewrite (insert_insert_ne _ "unit_price" "total") by done.
    do 3 f_equal. f_equal. f_equal.
    rewrite zip_with_fmap_l, zip_with_fmap_r, zip_with_diag.
    apply Forall_fmap_ext_1. eapply Forall_impl; [exact Hup|].
    intros x Hx. simpl. symmetry. exact Hx.
Qed.

Lemma to_item_unit_price m :
  unit_price (to_item (F:=F) m) = div (total (to_item m)) (of_int (qty (to_item m))).
Proof. reflexivity. Qed.

Lemma for_each_rows (ms : list item_match) :
  Forall item_shape ms ->
  for_each item_row (item_segs <$> ms) =
  if forallb qty_readable ms
  then Ok ((fun it : LineItem F => (item it, qty it, total it)) <$> (to_item <$> ms))
  else Err ValueError.
Proof.
  induction 1 as [|m ms Hm _ IH]; [reflexivity|].
  rewrite fmap_cons. cbn [for_each forallb]. rewrite (item_row_segs m Hm).
  destruct (qty_readable m); [|reflexivity]. rewrite bind_Ok, IH. cbn [andb].
  destruct (forallb qty_readable ms); reflexivity.
Qed.

Lemma ItemScan_shapes s ms : ItemScan s ms -> Forall item_shape ms.
Proof. induction 1; constructor; assumption. Qed.

Lemma item_rows_spec s :
  exists ms,
    ItemScan (chars s) ms /\
    item_rows s =
    if forallb qty_readable ms
    then Ok ((fun it : LineItem F => (item it, qty it, total it)) <$> (to_item <$> ms))
    else Err ValueError.
Proof.
  destruct (finditer_items (chars s)) as (ms & Hf & Hscan).
  exists ms. split; [exact Hscan|].
  unfold item_rows. rewrite Hf. apply for_each_rows. eapply ItemScan_shapes. exact Hscan.
Qed.

(** What parse_receipt returns for a text, in terms of the matches of the
    item pattern. *)
Theorem parse_text_spec s :
  exists ms,
    ItemScan (chars s) ms /\
    parse_text (F:=F) s = parse_of ms (order_date_of s).
Proof.
  destruct (item_rows_spec s) as (ms & Hscan & Hrows).
  exists ms. split; [exact Hscan|].
  unfold parse_text, parse_of. rewrite Hrows.
  destruct (forallb qty_readable ms); [|reflexivity]. rewrite bind_Ok. cbn [negb].
  rewrite <- list_fmap_compose.
  assert (E : forallb (fun r : string * Z * F => int64 r.1.2)
                ((fun it : LineItem F => (item it, qty it, total it)) ∘ to_item <$> ms) =
              forallb qty_int64 ms).
  { clear. induction ms as [|m ms IH]; [reflexivity|]. rewrite fmap_cons. cbn [forallb].
    rewrite IH. reflexivity. }
  rewrite E. destruct (forallb qty_int64 ms); [|reflexivity]. cbn [negb].
  rewrite list_fmap_compose.
  destruct ms as [|m ms]; [reflexivity|].
  set (items := to_item <$> m :: ms).
  destruct (frame_with_unit_price items) as (He & Hc & Ht & Hq & Hset).
  { discriminate. }
  { apply Forall_fmap, Forall_forall. intros x _. apply to_item_unit_price. }
  rewrite He, Hc, Ht, bind_Ok, Hq, bind_Ok. cbn [orb negb col_div].
  rewrite bind_Ok, Hset. reflexivity.
Qed.



Lemma omap_seq {A} (f : nat -> option A) (l : list A) k :
  (forall i x, l !! i = Some x -> f (k + i)%nat = Some x) ->
  omap f (seq k (length l)) = l.
Proof.
  revert k. induction l as [|x l IH]; intros k Hf; [reflexivity|].
  simpl. rewrite <- (Nat.add_0_r k) at 1. rewrite (Hf 0%nat x eq_refl).
  f_equal. apply IH. intros i y Hy.
  replace (S k + i)%nat with (k + S i)%nat by lia. apply Hf. exact Hy.
Qed.

(** The rows of the frame of a list of items are these items. *)
Lemma line_items_frame (items : list (LineItem F)) :
  line_items (frame_of_items items) = items.
Proof.
  destruct (decide (items = [])) as [->|Hne]; [reflexivity|].
  rewrite frame_of_items_ne by assumption.
  unfold line_items. cbn [nrows]. apply omap_seq. intros i x Hx.
  unfold line_item. cbn [cols].
  rewrite lookup_insert_eq.
  rewrite lookup_insert_ne, lookup_insert_eq by done.
  rewrite lookup_insert_ne, lookup_insert_ne, lookup_insert_eq by done.
  rewrite lookup_insert_ne, lookup_insert_ne, lookup_insert_ne, lookup_insert_eq by done.
  change (@map) with (@fmap list _). simpl (0 + i)%nat.
  rewrite !list_lookup_fmap, Hx. simpl.
  destruct x; reflexivity.
Qed.

Lemma nrows_frame (items : list (LineItem F)) :
  nrows (frame_of_items items) = length items.
Proof. destruct items; reflexivity. Qed.

End ParseFacts.

(** * Strings *)

Lemma chars_append s t : chars (s +:+ t) = chars s ++ chars t.
Proof. reflexivity. Qed.

Lemma chars_inj s t : chars s = chars t -> s = t.
Proof. intros Heq. exact Heq. Qed.

Lemma append_assoc (s t u : string) : (s +:+ t) +:+ u = s +:+ t +:+ u.
Proof. symmetry. apply app_assoc. Qed.

Lemma append_nil_r (s : string) : s +:+ "" = s.
Proof. apply app_nil_r. Qed.

Lemma append_inj_l (s1 s2 t : string) : s1 +:+ t = s2 +:+ t -> s1 = s2.
Proof. apply app_inv_tail. Qed.

Lemma append_length (s t : string) : length (s +:+ t) = (length s + length t)%nat.
Proof. apply length_app. Qed.

Lemma cost_name_neq (p : string) : p <> p +:+ "_cost".
Proof.
  intros Heq. apply (f_equal (@length char)) in Heq. rewrite append_length in Heq.
  simpl in Heq. lia.
Qed.

(** No name of a cost column is one of the columns that are read back. *)
Lemma cost_name_not_base p : p +:+ "_cost" <> "item" /\ p +:+ "_cost" <> "unit_price".
Proof.
  split; intros Heq; apply (f_equal chars) in Heq; rewrite chars_append in Heq;
    apply (f_equal (@rev char)) in Heq; rewrite rev_app_distr in Heq; discriminate.
Qed.

(** * Loops that may raise *)

Lemma for_each_Ok {A B} (f : A -> result B) (g : A -> B) l :
  (forall a, a ∈ l -> f a = Ok (g a)) -> for_each f l = Ok (g <$> l).
Proof.
  induction l as [|a l IH]; intros Hf; [reflexivity|].
  simpl. rewrite (Hf a) by left. rewrite bind_Ok, IH; [reflexivity|].
  intros b Hb. apply Hf. right. exact Hb.
Qed.

Lemma for_each_is_Ok {A B} (f : A -> result B) l :
  (forall a, a ∈ l -> exists b, f a = Ok b) -> exists bs, for_each f l = Ok bs.
Proof.
  induction l as [|a l IH]; intros Hf; [simpl; eauto|].
  destruct (Hf a) as [b Hb]; [left|].
  destruct IH as [bs Hbs]; [intros; apply Hf; right; assumption|].
  exists (b :: bs). simpl. rewrite Hb, bind_Ok, Hbs. reflexivity.
Qed.

Lemma for_each_Err {A B} (f : A -> result B) (g : A -> B) l1 x l2 e :
  (forall a, a ∈ l1 -> f a = Ok (g a)) -> f x = Err e ->
  for_each f (l1 ++ x :: l2) = Err e.
Proof.
  induction l1 as [|a l1 IH]; intros Hf Hx; simpl.
  - rewrite Hx. reflexivity.
  - rewrite (Hf a) by left. rewrite bind_Ok, IH; [reflexivity| |exact Hx].
    intros b Hb. apply Hf. right. exact Hb.
Qed.

Lemma for_fold_app {A S} (f : S -> A -> result S) l1 l2 s :
  for_fold f (l1 ++ l2) s = for_fold f l1 s ≫= for_fold f l2.
Proof.
  revert s. induction l1 as [|a l1 IH]; intros s; [reflexivity|].
  simpl. destruct (f s a); [apply IH | reflexivity].
Qed.

Lemma elem_of_select mask : forall k i,
  i ∈ select mask k -> (k <= i < k + length mask)%nat.
Proof.
  induction mask as [|b mask IH]; intros k i Hi; simpl in Hi.
  - inversion Hi.
  - destruct b.
    + apply elem_of_cons in Hi as [->|Hi]; [simpl; lia|].
      apply IH in Hi. simpl. lia.
    + apply IH in Hi. simpl. lia.
Qed.

Lemma zip_with_seq_imap {A B C} (f : B -> A -> C) (g : nat -> B) (l : list A) k :
  zip_with f (g <$> seq k (length l)) l = imap (fun i x => f (g (k + i)%nat) x) l.
Proof.
  revert k. induction l as [|x l IH]; intros k; [reflexivity|].
  simpl. rewrite Nat.add_0_r. f_equal. rewrite IH.
  apply imap_ext. intros i y _. simpl. f_equal. f_equal. lia.
Qed.

(** * build_summary *)

Section SummaryFacts.
Context {F : Type} `{Number F}.

Implicit Types (items : list (LineItem F)) (a : gmap nat (gmap string Z)).

Lemma person_counts_Ok a person n :
  (forall i, (i < n)%nat -> is_Some (a !! i)) ->
  person_counts a person n = Ok (counts a person n).
Proof.
  intros Hall. unfold person_counts, counts. apply for_each_Ok.
  intros i Hi. apply elem_of_seq in Hi. destruct (Hall i) as [d Hd]; [lia|].
  unfold assigned_qty. rewrite Hd. reflexivity.
Qed.

(** The first row label without an entry raises the KeyError. *)
Lemma person_counts_Err a person n i :
  (i < n)%nat -> a !! i = None ->
  exists j, (j <= i)%nat /\ a !! j = None /\ (forall k, (k < j)%nat -> is_Some (a !! k)) /\
            person_counts a person n = Err (IndexKeyError j).
Proof.
  intros Hi Hnone.
  assert (Hex : exists j, (j <= i)%nat /\ a !! j = None /\ forall k, (k < j)%nat -> is_Some (a !! k)).
  { clear Hi. induction i as [i IH] using lt_wf_ind.
    destruct (decide (Forall (fun k => is_Some (a !! k)) (seq 0 i))) as [Hall|Hnot].
    - exists i. split; [lia|]. split; [exact Hnone|].
      intros k Hk. rewrite Forall_forall in Hall. apply Hall, elem_of_seq. lia.
    - apply not_Forall_Exists in Hnot; [|intros k; apply _].
      apply Exists_exists in Hnot as (k & Hk1 & Hk2).
      apply elem_of_seq in Hk1. simpl in Hk2. apply eq_None_not_Some in Hk2.
      destruct (IH k) as (j & Hj & Hj1 & Hj2); [lia | exact Hk2 |].
      exists j. split; [lia | auto]. }
  destruct Hex as (j & Hj & Hj1 & Hj2). exists j. repeat split; auto.
  unfold person_counts.
  replace (seq 0 n) with (seq 0 j ++ j :: seq (S j) (n - S j)).
  - apply for_each_Err with (g := assigned_qty a person).
    + intros k Hk. apply elem_of_seq in Hk. destruct (Hj2 k) as [d Hd]; [lia|].
      unfold assigned_qty. rewrite Hd. reflexivity.
    + rewrite Hj1. reflexivity.
  - change (j :: seq (S j) (n - S j)) with (seq j (S (n - S j))).
    rewrite <- seq_app. f_equal. lia.
Qed.

Lemma assigned_start items a :
  items <> [] -> assigned items a [] (frame_of_items items).
Proof.
  intros Hne. rewrite frame_of_items_ne by assumption.
  unfold assigned. cbn [nrows cols]. change (@map) with (@fmap list _).
  split; [reflexivity|]. split; [|split].
  - rewrite !lookup_insert_ne, lookup_insert_eq by done. reflexivity.
  - rewrite lookup_insert_eq. reflexivity.
  - intros p Hp. inversion Hp.
Qed.

Lemma costs_zip items a p :
  zip_with (fun c u => mul (of_int c) u) (counts a p (length items)) (unit_price <$> items)
  = costs items a p.
Proof.
  unfold counts, costs. rewrite zip_with_fmap_r, zip_with_seq_imap.
  apply imap_ext. intros i x _. reflexivity.
Qed.

Lemma add_person_assigned items a people done df q :
  fresh_names people -> done ⊆ people -> q ∈ people ->
  (forall i, (i < length items)%nat -> is_Some (a !! i)) ->
  assigned items a done df ->
  exists df', add_person a df q = Ok df' /\ assigned items a (q :: done) df'.
Proof.
  intros (Hitem & Hup & Hcost) Hdone Hq Hall (Hn & Hu & Hi & Hd).
  assert (Hq1 : q <> "item") by (intros ->; contradiction).
  assert (Hq2 : q <> "unit_price") by (intros ->; contradiction).
  destruct (cost_name_not_base q) as [Hc1 Hc2].
  unfold add_person. rewrite Hn, person_counts_Ok, bind_Ok by assumption.
  unfold get_col, set_col. cbn [cols nrows].
  rewrite lookup_insert_eq, bind_Ok, lookup_insert_ne, Hu, bind_Ok by done.
  cbn [col_mul]. rewrite bind_Ok, costs_zip.
  eexists. split; [reflexivity|].
  unfold assigned. cbn [cols nrows]. split; [exact Hn|]. split; [|split].
  - rewrite !lookup_insert_ne by done. exact Hu.
  - rewrite !lookup_insert_ne by done. exact Hi.
  - intros p Hp. apply elem_of_cons in Hp as [->|Hp].
    + split.
      * rewrite lookup_insert_ne by (symmetry; apply cost_name_neq).
        apply lookup_insert_eq.
      * apply lookup_insert_eq.
    + destruct (Hd p Hp) as [Hp1 Hp2]. split.
      * rewrite lookup_insert_ne by (intros Heq; apply (Hcost q p); auto).
        destruct (decide (q = p)) as [->|Hne]; [apply lookup_insert_eq|].
        rewrite lookup_insert_ne by assumption. exact Hp1.
      * destruct (decide (q = p)) as [->|Hne]; [apply lookup_insert_eq|].
        rewrite lookup_insert_ne by (intros Heq; apply append_inj_l in Heq; contradiction).
        rewrite lookup_insert_ne by (intros Heq; apply (Hcost p q); auto).
        exact Hp2.
Qed.

Lemma assign_loop items a people ps : forall done df,
  fresh_names people -> done ⊆ people -> ps ⊆ people ->
  (forall i, (i < length items)%nat -> is_Some (a !! i)) ->
  assigned items a done df ->
  exists df', for_fold (add_person a) ps df = Ok df' /\ assigned items a (ps ++ done) df'.
Proof.
  induction ps as [|q ps IH]; intros done df Hfresh Hdone Hps Hall Hinv.
  - exists df. split; [reflexivity | exact Hinv].
  - destruct (add_person_assigned items a people done df q) as (df1 & Hq & Hinv1); auto.
    { apply Hps. left. }
    destruct (IH (q :: done) df1) as (df2 & Hf & Hinv2); auto.
    { intros x Hx. apply elem_of_cons in Hx as [->|Hx]; [apply Hps; left | auto]. }
    { intros x Hx. apply Hps. right. exact Hx. }
    exists df2. simpl. rewrite Hq, bind_Ok. split; [exact Hf|].
    destruct Hinv2 as (Hn & Hu & Hi & Hd).
    split; [exact Hn|]. split; [exact Hu|]. split; [exact Hi|].
    intros p Hp. apply Hd. rewrite elem_of_app, elem_of_cons.
    simpl in Hp. rewrite elem_of_cons, elem_of_app in Hp. tauto.
Qed.

Lemma assign_frame_Ok items a people :
  items <> [] -> fresh_names people ->
  (forall i, (i < length items)%nat -> is_Some (a !! i)) ->
  exists df, assign_frame (frame_of_items items) a people = Ok df /\
             assigned items a people df.
Proof.
  intros Hne Hfresh Hall.
  destruct (assign_loop items a people people [] (frame_of_items items))
    as (df & Hf & Hinv); auto.
  - intros x Hx. inversion Hx.
  - apply assigned_start. exact Hne.
  - exists df. split; [exact Hf|]. rewrite app_nil_r in Hinv. exact Hinv.
Qed.

Lemma value_fmt2_flt (x : F) : value_fmt2 (VFlt x) = Ok (fmt2 x).
Proof. reflexivity. Qed.

(** With a string column in the frame, the rows keep their ints. *)
Lemma upcasts_false (df : DataFrame F) name l :
  cols df !! name = Some (ColStr l) -> upcasts df = false.
Proof.
  intros Hl. unfold upcasts. apply andb_false_iff. left. apply negb_false_iff.
  apply existsb_exists. exists (ColStr l). split; [|reflexivity].
  apply list_elem_of_In, list_elem_of_fmap. exists (name, ColStr l). split; [reflexivity|].
  apply elem_of_map_to_list. exact Hl.
Qed.

Lemma for_each_select {B} (g : nat -> result B) (h : nat -> option B) mask : forall k,
  (forall i, mask !! i = Some true -> exists b, g (k + i)%nat = Ok b /\ h (k + i)%nat = Some b) ->
  (forall i, mask !! i = Some false -> h (k + i)%nat = None) ->
  for_each g (select mask k) = Ok (omap h (seq k (length mask))).
Proof.
  induction mask as [|b mask IH]; intros k Ht Hf; [reflexivity|].
  assert (IH' : for_each g (select mask (S k)) = Ok (omap h (seq (S k) (length mask)))).
  { apply IH.
    - intros i Hi. replace (S k + i)%nat with (k + S i)%nat by lia. apply Ht. exact Hi.
    - intros i Hi. replace (S k + i)%nat with (k + S i)%nat by lia. apply Hf. exact Hi. }
  simpl. destruct b.
  - destruct (Ht 0%nat eq_refl) as (x & Hg & Hh). rewrite Nat.add_0_r in Hg, Hh.
    simpl. rewrite Hg, bind_Ok, IH', bind_Ok, Hh. reflexivity.
  - pose proof (Hf 0%nat eq_refl) as Hh. rewrite Nat.add_0_r in Hh.
    rewrite Hh. exact IH'.
Qed.

Lemma costs_lookup items a p i it :
  items !! i = Some it ->
  costs items a p !! i = Some (mul (of_int (assigned_qty a p i)) (unit_price it)).
Proof. intros Hi. unfold costs. rewrite list_lookup_imap, Hi. reflexivity. Qed.

Lemma counts_lookup a p n i :
  (i < n)%nat -> counts a p n !! i = Some (assigned_qty a p i).
Proof.
  intros Hi. unfold counts. rewrite list_lookup_fmap, lookup_seq_lt by assumption. reflexivity.
Qed.

Lemma item_line_Ok items a people df p i it :
  assigned items a people df -> p ∈ people -> items !! i = Some it ->
  item_line df p i = Ok (line_text (assigned_qty a p i) it).
Proof.
  intros (Hn & Hu & Hi & Hd) Hp Hit. destruct (Hd p Hp) as [Hq Hc].
  pose proof (lookup_lt_Some _ _ _ Hit) as Hlt.
  unfold item_line, row_get. rewrite Hq, Hc, Hi. cbn [cell].
  rewrite counts_lookup by assumption. rewrite (costs_lookup _ _ _ _ _ Hit).
  rewrite list_lookup_fmap, Hit. cbn [fmap option_fmap option_map].
  rewrite (upcasts_false df _ _ Hi). cbn [upcast].
  rewrite !bind_Ok. cbn [value_int]. rewrite !bind_Ok, value_fmt2_flt, bind_Ok.
  reflexivity.
Qed.

Lemma person_section_Ok items a people df p :
  assigned items a people df -> p ∈ people ->
  person_section df p = Ok (section_text items a p).
Proof.
  intros Hinv Hp. pose proof Hinv as (Hn & Hu & Hi & Hd). destruct (Hd p Hp) as [Hq Hc].
  unfold person_section, get_col. rewrite Hc, Hq, !bind_Ok. cbn [col_sum col_gt0].
  rewrite bind_Ok, value_fmt2_flt, !bind_Ok. cbn [col_gt0]. rewrite bind_Ok.
  rewrite (for_each_select _ (fun i => it ← items !! i;
             let c := assigned_qty a p i in
             if 0 <? c then Some (line_text c it) else None)).
  - rewrite bind_Ok. unfold section_text, item_lines, person_sum, series_sum.
    rewrite length_fmap. unfold counts. rewrite length_fmap, length_seq. reflexivity.
  - intros i Hm. rewrite list_lookup_fmap in Hm.
    destruct (counts a p (length items) !! i) as [c|] eqn:Hci; [|discriminate].
    pose proof (lookup_lt_Some _ _ _ Hci) as Hlt.
    unfold counts in Hlt. rewrite length_fmap, length_seq in Hlt.
    rewrite counts_lookup in Hci by assumption. injection Hci as <-.
    destruct (lookup_lt_is_Some_2 items i Hlt) as [it Hit].
    exists (line_text (assigned_qty a p i) it). simpl in *.
    rewrite (item_line_Ok items a people df p i it) by assumption.
    rewrite Hit. simpl. injection Hm as ->. auto.
  - intros i Hm. rewrite list_lookup_fmap in Hm.
    destruct (counts a p (length items) !! i) as [c|] eqn:Hci; [|discriminate].
    pose proof (lookup_lt_Some _ _ _ Hci) as Hlt.
    unfold counts in Hlt. rewrite length_fmap, length_seq in Hlt.
    rewrite counts_lookup in Hci by assumption. injection Hci as <-.
    simpl in *. destruct (items !! i); [|reflexivity]. simpl.
    injection Hm as ->. reflexivity.
Qed.

Lemma py_sum_floats (xs : list F) :
  exists v, py_sum (VFlt <$> xs) = Ok v /\ to_float v = Ok (fold_left add xs (of_int 0)).
Proof.
  unfold py_sum. destruct xs as [|x xs].
  - exists (VInt 0). split; reflexivity.
  - simpl.
    generalize (add (of_int 0) x) as acc. induction xs as [|y xs IH]; intros acc.
    + exists (VFlt acc). split; reflexivity.
    + simpl. apply IH.
Qed.

Lemma total_allocated_Ok items a people df :
  assigned items a people df ->
  exists v, total_allocated df people = Ok v /\
            value_fmt2 v = Ok (fmt2 (grand_total items a people)).
Proof.
  intros (Hn & Hu & Hi & Hd). unfold total_allocated.
  rewrite (for_each_Ok _ (fun p => VFlt (person_sum items a p))).
  - rewrite bind_Ok.
    change ((fun p => VFlt (person_sum items a p)) <$> people)
      with ((VFlt ∘ person_sum items a) <$> people).
    rewrite list_fmap_compose.
    destruct (py_sum_floats (person_sum items a <$> people)) as (v & Hv & Hf).
    exists v. split; [exact Hv|]. unfold value_fmt2. rewrite Hf. reflexivity.
  - intros p Hp. destruct (Hd p Hp) as [_ Hc].
    unfold person_total, get_col. rewrite Hc, bind_Ok. reflexivity.
Qed.

(** build_summary on an item table whose people have fresh names and whose
    rows all have an entry in the assignments: the summary of the
    specification. *)
Theorem build_summary_fresh items a people d :
  items <> [] -> fresh_names people ->
  (forall i, (i < length items)%nat -> is_Some (a !! i)) ->
  build_summary (frame_of_items items) a people d = Ok (summary_text items a people d).
Proof.
  intros Hne Hfresh Hall.
  destruct (assign_frame_Ok items a people Hne Hfresh Hall) as (df & Hdf & Hinv).
  unfold build_summary. rewrite Hdf, bind_Ok.
  rewrite (for_each_Ok _ (section_text items a)).
  - rewrite bind_Ok.
    destruct (total_allocated_Ok items a people df Hinv) as (v & Hv & Hfmt).
    rewrite Hv, bind_Ok, Hfmt, bind_Ok. unfold summary_text.
    rewrite !append_assoc. reflexivity.
  - intros p Hp. eapply person_section_Ok; eauto.
Qed.

End SummaryFacts.

(** * The item table and the unit cards *)

Section TableFacts.
Context {F : Type} `{Number F}.

Implicit Types (items : list (LineItem F)).

Lemma pd_concat_frames items1 items2 :
  items1 <> [] -> items2 <> [] ->
  pd_concat (frame_of_items items1) (frame_of_items items2) = frame_of_items (items1 ++ items2).
Proof.
  intros H1 H2.
  assert (H3 : items1 ++ items2 <> []) by (destruct items1; [congruence | discriminate]).
  rewrite !frame_of_items_ne by assumption.
  unfold pd_concat. cbn [nrows cols]. rewrite length_app. f_equal.
  change (@map) with (@fmap list _). rewrite !fmap_app.
  apply map_eq. intros k. rewrite lookup_merge.
  destruct (decide (k = "item")) as [->|Hk1].
  { rewrite !lookup_insert_eq. reflexivity. }
  rewrite !(lookup_insert_ne _ "item") by done.
  destruct (decide (k = "qty")) as [->|Hk2].
  { rewrite !lookup_insert_eq. reflexivity. }
  rewrite !(lookup_insert_ne _ "qty") by done.
  destruct (decide (k = "total")) as [->|Hk3].
  { rewrite !lookup_insert_eq. reflexivity. }
  rewrite !(lookup_insert_ne _ "total") by done.
  destruct (decide (k = "unit_price")) as [->|Hk4].
  { rewrite !lookup_insert_eq. reflexivity. }
  rewrite !(lookup_insert_ne _ "unit_price") by done.
  rewrite !lookup_empty. reflexivity.
Qed.

Lemma df_empty_frame items : df_empty (frame_of_items items) = bool_decide (items = []).
Proof.
  destruct items as [|it items]; [reflexivity|].
  unfold frame_of_items, df_empty. cbn [nrows cols length].
  rewrite bool_decide_eq_false_2 by discriminate. reflexivity.
Qed.

(** The table of main holds the parsed items followed by the extra ones. *)
Lemma item_table_frame items extra :
  items <> [] ->
  item_table (frame_of_items items) extra = Some (frame_of_items (items ++ extra)).
Proof.
  intros Hne. unfold item_table. rewrite df_empty_frame, bool_decide_eq_false_2 by assumption.
  destruct extra as [|e extra]; [rewrite app_nil_r; reflexivity|].
  rewrite pd_concat_frames by (auto; discriminate). reflexivity.
Qed.

Lemma for_each_seq_imap {A B} (f : nat -> result B) (g : nat -> A -> B) (l : list A) k :
  (forall i x, l !! i = Some x -> f (k + i)%nat = Ok (g i x)) ->
  for_each f (seq k (length l)) = Ok (imap g l).
Proof.
  revert k g. induction l as [|x l IH]; intros k g Hf; [reflexivity|].
  simpl. rewrite <- (Nat.add_0_r k) at 1. rewrite (Hf 0%nat x eq_refl), bind_Ok.
  rewrite (IH (S k) (g ∘ S)), bind_Ok; [reflexivity|].
  intros i y Hy. replace (S k + i)%nat with (k + S i)%nat by lia. apply Hf. exact Hy.
Qed.

Lemma row_get_item items i it :
  items !! i = Some it ->
  row_get (frame_of_items items) i "item" = Ok (VStr (item it)) /\
  row_get (frame_of_items items) i "qty" = Ok (VInt (qty it)).
Proof.
  intros Hi. assert (Hne : items <> []) by (intros ->; discriminate).
  assert (Hup : upcasts (frame_of_items items) = false).
  { apply (upcasts_false _ "item" (item <$> items)).
    rewrite frame_of_items_ne by assumption. cbn [cols]. apply lookup_insert_eq. }
  unfold row_get. rewrite Hup.
  rewrite frame_of_items_ne by assumption. cbn [cols].
  rewrite lookup_insert_eq, lookup_insert_ne, lookup_insert_eq by done.
  cbn [cell]. change (@map) with (@fmap list _).
  rewrite !list_lookup_fmap, Hi. split; reflexivity.
Qed.

(** The unit cards of an item table: for each item in order, one card for
    each ordinal below its quantity, in increasing order. *)
Theorem unit_cards_frame items :
  unit_cards (frame_of_items items) = Ok (concat (imap cards_of items)).
Proof.
  unfold unit_cards. rewrite nrows_frame.
  rewrite (for_each_seq_imap _ cards_of); [reflexivity|].
  intros i it Hi. simpl. destruct (row_get_item items i it Hi) as [Hit Hq].
  unfold row_cards. rewrite Hq, bind_Ok. cbn [value_int]. rewrite bind_Ok.
  unfold cards_of. apply for_each_Ok. intros k _. rewrite Hit, bind_Ok. reflexivity.
Qed.

End TableFacts.

(** * The sum of an array *)

Section SumFacts.
Context {F : Type} `{Number F}.
Variable P : F -> Prop.
Hypothesis P_zero : P (of_int 0).
Hypothesis P_add : forall x y, P x -> P y -> P (add x y).

Lemma fold_add_closed (l : list F) : Forall P l -> forall acc, P acc -> P (fold_left add l acc).
Proof. induction 1 as [|x l Hx _ IH]; intros acc Ha; cbn [fold_left]; auto. Qed.

Lemma zip_add_closed (r : list F) : Forall P r -> forall t, Forall P t -> Forall P (zip_with add r t).
Proof.
  induction 1 as [|x r Hx _ IH]; intros t Ht; [constructor|].
  destruct Ht as [|y t Hy Ht]; cbn [zip_with]; constructor; auto.
Qed.

Lemma unrolled_closed blocks : forall (r l : list F),
  Forall P r -> Forall P l ->
  Forall P (unrolled blocks r l).1 /\ Forall P (unrolled blocks r l).2.
Proof.
  induction blocks as [|b IH]; intros r l Hr Hl; cbn [unrolled]; [auto|].
  apply IH; [apply zip_add_closed; [exact Hr | apply Forall_take; exact Hl]|].
  apply Forall_drop. exact Hl.
Qed.

Lemma tree8_closed (r : list F) : Forall P r -> P (tree8 r).
Proof.
  intros Hr. unfold tree8.
  repeat (destruct Hr as [|? r ? Hr]; [exact P_zero|]).
  destruct Hr; [|exact P_zero]. auto 10.
Qed.

Lemma block_sum_closed (l : list F) : Forall P l -> P (block_sum l).
Proof.
  intros Hl. unfold block_sum. destruct (length l <? 8)%nat.
  - apply fold_add_closed; assumption.
  - destruct (unrolled_closed (length l / 8 - 1) (take 8 l) (drop 8 l)) as [H1 H2].
    + apply Forall_take. exact Hl.
    + apply Forall_drop. exact Hl.
    + destruct (unrolled _ _ _) as [r rest]. cbn [fst snd] in H1, H2.
      apply fold_add_closed; [exact H2 | apply tree8_closed; exact H1].
Qed.

Lemma pairwise_sum_closed fuel : forall l : list F, Forall P l -> P (pairwise_sum fuel l).
Proof.
  induction fuel as [|f IH]; intros l Hl; cbn [pairwise_sum].
  - apply block_sum_closed. exact Hl.
  - destruct (128 <? length l)%nat; [|apply block_sum_closed; exact Hl].
    apply P_add; apply IH; [apply Forall_take | apply Forall_drop]; exact Hl.
Qed.

Lemma np_sum_closed (l : list F) : Forall P l -> P (np_sum l).
Proof. intros Hl. unfold np_sum. apply P_add; [exact P_zero|]. apply pairwise_sum_closed, Hl. Qed.

End SumFacts.

(** The fuel of [pairwise_sum] does not matter once it reaches the length. *)
Lemma pairwise_sum_fuel {F : Type} `{Number F} (f1 : nat) : forall (f2 : nat) (l : list F),
  (length l <= f1)%nat -> (length l <= f2)%nat -> pairwise_sum f1 l = pairwise_sum f2 l.
Proof.
  induction f1 as [|f1 IH]; intros f2 l H1 H2.
  - destruct l; [|cbn in H1; lia]. destruct f2; reflexivity.
  - destruct f2 as [|f2].
    + destruct l; [reflexivity | cbn in H2; lia].
    + cbn [pairwise_sum]. destruct (128 <? length l)%nat eqn:Hlt; [|reflexivity].
      apply Nat.ltb_lt in Hlt.
      set (n2 := (length l / 2 - (length l / 2) mod 8)%nat).
      assert (Hn2 : (1 <= n2 /\ 2 * n2 <= length l)%nat).
      { pose proof (Nat.div_mod_eq (length l) 2) as E.
        pose proof (Nat.mod_upper_bound (length l) 2 ltac:(lia)).
        pose proof (Nat.mod_upper_bound (length l / 2) 8 ltac:(lia)).
        pose proof (Nat.Div0.mod_le (length l / 2) 8). subst n2. lia. }
      rewrite (IH f2 (take n2 l)), (IH f2 (drop n2 l));
        rewrite ?length_take, ?length_drop; try lia.
      reflexivity.
Qed.

(** * Reconciliation in exact arithmetic *)

Section ExactFacts.
Context {F : Type} `{Exact F}.

Implicit Types (items : list (LineItem F)) (a : gmap nat (gmap string Z)).

Lemma sumr_cons (x : F) xs : sumr (x :: xs) = add x (sumr xs).
Proof. reflexivity. Qed.

Lemma add_zero_r (x : F) : add x (of_int 0) = x.
Proof. rewrite add_comm. apply add_zero. Qed.

Lemma fold_left_add (xs : list F) acc : fold_left add xs acc = add acc (sumr xs).
Proof.
  revert acc. induction xs as [|x xs IH]; intros acc; cbn [fold_left].
  - symmetry. apply add_zero_r.
  - rewrite IH, sumr_cons. symmetry. apply add_assoc.
Qed.

Lemma sumr_app (xs ys : list F) : sumr (xs ++ ys) = add (sumr xs) (sumr ys).
Proof.
  induction xs as [|x xs IH]; cbn [app].
  - symmetry. apply add_zero.
  - rewrite !sumr_cons, IH. apply add_assoc.
Qed.

Lemma sumr_zip_add (r t : list F) :
  length r = length t -> sumr (zip_with add r t) = add (sumr r) (sumr t).
Proof.
  revert t. induction r as [|x r IH]; intros [|y t] Hl; try discriminate.
  - symmetry. apply add_zero.
  - cbn [zip_with]. rewrite !sumr_cons, IH by (injection Hl; auto).
    rewrite <- !add_assoc. f_equal. rewrite !add_assoc. f_equal. apply add_comm.
Qed.

Lemma tree8_sumr (r : list F) : length r = 8%nat -> tree8 r = sumr r.
Proof.
  intros Hl. do 8 (destruct r as [|? r]; [discriminate|]).
  destruct r; [|discriminate]. unfold tree8, sumr. cbn [foldr].
  rewrite add_zero_r, <- !add_assoc. reflexivity.
Qed.

Lemma unrolled_sumr blocks : forall (r l : list F),
  length r = 8%nat -> (8 * blocks <= length l)%nat ->
  length (unrolled blocks r l).1 = 8%nat /\
  add (sumr (unrolled blocks r l).1) (sumr (unrolled blocks r l).2) = add (sumr r) (sumr l).
Proof.
  induction blocks as [|b IH]; intros r l Hr Hl; cbn [unrolled].
  - split; [exact Hr | reflexivity].
  - assert (Ht : length (take 8 l) = 8%nat) by (rewrite length_take; lia).
    destruct (IH (zip_with add r (take 8 l)) (drop 8 l)) as [H1 H2].
    + rewrite length_zip_with. lia.
    + rewrite length_drop. lia.
    + split; [exact H1|]. rewrite H2, sumr_zip_add by lia.
      rewrite <- add_assoc, <- sumr_app, take_drop. reflexivity.
Qed.

Lemma block_sum_sumr (l : list F) : block_sum l = sumr l.
Proof.
  unfold block_sum. destruct (length l <? 8)%nat eqn:Hlt.
  - rewrite fold_left_add. apply add_zero.
  - apply Nat.ltb_ge in Hlt.
    assert (Hd : (8 * (length l / 8 - 1) <= length (drop 8 l))%nat).
    { rewrite length_drop. pose proof (Nat.Div0.mul_div_le (length l) 8). lia. }
    assert (Ht : length (take 8 l) = 8%nat) by (rewrite length_take; lia).
    destruct (unrolled_sumr (length l / 8 - 1) (take 8 l) (drop 8 l) Ht Hd) as [H1 H2].
    destruct (unrolled _ _ _) as [r rest]. cbn [fst snd] in H1, H2.
    rewrite fold_left_add, tree8_sumr, H2, <- sumr_app, take_drop by exact H1.
    reflexivity.
Qed.

Lemma pairwise_sum_sumr fuel : forall (l : list F), pairwise_sum fuel l = sumr l.
Proof.
  induction fuel as [|f IH]; intros l; cbn [pairwise_sum].
  - apply block_sum_sumr.
  - destruct (128 <? length l)%nat; [|apply block_sum_sumr].
    rewrite !IH, <- sumr_app, take_drop. reflexivity.
Qed.

Lemma np_sum_sumr (xs : list F) : np_sum xs = sumr xs.
Proof. unfold np_sum. rewrite pairwise_sum_sumr. apply add_zero. Qed.

Lemma series_sum_sumr (xs : list F) : series_sum xs = sumr xs.
Proof.
  unfold series_sum. rewrite np_sum_sumr. f_equal.
  rewrite <- (list_fmap_id xs) at 2. apply list_fmap_ext.
  intros i x _. unfold nan_to_zero. rewrite no_nan. reflexivity.
Qed.

Lemma sumr_add {A} (l : list A) : forall (f g : nat -> A -> F),
  sumr (imap (fun i x => add (f i x) (g i x)) l) = add (sumr (imap f l)) (sumr (imap g l)).
Proof.
  induction l as [|x l IH]; intros f g.
  - symmetry. apply add_zero.
  - rewrite !imap_cons, !sumr_cons.
    change ((fun i x => add (f i x) (g i x)) ∘ S)
      with (fun i x => add ((f ∘ S) i x) ((g ∘ S) i x)).
    rewrite IH, <- !add_assoc. f_equal.
    rewrite !add_assoc. f_equal. apply add_comm.
Qed.

Lemma sumr_zero {A} (l : list A) : sumr (imap (fun _ _ => of_int 0) l) = of_int 0.
Proof.
  induction l as [|x l IH]; [reflexivity|].
  rewrite imap_cons, sumr_cons.
  change ((fun (_ : nat) (_ : A) => of_int 0) ∘ S) with (fun (_ : nat) (_ : A) => of_int 0 : F).
  rewrite IH. apply add_zero.
Qed.

(** Summing by person and then by item is summing by item and then by
    person. *)
Lemma sumr_exchange {A} (f : string -> nat -> A -> F) (people : list string) (l : list A) :
  sumr ((fun p => sumr (imap (f p) l)) <$> people) =
  sumr (imap (fun i x => sumr ((fun p => f p i x) <$> people)) l).
Proof.
  induction people as [|p people IH].
  - symmetry. apply sumr_zero.
  - rewrite fmap_cons, sumr_cons, IH.
    rewrite <- (sumr_add l (f p) (fun i x => sumr ((fun p => f p i x) <$> people))).
    reflexivity.
Qed.

Lemma sumr_scaled (cs : list Z) (u : F) :
  sumr ((fun c => mul (of_int c) u) <$> cs) = mul (of_int (foldr Z.add 0 cs)) u.
Proof.
  induction cs as [|c cs IH].
  - symmetry. apply mul_zero.
  - rewrite fmap_cons, sumr_cons, IH. simpl. rewrite of_int_add, mul_add. reflexivity.
Qed.

(** When every unit of every item is assigned, the allocated total is the
    sum of the item totals. *)
Theorem grand_total_exact items a people :
  (forall i it, items !! i = Some it ->
     qty it <> 0 /\ unit_price it = div (total it) (of_int (qty it)) /\
     total_assigned a people i = qty it) ->
  grand_total items a people = series_sum (total <$> items).
Proof.
  intros Hall. unfold grand_total, person_sum.
  rewrite fold_left_add, add_zero.
  rewrite (list_fmap_ext _ (fun p => sumr (costs items a p)) people)
    by (intros; apply series_sum_sumr).
  unfold costs.
  rewrite (sumr_exchange (fun p i it => mul (of_int (assigned_qty a p i)) (unit_price it))).
  rewrite series_sum_sumr. rewrite <- (imap_const total items) by exact O. f_equal.
  apply imap_ext. intros i it Hit. destruct (Hall i it Hit) as (Hq & Hu & Ha).
  change ((fun p => mul (of_int (assigned_qty a p i)) (unit_price it)) <$> people)
    with (((fun c => mul (of_int c) (unit_price it)) ∘ (fun p => assigned_qty a p i)) <$> people).
  rewrite list_fmap_compose, sumr_scaled.
  fold (total_assigned a people i). rewrite Ha, Hu. apply mul_div. exact Hq.
Qed.

End ExactFacts.

(** The rationals satisfy the laws. *)
#[global] Instance rat_exact : Exact Qc.
Proof.
  split; simpl; intros.
  - apply Qcplus_comm.
  - apply Qcplus_assoc.
  - apply Qcplus_0_l.
  - apply Qc_is_canon. unfold Rat.of_Z, Qcplus, Q2Qc. cbn [this].
    rewrite !Qred_correct, inject_Z_plus. apply Qeq_refl.
  - apply Qcmult_plus_distr_l.
  - apply Qcmult_0_l.
  - apply Qcmult_div_r. unfold Rat.of_Z. intros Heq.
    apply Q2Qc_eq_iff in Heq. unfold Qeq in Heq. simpl in Heq. lia.
  - reflexivity.
Qed.

(** * Rounding in binary64

    What [SpecFloat] computes for sums, products and quotients of positive
    numbers, as long as nothing overflows or underflows: the exact result
    rounded to nearest, so within 2^-53 of it. *)

Module RoundFacts.
Import B64 Round.

Lemma digits2_bounds m :
  2 ^ (Zpos (digits2_pos m) - 1) <= Zpos m < 2 ^ Zpos (digits2_pos m).
Proof.
  induction m as [m IH | m IH |]; cbn [digits2_pos].
  - rewrite Pos2Z.inj_succ. replace (Z.succ (Z.pos (digits2_pos m)) - 1) with (Z.succ (Z.pos (digits2_pos m) - 1)) by lia.
    rewrite !Z.pow_succ_r by lia. lia.
  - rewrite Pos2Z.inj_succ. replace (Z.succ (Z.pos (digits2_pos m)) - 1) with (Z.succ (Z.pos (digits2_pos m) - 1)) by lia.
    rewrite !Z.pow_succ_r by lia. lia.
  - simpl. lia.
Qed.

Lemma digits2_unique m k :
  2 ^ (k - 1) <= Zpos m < 2 ^ k -> Zpos (digits2_pos m) = k.
Proof.
  intros [H1 H2]. pose proof (digits2_bounds m) as [H3 H4].
  assert (0 < k).
  { destruct (Z_lt_le_dec 0 k); [assumption|]. exfalso.
    assert (2 ^ k <= 1); [|lia].
    destruct (Z.eq_dec k 0) as [->|]; [simpl; lia|].
    rewrite Z.pow_neg_r by lia. lia. }
  destruct (Z.lt_trichotomy (Zpos (digits2_pos m)) k) as [Hlt | [Heq | Hgt]]; [|assumption|].
  - exfalso. assert (2 ^ Zpos (digits2_pos m) <= 2 ^ (k - 1)) by (apply Z.pow_le_mono_r; lia). lia.
  - exfalso. assert (2 ^ k <= 2 ^ (Zpos (digits2_pos m) - 1)) by (apply Z.pow_le_mono_r; lia). lia.
Qed.

Lemma iter_xO m d : Zpos (Pos.iter xO m d) = Zpos m * 2 ^ Zpos d.
Proof.
  induction d as [|d IH] using Pos.peano_ind.
  - simpl. lia.
  - rewrite Pos.iter_succ, Pos2Z.inj_xO, IH, Pos2Z.inj_succ, Z.pow_succ_r by lia. lia.
Qed.

Lemma digits2_iter_xO m d :
  Zpos (digits2_pos (Pos.iter xO m d)) = Zpos (digits2_pos m) + Zpos d.
Proof.
  induction d as [|d IH] using Pos.peano_ind.
  - simpl. lia.
  - rewrite Pos.iter_succ. cbn [digits2_pos]. rewrite Pos2Z.inj_succ, IH. lia.
Qed.

Lemma inject_xO p : (inject_Z (Z.pos p~0) == 2 * inject_Z (Z.pos p))%Q.
Proof. rewrite Pos2Z.inj_xO, inject_Z_mult. reflexivity. Qed.

Lemma inject_xI p : (inject_Z (Z.pos p~1) == 2 * inject_Z (Z.pos p) + 1)%Q.
Proof. rewrite Pos2Z.inj_xI, inject_Z_plus, inject_Z_mult. reflexivity. Qed.

Lemma shr_1_spec r v :
  0 <= shr_m r -> inrec r v ->
  inrec (shr_1 r) (v * (1 # 2)) /\ shr_m (shr_1 r) = shr_m r / 2.
Proof.
  destruct r as [m b s]. unfold inrec. cbn [shr_m]. intros Hm Hv.
  destruct m as [|p|p]; [| |lia].
  - split; [|reflexivity].
    destruct b, s; cbn in Hv |- *; change (inject_Z 0) with 0%Q in *; lra.
  - destruct p as [p|p|].
    + split; [|cbn; apply (Z.div_unique _ 2 _ 1); lia].
      pose proof (inject_xI p) as E.
      destruct b, s; cbn in Hv |- *; cbn in E; lra.
    + split; [|cbn; apply (Z.div_unique _ 2 _ 0); lia].
      pose proof (inject_xO p) as E.
      destruct b, s; cbn in Hv |- *; cbn in E; lra.
    + split; [|reflexivity].
      destruct b, s; cbn in Hv |- *; change (inject_Z 0) with 0%Q in *;
        change (inject_Z 1) with 1%Q in *; lra.
Qed.

Lemma inloc_eq m l v w : (v == w)%Q -> inloc m l v -> inloc m l w.
Proof. intros E. destruct l as [|[| |]]; cbn; lra. Qed.

Lemma pow2_add a b : (pow2 (a + b) == pow2 a * pow2 b)%Q.
Proof. unfold pow2. apply Qpower_plus. discriminate. Qed.

Lemma pow2_pos e : (0 < pow2 e)%Q.
Proof. unfold pow2. apply Qpower_0_lt. reflexivity. Qed.

Lemma pow2_Z e : 0 <= e -> (pow2 e == inject_Z (2 ^ e))%Q.
Proof. intros He. unfold pow2. rewrite Zpower_Qpower by assumption. reflexivity. Qed.

Lemma pow2_opp e : (pow2 (- e) * pow2 e == 1)%Q.
Proof. rewrite <- pow2_add. replace (- e + e) with 0 by lia. reflexivity. Qed.

Lemma hpow_xO p : (hpow p~0 == hpow p * hpow p)%Q.
Proof.
  unfold hpow. rewrite <- pow2_add. replace (- Z.pos p~0) with (- Z.pos p + - Z.pos p) by lia.
  reflexivity.
Qed.

Lemma hpow_xI p : (hpow p~1 == (1 # 2) * hpow p * hpow p)%Q.
Proof.
  unfold hpow. change (1 # 2)%Q with (pow2 (-1)). rewrite <- !pow2_add.
  replace (- Z.pos p~1) with (-1 + - Z.pos p + - Z.pos p) by lia. reflexivity.
Qed.

Lemma hpow_1 : (hpow 1 == 1 # 2)%Q.
Proof. reflexivity. Qed.

Lemma shr_iter p : forall r v,
  0 <= shr_m r -> inrec r v ->
  inrec (SpecFloat.iter_pos shr_1 p r) (v * hpow p) /\
  shr_m (SpecFloat.iter_pos shr_1 p r) = shr_m r / 2 ^ Zpos p.
Proof.
  induction p as [p IH | p IH |]; intros r v Hm Hv; cbn [SpecFloat.iter_pos].
  - destruct (shr_1_spec r v Hm Hv) as [H1 E1].
    assert (Hm1 : 0 <= shr_m (shr_1 r)) by (rewrite E1; apply Z.div_pos; lia).
    destruct (IH _ _ Hm1 H1) as [H2 E2].
    assert (Hm2 : 0 <= shr_m (SpecFloat.iter_pos shr_1 p (shr_1 r))).
    { rewrite E2. apply Z.div_pos; [assumption | apply Z.pow_pos_nonneg; lia]. }
    destruct (IH _ _ Hm2 H2) as [H3 E3]. split.
    + eapply inloc_eq; [|exact H3]. rewrite hpow_xI. ring.
    + rewrite E3, E2, E1, !Z.div_div by (try apply Z.pow_pos_nonneg; lia).
      f_equal. rewrite Pos2Z.inj_xI. rewrite <- Z.pow_add_r, <- (Z.pow_succ_r 2) by lia.
      f_equal. lia.
  - destruct (IH _ _ Hm Hv) as [H2 E2].
    assert (Hm2 : 0 <= shr_m (SpecFloat.iter_pos shr_1 p r)).
    { rewrite E2. apply Z.div_pos; [assumption | apply Z.pow_pos_nonneg; lia]. }
    destruct (IH _ _ Hm2 H2) as [H3 E3]. split.
    + eapply inloc_eq; [|exact H3]. rewrite hpow_xO. ring.
    + rewrite E3, E2, !Z.div_div by (try apply Z.pow_pos_nonneg; lia).
      f_equal. rewrite Pos2Z.inj_xO. rewrite <- Z.pow_add_r by lia. f_equal. lia.
  - destruct (shr_1_spec r v Hm Hv) as [H1 E1]. split; [exact H1 | exact E1].
Qed.

Lemma loc_of_shr_record_of_loc m l : loc_of_shr_record (shr_record_of_loc m l) = l.
Proof. destruct l as [|[| |]]; reflexivity. Qed.

Lemma shr_m_of_loc m l : shr_m (shr_record_of_loc m l) = m.
Proof. destruct l as [|[| |]]; reflexivity. Qed.

Lemma inloc_lower m l v : inloc m l v -> (inject_Z m <= v /\ v < inject_Z m + 1)%Q.
Proof. destruct l as [|[| |]]; cbn; lra. Qed.

Lemma rne_spec m l v :
  inloc m l v ->
  m <= round_nearest_even m l <= m + 1 /\
  (inject_Z (round_nearest_even m l) - (1 # 2) <= v /\
   v <= inject_Z (round_nearest_even m l) + (1 # 2))%Q.
Proof.
  intros Hv. assert (E : (inject_Z (m + 1) == inject_Z m + 1)%Q) by (rewrite inject_Z_plus; reflexivity).
  destruct l as [|[| |]]; cbn in Hv |- *.
  - split; [lia | lra].
  - destruct (Z.even m); (split; [lia | lra]).
  - split; [lia | lra].
  - split; [lia | lra].
Qed.

Lemma shr_spec r e n v :
  0 <= shr_m r -> inrec r v -> 0 <= n ->
  snd (shr r e n) = e + n /\
  inrec (fst (shr r e n)) (v * pow2 (- n)) /\
  shr_m (fst (shr r e n)) = shr_m r / 2 ^ n.
Proof.
  intros Hm Hv Hn. destruct n as [|p|p]; [| |lia]; cbn [shr fst snd].
  - split; [lia|]. split; [|rewrite Z.div_1_r; reflexivity].
    eapply inloc_eq; [|exact Hv]. change (pow2 (- 0)) with 1%Q. ring.
  - split; [reflexivity|]. apply (shr_iter p r v Hm Hv).
Qed.

Lemma fexp_normal k : -1021 <= k -> fexp prec emax k = k - 53.
Proof. intros Hk. unfold fexp, emin, prec, emax. lia. Qed.

Lemma shr_fexp_pos p ex lx :
  shr_fexp prec emax (Zpos p) ex lx =
  shr (shr_record_of_loc (Zpos p) lx) ex (fexp prec emax (Zpos (digits2_pos p) + ex) - ex).
Proof. reflexivity. Qed.

Lemma round_aux_spec p ex lx v :
  2 ^ 52 <= Zpos p -> inloc (Zpos p) lx v ->
  -1021 <= Zpos (digits2_pos p) + ex < 1024 ->
  exists m e,
    binary_round_aux prec emax false (Zpos p) ex lx = S754_finite false m e /\
    digits2_pos m = 53%positive /\ -1074 <= e <= 971 /\
    near (v * pow2 ex) (inject_Z (Zpos m) * pow2 e).
Proof.
  intros Hp Hv Hrange.
  pose proof (digits2_bounds p) as [Hd1 Hd2].
  set (d := Zpos (digits2_pos p)) in *.
  assert (Hd : 53 <= d).
  { destruct (Z_lt_le_dec d 53) as [Hlt|]; [|assumption]. exfalso.
    assert (2 ^ d <= 2 ^ 52) by (apply Z.pow_le_mono_r; lia). lia. }
  unfold binary_round_aux. rewrite shr_fexp_pos. fold d.
  rewrite fexp_normal by lia.
  set (n := d + ex - 53 - ex).
  assert (Hn : 0 <= n) by (unfold n; lia).
  destruct (shr_spec (shr_record_of_loc (Zpos p) lx) ex n v) as (He1 & Hv1 & Hm1);
    [rewrite shr_m_of_loc; lia | unfold inrec; rewrite shr_m_of_loc, loc_of_shr_record_of_loc; exact Hv
    | exact Hn |].
  destruct (shr (shr_record_of_loc (Z.pos p) lx) ex n) as [r1 e1]. cbn [fst snd] in *.
  rewrite shr_m_of_loc in Hm1. unfold inrec in Hv1.
  set (m' := shr_m r1) in *. set (l1 := loc_of_shr_record r1) in *.
  assert (Hm' : 2 ^ 52 <= m' < 2 ^ 53).
  { rewrite Hm1. assert (Hpow : 0 < 2 ^ n) by (apply Z.pow_pos_nonneg; lia).
    assert (E52 : 2 ^ (d - 1) = 2 ^ 52 * 2 ^ n).
    { rewrite <- Z.pow_add_r by lia. f_equal. unfold n. lia. }
    assert (E53 : 2 ^ d = 2 ^ 53 * 2 ^ n).
    { rewrite <- Z.pow_add_r by lia. f_equal. unfold n. lia. }
    split.
    - apply Z.div_le_lower_bound; [assumption|]. lia.
    - apply Z.div_lt_upper_bound; [assumption|]. lia. }
  destruct (rne_spec m' l1 _ Hv1) as [Hr1 Hr2].
  set (m1 := round_nearest_even m' l1) in *.
  assert (He1' : e1 = d + ex - 53) by (unfold n in He1; lia).
  assert (Hnear : near (v * pow2 ex) (inject_Z m1 * pow2 e1)).
  { assert (Hx : (v * pow2 ex == (v * pow2 (- n)) * pow2 e1)%Q).
    { rewrite He1, pow2_add. pose proof (pow2_opp n) as Ho.
      transitivity (v * pow2 ex * (pow2 (- n) * pow2 n))%Q; [rewrite Ho; ring | ring]. }
    destruct (inloc_lower _ _ _ Hv1) as [Hlow _].
    assert (H52 : (inject_Z (2 ^ 52) <= inject_Z m')%Q) by (rewrite <- Zle_Qle; lia).
    pose proof (pow2_pos e1) as Hpos.
    set (A := inject_Z m1) in *. set (B := (v * pow2 (- n))%Q) in *. set (P := pow2 e1) in *.
    change (inject_Z (2 ^ 52)) with (4503599627370496 # 1)%Q in H52.
    unfold near. rewrite Hx. unfold eps. change (pow2 (-53)) with (1 # 9007199254740992)%Q.
    split.
    - setoid_replace (B * P * (1 - (1 # 9007199254740992)))%Q
        with ((B * (1 - (1 # 9007199254740992))) * P)%Q using relation Qeq by ring.
      apply Qmult_le_compat_r; lra.
    - setoid_replace (B * P * (1 + (1 # 9007199254740992)))%Q
        with ((B * (1 + (1 # 9007199254740992))) * P)%Q using relation Qeq by ring.
      apply Qmult_le_compat_r; lra. }
  clearbody m1 m' l1. clear Hv1 Hm1 Hr2.
  destruct (Z.eq_dec m1 (2 ^ 53)) as [E | NE].
  - (* the carry: the mantissa is halved *)
    exists 4503599627370496%positive, (e1 + 1). subst m1.
    split; [|split; [reflexivity | split; [lia|]]].
    + unfold shr_fexp. change (Zdigits2 (2 ^ 53)) with 54.
      rewrite fexp_normal by lia. replace (54 + e1 - 53 - e1) with 1 by lia.
      change (2 ^ 53) with 9007199254740992.
      cbn.
      match goal with |- context [Z.leb ?a ?b] => destruct (Z.leb_spec a b) as [|Hlt] end;
        [reflexivity | unfold emax, prec in Hlt; lia].
    + unfold near in *. rewrite pow2_add.
      setoid_replace (inject_Z (Z.pos 4503599627370496) * (pow2 e1 * pow2 1))%Q
        with (inject_Z (2 ^ 53) * pow2 e1)%Q using relation Qeq; [exact Hnear|].
      change (pow2 1) with 2%Q.
      change (inject_Z (2 ^ 53)) with (2 * inject_Z (Z.pos 4503599627370496))%Q.
      ring.
  - destruct m1 as [|q|q]; [lia | | lia].
    exists q, e1. split; [|split; [|split; [lia | exact Hnear]]].
    + assert (Hq : Zpos (digits2_pos q) = 53) by (apply digits2_unique; lia).
      unfold shr_fexp. cbn [Zdigits2]. rewrite Hq.
      rewrite fexp_normal by lia. replace (53 + e1 - 53 - e1) with 0 by lia.
      cbn.
      match goal with |- context [Z.leb ?a ?b] => destruct (Z.leb_spec a b) as [|Hlt] end;
        [reflexivity | unfold emax, prec in Hlt; lia].
    + assert (Hq : Zpos (digits2_pos q) = 53) by (apply digits2_unique; lia).
      lia.
Qed.

(** ** Values *)

Lemma pow2_le a b : a <= b -> (pow2 a <= pow2 b)%Q.
Proof. intros H. apply Qpower_le_compat_l; [assumption | discriminate]. Qed.

Lemma pow2_lt_inv a b : (pow2 a < pow2 b)%Q -> a < b.
Proof. intros H. eapply Qpower_lt_compat_l_inv; [exact H | reflexivity]. Qed.

Lemma pow2_le_inv a b : (pow2 a <= pow2 b)%Q -> a <= b.
Proof. intros H. eapply Qpower_le_compat_l_inv; [exact H | reflexivity]. Qed.

Lemma val_digits p e :
  (pow2 (Zpos (digits2_pos p) + e - 1) <= inject_Z (Zpos p) * pow2 e /\
   inject_Z (Zpos p) * pow2 e < pow2 (Zpos (digits2_pos p) + e))%Q.
Proof.
  pose proof (digits2_bounds p) as [H1 H2]. pose proof (pow2_pos e) as He.
  set (d := Zpos (digits2_pos p)) in *.
  assert (Hd : 0 < d) by (unfold d; lia).
  split.
  - replace (d + e - 1) with ((d - 1) + e) by lia. rewrite pow2_add.
    apply Qmult_le_compat_r; [|lra]. rewrite pow2_Z by lia. rewrite <- Zle_Qle. exact H1.
  - rewrite pow2_add. apply Qmult_lt_compat_r; [exact He|].
    rewrite pow2_Z by lia. rewrite <- Zlt_Qlt. exact H2.
Qed.

Lemma range_digits p e :
  inrange (inject_Z (Zpos p) * pow2 e) -> -1021 <= Zpos (digits2_pos p) + e < 1024.
Proof.
  intros [H1 H2]. destruct (val_digits p e) as [H3 H4].
  assert (-1000 < Zpos (digits2_pos p) + e) by (apply pow2_lt_inv; lra).
  assert (Zpos (digits2_pos p) + e - 1 <= 1000) by (apply pow2_le_inv; lra).
  lia.
Qed.

Lemma binary_round_spec p e :
  inrange (inject_Z (Zpos p) * pow2 e) ->
  exists m e',
    binary_round prec emax false p e = S754_finite false m e' /\
    digits2_pos m = 53%positive /\ -1074 <= e' <= 971 /\
    near (inject_Z (Zpos p) * pow2 e) (inject_Z (Zpos m) * pow2 e').
Proof.
  intros Hr. pose proof (range_digits p e Hr) as Hd.
  pose proof (digits2_bounds p) as [Hd1 Hd2].
  unfold binary_round, shl_align. rewrite fexp_normal by lia.
  set (d := Zpos (digits2_pos p)) in *.
  destruct (d + e - 53 - e) as [|k|k] eqn:Ek.
  - apply round_aux_spec; [|cbn; reflexivity | fold d; lia].
    replace d with 53 in Hd1 by lia. exact Hd1.
  - apply round_aux_spec; [|cbn; reflexivity | fold d; lia].
    assert (2 ^ 52 <= 2 ^ (d - 1)) by (apply Z.pow_le_mono_r; lia). lia.
  - assert (Hk : Zpos k = 53 - d) by lia.
    destruct (round_aux_spec (Pos.iter xO p k) (d + e - 53) loc_Exact
                (inject_Z (Zpos (Pos.iter xO p k)))) as (m & e' & Hm & Hdig & He' & Hn).
    + rewrite iter_xO, Hk.
      assert (2 ^ 52 = 2 ^ (d - 1) * 2 ^ (53 - d)).
      { rewrite <- Z.pow_add_r by lia. f_equal. lia. }
      assert (0 < 2 ^ (53 - d)) by (apply Z.pow_pos_nonneg; lia). nia.
    + cbn. reflexivity.
    + rewrite digits2_iter_xO. fold d. lia.
    + exists m, e'. split; [exact Hm|]. split; [exact Hdig|]. split; [exact He'|].
      unfold near in *.
      assert (E : (inject_Z (Z.pos (Pos.iter xO p k)) * pow2 (d + e - 53) ==
                   inject_Z (Z.pos p) * pow2 e)%Q).
      { rewrite iter_xO, inject_Z_mult, <- pow2_Z by lia.
        rewrite <- Qmult_assoc, <- pow2_add. replace (Z.pos k + (d + e - 53)) with e by lia.
        reflexivity. }
      rewrite <- E. exact Hn.
Qed.

Lemma near_refl v : (0 <= v)%Q -> near v v.
Proof.
  intros Hv. unfold near, eps. change (pow2 (-53)) with (1 # 9007199254740992)%Q.
  split; nra.
Qed.

Lemma near_eq x x' r r' : (x == x')%Q -> (r == r')%Q -> near x r -> near x' r'.
Proof. intros Ex Er [H1 H2]. unfold near. rewrite <- Ex, <- Er. split; assumption. Qed.

Lemma val_finite_pos m e : (0 < inject_Z (Zpos m) * pow2 e)%Q.
Proof.
  apply Qmult_lt_0_compat; [|apply pow2_pos]. change 0%Q with (inject_Z 0).
  rewrite <- Zlt_Qlt. lia.
Qed.


Lemma shl_align_val mx ex ez :
  ez <= ex ->
  (inject_Z (Zpos (fst (shl_align mx ex ez))) * pow2 ez == inject_Z (Zpos mx) * pow2 ex)%Q.
Proof.
  intros H. unfold shl_align. destruct (ez - ex) as [|k|k] eqn:Ek; cbn [fst].
  - replace ez with ex by lia. reflexivity.
  - lia.
  - rewrite iter_xO, inject_Z_mult, <- pow2_Z by lia.
    rewrite <- Qmult_assoc, <- pow2_add. replace (Z.pos k + ez) with ex by lia. reflexivity.
Qed.

Lemma SFmul_spec x y :
  nf x -> nf y -> ((val x * val y == 0)%Q \/ inrange (val x * val y)) ->
  nf (SFmul prec emax x y) /\ near (val x * val y) (val (SFmul prec emax x y)).
Proof.
  intros Hx Hy Hr.
  destruct x as [[|]|[|]| |[|] mx ex]; cbn in Hx; try tauto;
    destruct y as [[|]|[|]| |[|] my ey]; cbn in Hy; try tauto;
    try (cbn; split; [exact I | eapply near_eq; [| |apply (near_refl 0); lra]; ring]).
  assert (E : (inject_Z (Zpos (mx * my)) * pow2 (ex + ey) ==
               inject_Z (Zpos mx) * pow2 ex * (inject_Z (Zpos my) * pow2 ey))%Q).
  { rewrite Pos2Z.inj_mul, inject_Z_mult, pow2_add. ring. }
  cbn [val] in Hr.
  pose proof (val_finite_pos mx ex). pose proof (val_finite_pos my ey).
  destruct Hr as [Hr | Hr].
  { exfalso. assert (0 < inject_Z (Z.pos mx) * pow2 ex * (inject_Z (Z.pos my) * pow2 ey))%Q
      by (apply Qmult_lt_0_compat; assumption). lra. }
  assert (Hr' : inrange (inject_Z (Zpos (mx * my)) * pow2 (ex + ey))).
  { unfold inrange. rewrite E. exact Hr. }
  destruct (round_aux_spec (mx * my) (ex + ey) loc_Exact (inject_Z (Zpos (mx * my))))
    as (m & e' & Hm & Hdig & He' & Hn).
  - destruct Hx as [Hdx _], Hy as [Hdy _].
    pose proof (digits2_bounds mx) as [Hx1 _]. pose proof (digits2_bounds my) as [Hy1 _].
    rewrite Hdx in Hx1. rewrite Hdy in Hy1. change (2 ^ (53 - 1)) with (2 ^ 52) in *.
    rewrite Pos2Z.inj_mul. nia.
  - cbn. reflexivity.
  - apply range_digits. exact Hr'.
  - cbn [SFmul xorb]. rewrite Hm. cbn [nf val]. split; [split; assumption|].
    eapply near_eq; [exact E | reflexivity | exact Hn].
Qed.

Lemma SFadd_spec x y :
  nf x -> nf y -> ((val x + val y == 0)%Q \/ inrange (val x + val y)) ->
  nf (SFadd prec emax x y) /\ near (val x + val y) (val (SFadd prec emax x y)).
Proof.
  intros Hx Hy Hr.
  destruct x as [[|]|[|]| |[|] mx ex]; cbn in Hx; try tauto;
    destruct y as [[|]|[|]| |[|] my ey]; cbn in Hy; try tauto.
  - cbn. split; [exact I | eapply near_eq; [| |apply (near_refl 0); lra]; ring].
  - cbn [SFadd nf val]. split; [exact Hy|]. pose proof (val_finite_pos my ey).
    eapply near_eq; [| |apply (near_refl (inject_Z (Z.pos my) * pow2 ey)); lra]; ring.
  - cbn [SFadd nf val]. split; [exact Hx|]. pose proof (val_finite_pos mx ex).
    eapply near_eq; [| |apply (near_refl (inject_Z (Z.pos mx) * pow2 ex)); lra]; ring.
  - cbn [val] in Hr.
    pose proof (val_finite_pos mx ex). pose proof (val_finite_pos my ey).
    destruct Hr as [Hr | Hr]; [exfalso; lra|].
    cbn [SFadd cond_Zopp].
    set (ez := Z.min ex ey).
    set (ax := fst (shl_align mx ex ez)). set (ay := fst (shl_align my ey ez)).
    change (Z.pos ax + Z.pos ay) with (Z.pos (ax + ay)). cbn [binary_normalize].
    assert (E : (inject_Z (Zpos (ax + ay)) * pow2 ez ==
                 inject_Z (Zpos mx) * pow2 ex + inject_Z (Zpos my) * pow2 ey)%Q).
    { rewrite Pos2Z.inj_add, inject_Z_plus, Qmult_plus_distr_l.
      unfold ax, ay. rewrite !shl_align_val by (unfold ez; lia). reflexivity. }
    destruct (binary_round_spec (ax + ay) ez) as (m & e' & Hm & Hdig & He' & Hn).
    { unfold inrange. rewrite E. exact Hr. }
    rewrite Hm. cbn [nf val]. split; [split; assumption|].
    eapply near_eq; [exact E | reflexivity | exact Hn].
Qed.

Lemma of_Z_spec z :
  0 <= z -> (z = 0 \/ inrange (inject_Z z)) ->
  nf (of_Z z) /\ near (inject_Z z) (val (of_Z z)).
Proof.
  intros Hz Hr. destruct z as [|p|p]; [| |lia].
  - cbn. split; [exact I | apply (near_refl 0); lra].
  - destruct Hr as [Hr | Hr]; [discriminate|].
    assert (E : (inject_Z (Zpos p) * pow2 0 == inject_Z (Zpos p))%Q).
    { change (pow2 0) with 1%Q. ring. }
    destruct (binary_round_spec p 0) as (m & e' & Hm & Hdig & He' & Hn).
    { unfold inrange. rewrite E. exact Hr. }
    unfold of_Z. cbn [binary_normalize]. rewrite Hm. cbn [nf val].
    split; [split; assumption|]. eapply near_eq; [exact E | reflexivity | exact Hn].
Qed.

Lemma new_location_spec nb k q :
  0 < nb -> 0 <= k < nb ->
  inloc q (new_location nb k) (inject_Z q + inject_Z k / inject_Z nb).
Proof.
  intros Hnb Hk.
  assert (HN : (0 < inject_Z nb)%Q) by (change 0%Q with (inject_Z 0); rewrite <- Zlt_Qlt; lia).
  assert (HK : (0 <= inject_Z k)%Q) by (change 0%Q with (inject_Z 0); rewrite <- Zle_Qle; lia).
  assert (HKN : (inject_Z k < inject_Z nb)%Q) by (rewrite <- Zlt_Qlt; lia).
  assert (Ht : (inject_Z k / inject_Z nb * inject_Z nb == inject_Z k)%Q).
  { rewrite Qmult_comm. apply Qmult_div_r. lra. }
  assert (H2 : (inject_Z (2 * k) == 2 * inject_Z k)%Q) by (rewrite inject_Z_mult; reflexivity).
  assert (H21 : (inject_Z (2 * k + 1) == 2 * inject_Z k + 1)%Q)
    by (rewrite inject_Z_plus, inject_Z_mult; reflexivity).
  set (t := (inject_Z k / inject_Z nb)%Q) in *.
  set (K := inject_Z k) in *. set (N := inject_Z nb) in *.
  unfold new_location.
  destruct (Z.even nb) eqn:Ev.
  - unfold new_location_even. destruct (Z.eqb_spec k 0) as [E0 | N0].
    + cbn. assert (K == 0)%Q by (unfold K; rewrite E0; reflexivity). nra.
    + assert (0 < K)%Q by (unfold K; change 0%Q with (inject_Z 0); rewrite <- Zlt_Qlt; lia).
      destruct (Z.compare_spec (2 * k) nb) as [E | L | G]; cbn.
      * assert (2 * K == N)%Q by (rewrite <- H2; unfold N; rewrite E; reflexivity). nra.
      * assert (2 * K < N)%Q by (rewrite <- H2; unfold N; rewrite <- Zlt_Qlt; lia). nra.
      * assert (N < 2 * K)%Q by (rewrite <- H2; unfold N; rewrite <- Zlt_Qlt; lia). nra.
  - unfold new_location_odd. destruct (Z.eqb_spec k 0) as [E0 | N0].
    + cbn. assert (K == 0)%Q by (unfold K; rewrite E0; reflexivity). nra.
    + assert (0 < K)%Q by (unfold K; change 0%Q with (inject_Z 0); rewrite <- Zlt_Qlt; lia).
      assert (Hodd : 2 * k <> nb).
      { intros <-. rewrite Z.even_mul in Ev. discriminate. }
      destruct (Z.compare_spec (2 * k + 1) nb) as [E | L | G]; cbn.
      * assert (2 * K + 1 == N)%Q by (rewrite <- H21; unfold N; rewrite E; reflexivity). nra.
      * assert (2 * K + 1 < N)%Q by (rewrite <- H21; unfold N; rewrite <- Zlt_Qlt; lia). nra.
      * assert (N < 2 * K)%Q by (rewrite <- H2; unfold N; rewrite <- Zlt_Qlt; lia). nra.
Qed.

Lemma Qdiv_unique a b y : (0 < b)%Q -> (y * b == a)%Q -> (a / b == y)%Q.
Proof.
  intros Hb E. rewrite <- E. apply Qdiv_mult_l. lra.
Qed.

Lemma SFdiv_finite_spec mx ex my ey :
  inrange ((inject_Z (Zpos mx) * pow2 ex) / (inject_Z (Zpos my) * pow2 ey)) ->
  exists m e,
    SFdiv prec emax (S754_finite false mx ex) (S754_finite false my ey) = S754_finite false m e /\
    digits2_pos m = 53%positive /\ -1074 <= e <= 971 /\
    near ((inject_Z (Zpos mx) * pow2 ex) / (inject_Z (Zpos my) * pow2 ey))
         (inject_Z (Zpos m) * pow2 e).
Proof.
  intros Hr.
  pose proof (val_finite_pos mx ex) as Ha. pose proof (val_finite_pos my ey) as Hb.
  destruct (val_digits mx ex) as [Ha1 Ha2]. destruct (val_digits my ey) as [Hb1 Hb2].
  pose proof (digits2_bounds mx) as [Hx1 Hx2]. pose proof (digits2_bounds my) as [Hy1 Hy2].
  set (a := (inject_Z (Zpos mx) * pow2 ex)%Q) in *.
  set (b := (inject_Z (Zpos my) * pow2 ey)%Q) in *.
  set (d1 := Zpos (digits2_pos mx)) in *. set (d2 := Zpos (digits2_pos my)) in *.
  assert (HX : ((a / b) * b == a)%Q) by (rewrite Qmult_comm; apply Qmult_div_r; lra).
  set (X := (a / b)%Q) in *. destruct Hr as [Hr1 Hr2].
  assert (Hdd : -1001 < d1 + ex - (d2 + ey)).
  { assert (pow2 (d2 + ey - 1 + -1000) < pow2 (d1 + ex))%Q; [|apply pow2_lt_inv in H; lia].
    rewrite pow2_add. pose proof (pow2_pos (-1000)). pose proof (pow2_pos (d2 + ey - 1)).
    assert (pow2 (d2 + ey - 1) * pow2 (-1000) <= b * X)%Q
      by (apply Qmult_le_compat_nonneg; lra).
    nra. }
  cbn [SFdiv xorb]. unfold SFdiv_core_binary. cbn [Zdigits2]. fold d1 d2.
  rewrite fexp_normal by lia.
  set (e' := Z.min (d1 + ex - (d2 + ey) - 53) (ex - ey)).
  set (s := ex - ey - e').
  assert (Hs : 0 <= s /\ 53 - d1 + d2 <= s) by (unfold s, e'; lia).
  set (m' := match s with Z.pos _ => Z.shiftl (Z.pos mx) s | 0 => Z.pos mx | Z.neg _ => 0 end).
  assert (Hm' : m' = Zpos mx * 2 ^ s).
  { unfold m'. destruct s as [|k|k] eqn:Es; [simpl; lia | | lia].
    rewrite Z.shiftl_mul_pow2 by lia. reflexivity. }
  pose proof (Z_div_mod m' (Zpos my) ltac:(lia)) as Hdiv.
  destruct (Z.div_eucl m' (Z.pos my)) as [q r]. destruct Hdiv as [Hq Hrem].
  assert (H2s : 0 < 2 ^ s) by (apply Z.pow_pos_nonneg; lia).
  assert (Hq52 : 2 ^ 52 <= q).
  { assert (Hbig : 2 ^ 52 * 2 ^ d2 <= Zpos mx * 2 ^ s).
    { assert (H : 2 ^ (52 + d2) <= 2 ^ (d1 - 1 + s)) by (apply Z.pow_le_mono_r; lia).
      rewrite !Z.pow_add_r in H by (unfold d1, d2; lia).
      assert (2 ^ (d1 - 1) * 2 ^ s <= Zpos mx * 2 ^ s) by (apply Z.mul_le_mono_nonneg_r; lia).
      lia. }
    destruct (Z_lt_le_dec q (2 ^ 52)) as [Hlt|]; [exfalso | assumption].
    assert (q + 1 <= 2 ^ 52) by lia.
    assert (Zpos my * (q + 1) <= Zpos my * 2 ^ 52) by (apply Z.mul_le_mono_nonneg_l; lia).
    nia. }
  destruct q as [|qq|qq]; [lia | | lia].
  set (v := (inject_Z (Zpos qq) + inject_Z r / inject_Z (Zpos my))%Q).
  assert (Hloc : inloc (Zpos qq) (new_location (Zpos my) r) v)
    by (apply new_location_spec; lia).
  assert (HvX : (v * pow2 e' == X)%Q).
  { symmetry. apply Qdiv_unique; [exact Hb|].
    unfold v, a, b.
    assert (Hmy : (0 < inject_Z (Zpos my))%Q)
      by (change 0%Q with (inject_Z 0); rewrite <- Zlt_Qlt; lia).
    assert (E1 : ((inject_Z (Z.pos qq) + inject_Z r / inject_Z (Z.pos my)) * inject_Z (Zpos my)
                  == inject_Z m')%Q).
    { rewrite Hq, inject_Z_plus, inject_Z_mult. field. lra. }
    assert (E2 : (inject_Z m' == inject_Z (Zpos mx) * pow2 s)%Q).
    { rewrite Hm', inject_Z_mult, pow2_Z by lia. reflexivity. }
    assert (E3 : (pow2 ex == pow2 s * pow2 e' * pow2 ey)%Q).
    { rewrite <- !pow2_add. replace (s + e' + ey) with ex by (unfold s; lia). reflexivity. }
    rewrite E3.
    transitivity ((inject_Z (Z.pos qq) + inject_Z r / inject_Z (Z.pos my)) * inject_Z (Zpos my)
                  * (pow2 e' * pow2 ey))%Q; [ring|].
    rewrite E1, E2. ring. }
  destruct (inloc_lower _ _ _ Hloc) as [Hv1 Hv2].
  pose proof (digits2_bounds qq) as [Hq1 Hq2].
  destruct (val_digits qq e') as [Hqv1 Hqv2].
  pose proof (pow2_pos e') as Hpe.
  assert (Hvq : (inject_Z (Zpos qq) * pow2 e' <= X)%Q).
  { rewrite <- HvX. apply Qmult_le_compat_r; lra. }
  assert (HXq : (X < pow2 (Zpos (digits2_pos qq) + e'))%Q).
  { rewrite <- HvX, pow2_add. apply Qmult_lt_compat_r; [exact Hpe|].
    rewrite pow2_Z by lia.
    assert (inject_Z (Zpos qq) + 1 <= inject_Z (2 ^ Z.pos (digits2_pos qq)))%Q.
    { change 1%Q with (inject_Z 1). rewrite <- inject_Z_plus, <- Zle_Qle. lia. }
    lra. }
  destruct (round_aux_spec qq e' (new_location (Zpos my) r) v Hq52 Hloc)
    as (m & e & Hm & Hdig & He & Hn).
  { assert (-1000 < Zpos (digits2_pos qq) + e') by (apply pow2_lt_inv; lra).
    assert (Zpos (digits2_pos qq) + e' - 1 <= 1000) by (apply pow2_le_inv; lra).
    lia. }
  exists m, e. split; [exact Hm|]. split; [exact Hdig|]. split; [exact He|].
  eapply near_eq; [exact HvX | reflexivity | exact Hn].
Qed.

(** ** Accumulated relative error *)

Section Accumulated.
Local Open Scope Q_scope.



Lemma upow_ge1 k : 1 <= upow k.
Proof. induction k as [|k IH]; cbn [upow]; unfold u in *; [lra | nra]. Qed.

Lemma upow_add a b : upow (a + b) == upow a * upow b.
Proof. induction a as [|a IH]; cbn [upow Nat.add]; [ring | rewrite IH; ring]. Qed.

Lemma upow_mono a b : (a <= b)%nat -> upow a <= upow b.
Proof.
  intros H. replace b with (a + (b - a))%nat by lia. rewrite upow_add.
  pose proof (upow_ge1 a). pose proof (upow_ge1 (b - a)). nra.
Qed.

Lemma upow_bound k :
  inject_Z (Z.of_nat k) * (1 # 2251799813685248) <= 1 ->
  upow k <= 1 + inject_Z (Z.of_nat k) * (1 # 2251799813685248).
Proof.
  induction k as [|k IH]; intros Hk.
  - change (inject_Z (Z.of_nat 0)) with 0. cbn [upow]. lra.
  - rewrite Nat2Z.inj_succ in *. unfold Z.succ in *. rewrite inject_Z_plus in *.
    change (inject_Z 1) with 1 in *. cbn [upow]. unfold u.
    assert (0 <= inject_Z (Z.of_nat k)).
    { change 0 with (inject_Z 0). rewrite <- Zle_Qle. lia. }
    assert (H1 : upow k <= 1 + inject_Z (Z.of_nat k) * (1 # 2251799813685248)) by (apply IH; lra).
    pose proof (upow_ge1 k). nra.
Qed.

Lemma upow_le2 k : small k -> upow k <= 2.
Proof.
  unfold small. intros Hk.
  assert (H : inject_Z (Z.of_nat k) <= inject_Z (2 ^ 50)) by (rewrite <- Zle_Qle; exact Hk).
  change (inject_Z (2 ^ 50)) with (1125899906842624 # 1) in H.
  assert (0 <= inject_Z (Z.of_nat k)).
  { change 0 with (inject_Z 0). rewrite <- Zle_Qle. lia. }
  pose proof (upow_bound k). lra.
Qed.

Lemma close_nonneg k v q : close k v q -> 0 <= v.
Proof.
  intros (Hq & H1 & H2). pose proof (upow_ge1 k).
  destruct (Qlt_le_dec v 0) as [Hneg|]; [|assumption]. exfalso. nra.
Qed.

Lemma close_mono k k' v q : (k <= k')%nat -> close k v q -> close k' v q.
Proof.
  intros Hk Hc. pose proof (close_nonneg _ _ _ Hc) as Hv. destruct Hc as (Hq & H1 & H2).
  pose proof (upow_mono _ _ Hk). pose proof (upow_ge1 k).
  split; [assumption|]. split; nra.
Qed.

Lemma close_eq k v v' q q' : v == v' -> q == q' -> close k v q -> close k v' q'.
Proof. intros Ev Eq. unfold close. rewrite Ev, Eq. tauto. Qed.

Lemma close_zero k v : close k v 0 -> v == 0.
Proof.
  intros Hc. pose proof (close_nonneg _ _ _ Hc). destruct Hc as (_ & _ & H2). lra.
Qed.

Lemma close_zero_inv k v q : close k v q -> v == 0 -> q == 0.
Proof. intros (Hq & H1 & _) Hv. rewrite Hv in H1. lra. Qed.

(** one rounding costs one factor *)
Lemma near_close k x r q : close k x q -> near x r -> close (S k) r q.
Proof.
  intros Hc [N1 N2]. pose proof (close_nonneg _ _ _ Hc) as Hx. destruct Hc as (Hq & H1 & H2).
  unfold eps in *. change (pow2 (-53)) with (1 # 9007199254740992) in *.
  pose proof (upow_ge1 k). unfold close. cbn [upow]. unfold u.
  set (U := upow k) in *.
  split; [assumption|]. split.
  - assert (Hx' : x <= r * (4503599627370497 # 4503599627370496)) by lra.
    assert (x * U <= r * (4503599627370497 # 4503599627370496) * U)
      by (apply Qmult_le_compat_r; lra).
    lra.
  - assert (Hr' : r <= x * (4503599627370497 # 4503599627370496)) by lra.
    assert (x * (4503599627370497 # 4503599627370496) <=
            q * U * (4503599627370497 # 4503599627370496))
      by (apply Qmult_le_compat_r; lra).
    lra.
Qed.

Lemma close_mul a b x y p q :
  close a x p -> close b y q -> close (a + b) (x * y) (p * q).
Proof.
  intros Hx Hy. pose proof (close_nonneg _ _ _ Hx) as Hx0. pose proof (close_nonneg _ _ _ Hy) as Hy0.
  destruct Hx as (Hp & X1 & X2), Hy as (Hq & Y1 & Y2).
  pose proof (upow_ge1 a). pose proof (upow_ge1 b).
  unfold close. rewrite upow_add. split; [apply Qmult_le_0_compat; assumption|]. split.
  - setoid_replace (x * y * (upow a * upow b)) with ((x * upow a) * (y * upow b)) using relation Qeq by ring.
    apply Qmult_le_compat_nonneg; split; assumption.
  - setoid_replace (p * q * (upow a * upow b)) with ((p * upow a) * (q * upow b)) using relation Qeq by ring.
    apply Qmult_le_compat_nonneg; split; assumption.
Qed.

Lemma close_add k x y p q :
  close k x p -> close k y q -> close k (x + y) (p + q).
Proof.
  intros (Hp & X1 & X2) (Hq & Y1 & Y2). unfold close.
  rewrite !Qmult_plus_distr_l. split; [lra|]. split; lra.
Qed.

Lemma close_div a b x y p q :
  close a x p -> close b y q -> 0 < q -> close (a + b) (x / y) (p / q).
Proof.
  intros Hx Hy Hq0. pose proof (close_nonneg _ _ _ Hx) as Hx0.
  destruct Hx as (Hp & X1 & X2), Hy as (Hq & Y1 & Y2).
  pose proof (upow_ge1 a) as Ua. pose proof (upow_ge1 b) as Ub.
  assert (Hy0 : 0 < y).
  { destruct (Qlt_le_dec 0 y) as [|Hle]; [assumption|]. exfalso. nra. }
  assert (Es : x / y * y == x) by (rewrite Qmult_comm; apply Qmult_div_r; lra).
  assert (Et : p / q * q == p) by (rewrite Qmult_comm; apply Qmult_div_r; lra).
  set (s := x / y) in *. set (t := p / q) in *.
  assert (Hs0 : 0 <= s).
  { destruct (Qlt_le_dec s 0) as [Hneg|]; [|assumption]. exfalso. nra. }
  assert (Ht0 : 0 <= t).
  { destruct (Qlt_le_dec t 0) as [Hneg|]; [|assumption]. exfalso. nra. }
  unfold close. rewrite upow_add. set (A := upow a) in *. set (B := upow b) in *.
  split; [assumption|]. split.
  - (* t q = p <= x A = s y A <= s q B A *)
    apply (Qmult_le_r _ _ q Hq0).
    assert (y * s <= q * B * s) by (apply Qmult_le_compat_r; assumption).
    assert (y * s * A <= q * B * s * A) by (apply Qmult_le_compat_r; lra).
    assert (x * A == s * y * A) by (rewrite Es; reflexivity).
    lra.
  - (* s y = x <= p A = t q A <= t y B A *)
    apply (Qmult_le_r _ _ y Hy0).
    assert (q * t <= y * B * t) by (apply Qmult_le_compat_r; assumption).
    assert (q * t * A <= y * B * t * A) by (apply Qmult_le_compat_r; lra).
    assert (p * A == t * q * A) by (rewrite Et; reflexivity).
    lra.
Qed.

(** ** The operations, up to rounding *)

Lemma close_range k v q : close k v q -> small k -> ok q -> v == 0 \/ inrange v.
Proof.
  intros Hc Hk [E0 | [H1 H2]].
  - left. apply (close_zero k). eapply close_eq; [reflexivity | exact E0 | exact Hc].
  - right. pose proof (upow_le2 k Hk) as HU. pose proof (upow_ge1 k) as HU1.
    pose proof (close_nonneg _ _ _ Hc) as Hv. destruct Hc as (Hq & C1 & C2).
    assert (E1 : pow2 (-900) == 2 * pow2 (-901)).
    { change 2 with (pow2 1). rewrite <- pow2_add. reflexivity. }
    assert (E2 : pow2 901 == 2 * pow2 900).
    { change 2 with (pow2 1). rewrite <- pow2_add. reflexivity. }
    assert (L1 : pow2 (-1000) <= pow2 (-901)) by (apply pow2_le; lia).
    assert (L2 : pow2 901 <= pow2 1000) by (apply pow2_le; lia).
    pose proof (pow2_pos (-901)). pose proof (pow2_pos 900).
    split.
    + assert (v * upow k <= v * 2).
      { rewrite !(Qmult_comm v). apply Qmult_le_compat_r; assumption. }
      lra.
    + assert (q * upow k <= q * 2).
      { rewrite !(Qmult_comm q). apply Qmult_le_compat_r; assumption. }
      lra.
Qed.

Lemma sim_add k x y p q :
  sim k x p -> sim k y q -> small k -> ok (p + q) ->
  sim (S k) (SFadd prec emax x y) (p + q).
Proof.
  intros [Nx Cx] [Ny Cy] Hk Hok.
  pose proof (close_add _ _ _ _ _ Cx Cy) as Cs.
  destruct (SFadd_spec x y Nx Ny (close_range _ _ _ Cs Hk Hok)) as [Nr Hn].
  split; [exact Nr|]. eapply near_close; eassumption.
Qed.

Lemma sim_mul a b x y p q :
  sim a x p -> sim b y q -> small (a + b) -> ok (p * q) ->
  sim (S (a + b)) (SFmul prec emax x y) (p * q).
Proof.
  intros [Nx Cx] [Ny Cy] Hk Hok.
  pose proof (close_mul _ _ _ _ _ _ Cx Cy) as Cs.
  destruct (SFmul_spec x y Nx Ny (close_range _ _ _ Cs Hk Hok)) as [Nr Hn].
  split; [exact Nr|]. eapply near_close; eassumption.
Qed.

Lemma sim_zero k : sim k (S754_zero false) 0.
Proof.
  split; [exact I|]. cbn [val]. pose proof (upow_ge1 k). unfold close. split; lra.
Qed.

Lemma sim_div a b x y p q :
  sim a x p -> sim b y q -> 0 < q -> small (a + b) -> ok (p / q) ->
  sim (S (a + b)) (SFdiv prec emax x y) (p / q).
Proof.
  intros [Nx Cx] [Ny Cy] Hq Hk Hok.
  pose proof (close_div _ _ _ _ _ _ Cx Cy Hq) as Cs.
  assert (Hy : 0 < val y).
  { pose proof (close_nonneg _ _ _ Cy). destruct Cy as (_ & Y1 & _). pose proof (upow_ge1 b).
    destruct (Qlt_le_dec 0 (val y)) as [|Hle]; [assumption|]. exfalso. nra. }
  destruct y as [[|]|[|]| |[|] my ey]; cbn in Ny; try tauto; cbn [val] in Hy; try lra.
  destruct x as [[|]|[|]| |[|] mx ex]; cbn in Nx; try tauto.
  - cbn [SFdiv xorb]. eapply (proj1 (and_comm _ _)). split.
    + eapply close_eq; [reflexivity | | apply (sim_zero (S (a + b)))].
      pose proof (close_zero_inv _ _ _ Cx ltac:(reflexivity)) as Ep. rewrite Ep.
      unfold Qdiv. ring.
    + exact I.
  - cbn [val] in Cs.
    destruct (close_range _ _ _ Cs Hk Hok) as [E0 | Hr].
    { exfalso. pose proof (val_finite_pos mx ex) as Hx.
      assert (H : inject_Z (Z.pos mx) * pow2 ex / (inject_Z (Z.pos my) * pow2 ey)
                  * (inject_Z (Z.pos my) * pow2 ey) == inject_Z (Z.pos mx) * pow2 ex)
        by (rewrite Qmult_comm; apply Qmult_div_r; lra).
      rewrite E0 in H. lra. }
    destruct (SFdiv_finite_spec mx ex my ey Hr) as (m & e & Hm & Hdig & He & Hn).
    rewrite Hm. split; [cbn [nf]; split; assumption|].
    cbn [val]. eapply near_close; eassumption.
Qed.

Lemma close_exact v : 0 <= v -> close 0 v v.
Proof. intros Hv. unfold close. cbn [upow]. split; [assumption|]. split; lra. Qed.

Lemma sim_of_Z z :
  (0 <= z)%Z -> ok (inject_Z z) -> sim 1 (of_Z z) (inject_Z z).
Proof.
  intros Hz Hok.
  assert (Hz' : 0 <= inject_Z z) by (change 0 with (inject_Z 0); rewrite <- Zle_Qle; exact Hz).
  destruct (of_Z_spec z Hz) as [Nr Hn].
  - destruct Hok as [E0 | [H1 H2]].
    + left. destruct z; [reflexivity | discriminate E0 | discriminate E0].
    + right. split.
      * assert (pow2 (-1000) <= pow2 (-900)) by (apply pow2_le; lia). lra.
      * assert (pow2 900 <= pow2 1000) by (apply pow2_le; lia). lra.
  - split; [exact Nr|]. eapply near_close; [apply close_exact; exact Hz' | exact Hn].
Qed.

Lemma sim_of_frac n d :
  (0 <= n)%Z -> ok (n # d) -> sim 1 (of_frac n d) (n # d).
Proof.
  intros Hn Hok. destruct n as [|p|p]; [| |lia].
  - cbn [of_frac]. eapply (proj1 (and_comm _ _)). split; [|exact I].
    eapply close_eq; [reflexivity | | apply (sim_zero 1)]. reflexivity.
  - cbn [of_frac].
    assert (E : inject_Z (Z.pos p) * pow2 0 / (inject_Z (Z.pos d) * pow2 0) == Z.pos p # d).
    { change (pow2 0) with 1. rewrite !Qmult_1_r. unfold Qdiv. rewrite Qmult_comm.
      change (/ inject_Z (Z.pos d)) with (1 # d). unfold Qeq, Qmult. cbn. lia. }
    assert (Hr : inrange (inject_Z (Z.pos p) * pow2 0 / (inject_Z (Z.pos d) * pow2 0))).
    { unfold inrange. rewrite E. destruct Hok as [E0 | [H1 H2]]; [discriminate E0|].
      assert (pow2 (-1000) <= pow2 (-900)) by (apply pow2_le; lia).
      assert (pow2 900 <= pow2 1000) by (apply pow2_le; lia). lra. }
    destruct (SFdiv_finite_spec p 0 d 0 Hr) as (m & e & Hm & Hdig & He & Hnr).
    rewrite Hm. split; [cbn [nf]; split; assumption|]. cbn [val].
    eapply near_close; [|eapply near_eq; [exact E | reflexivity | exact Hnr]].
    apply close_exact. unfold Qle. cbn. lia.
Qed.

End Accumulated.

(** ** Two decimals

    A number within half a cent of a whole number of cents is printed as
    those cents. *)

Lemma round_half_even_near (n d c : N) :
  (0 < d)%N ->
  2 * Z.of_N n < (2 * Z.of_N c + 1) * Z.of_N d ->
  (2 * Z.of_N c - 1) * Z.of_N d < 2 * Z.of_N n ->
  round_half_even n d = c.
Proof.
  intros Hd H1 H2. unfold round_half_even.
  pose proof (N.div_mod n d ltac:(lia)) as Hdm.
  pose proof (N.mod_lt n d ltac:(lia)) as Hr.
  set (q := (n / d)%N) in *. set (r := (n mod d)%N) in *.
  assert (Hn : Z.of_N n = Z.of_N d * Z.of_N q + Z.of_N r) by lia.
  rewrite Hn in H1, H2.
  assert (Hq0 : 0 <= Z.of_N q) by lia. assert (Hc0 : 0 <= Z.of_N c) by lia.
  assert (Hd0 : 0 < Z.of_N d) by lia. assert (Hr0 : 0 <= Z.of_N r < Z.of_N d) by lia.
  set (dz := Z.of_N d) in *. set (qz := Z.of_N q) in *. set (rz := Z.of_N r) in *.
  set (cz := Z.of_N c) in *.
  assert (Hlo : cz <= qz + 1).
  { destruct (Z_le_gt_dec cz (qz + 1)) as [|Hgt]; [assumption|]. exfalso.
    assert (dz * (qz + 2) <= dz * cz) by (apply Z.mul_le_mono_nonneg_l; lia). lia. }
  assert (Hhi : qz <= cz).
  { destruct (Z_le_gt_dec qz cz) as [|Hgt]; [assumption|]. exfalso.
    assert (dz * (cz + 1) <= dz * qz) by (apply Z.mul_le_mono_nonneg_l; lia). lia. }
  destruct (N.compare_spec (2 * r) d) as [E | L | G].
  - exfalso. assert (E' : 2 * rz = dz) by lia.
    destruct (Z.eq_dec cz qz) as [Ec | Nc]; [rewrite Ec in *; lia|].
    assert (Ec : cz = qz + 1) by lia. rewrite Ec in *. lia.
  - assert (L' : 2 * rz < dz) by lia.
    destruct (Z.eq_dec cz qz) as [Ec | Nc]; [lia|].
    exfalso. assert (Ec : cz = qz + 1) by lia. rewrite Ec in *. lia.
  - assert (G' : dz < 2 * rz) by lia.
    destruct (Z.eq_dec cz qz) as [Ec | Nc]; [exfalso; rewrite Ec in *; lia | lia].
Qed.

Lemma fraction_val m e :
  (0 < snd (fraction m e))%N /\
  (inject_Z (Zpos m) * pow2 e * inject_Z (Z.of_N (snd (fraction m e))) ==
   inject_Z (Z.of_N (fst (fraction m e))))%Q.
Proof.
  unfold fraction. destruct e as [|k|k]; cbn [fst snd].
  - split; [lia|]. change (pow2 0) with 1%Q. rewrite N.pow_0_r, N.mul_1_r. cbn. ring.
  - split; [lia|]. rewrite pow2_Z by lia. rewrite N2Z.inj_mul, N2Z.inj_pow, inject_Z_mult.
    rewrite Z2N.id by lia. change (Z.of_N 1) with 1. change (inject_Z 1) with 1%Q. cbn [Z.of_N]. ring.
  - split; [apply N.neq_0_lt_0, N.pow_nonzero; lia|].
    rewrite N2Z.inj_pow. cbn [Z.of_N]. rewrite <- pow2_Z by lia.
    change (Z.neg k) with (- Z.pos k). rewrite <- Qmult_assoc, pow2_opp. ring.
Qed.

Lemma format2_cents x (c : N) :
  nf x ->
  (inject_Z (Z.of_N c) - (1 # 2) < 100 * val x)%Q ->
  (100 * val x < inject_Z (Z.of_N c) + (1 # 2))%Q ->
  format2 x = text (dec_of_N (c / 100) ++ "."%char :: two_digits (c mod 100)).
Proof.
  intros Hx H1 H2. destruct x as [[|]|[|]| |[|] m e]; cbn in Hx; try tauto.
  - cbn [val] in H1, H2. assert (c = 0%N); [|subst c; reflexivity].
    assert (Hc : (inject_Z (Z.of_N c) < inject_Z 1)%Q) by (change (inject_Z 1) with 1%Q; lra).
    rewrite <- Zlt_Qlt in Hc. lia.
  - cbn [val] in H1, H2. unfold format2.
    destruct (fraction_val m e) as [Hd Hv].
    destruct (fraction m e) as [n d]. cbn [fst snd] in *.
    assert (Hdq : (0 < inject_Z (Z.of_N d))%Q).
    { change 0%Q with (inject_Z 0). rewrite <- Zlt_Qlt. lia. }
    set (V := (inject_Z (Z.pos m) * pow2 e)%Q) in *.
    set (Dq := inject_Z (Z.of_N d)) in *. set (Nq := inject_Z (Z.of_N n)) in *.
    set (Cq := inject_Z (Z.of_N c)) in *.
    rewrite (round_half_even_near (100 * n) d c Hd); [reflexivity | |].
    + assert (Hq : (inject_Z (2 * Z.of_N (100 * n)) < inject_Z ((2 * Z.of_N c + 1) * Z.of_N d))%Q).
      { rewrite N2Z.inj_mul, !inject_Z_mult, inject_Z_plus, inject_Z_mult.
        change (inject_Z 2) with 2%Q. change (inject_Z 1) with 1%Q.
        change (inject_Z (Z.of_N 100)) with 100%Q. fold Dq Nq Cq.
        assert ((100 * V) * Dq < (Cq + (1 # 2)) * Dq)%Q by (apply Qmult_lt_compat_r; assumption).
        assert (100 * V * Dq == 100 * Nq)%Q by (rewrite <- Hv; ring).
        lra. }
      rewrite <- Zlt_Qlt in Hq. exact Hq.
    + assert (Hq : (inject_Z ((2 * Z.of_N c - 1) * Z.of_N d) < inject_Z (2 * Z.of_N (100 * n)))%Q).
      { rewrite N2Z.inj_mul, !inject_Z_mult. unfold Z.sub. rewrite inject_Z_plus, inject_Z_mult.
        change (inject_Z 2) with 2%Q. change (inject_Z (- (1))) with (- (1))%Q.
        change (inject_Z (Z.of_N 100)) with 100%Q. fold Dq Nq Cq.
        assert ((Cq - (1 # 2)) * Dq < (100 * V) * Dq)%Q by (apply Qmult_lt_compat_r; assumption).
        assert (100 * V * Dq == 100 * Nq)%Q by (rewrite <- Hv; ring).
        lra. }
      rewrite <- Zlt_Qlt in Hq. exact Hq.
Qed.

End RoundFacts.

(** * The binary64 run against the exact amounts *)

Module SimFacts.
Import B64 Round RoundFacts.

Section Sums.
Local Open Scope Q_scope.

Lemma nf_not_nan x : nf x -> isnan x = false.
Proof. destruct x as [[|]|[|]| |[|] m e]; cbn; tauto. Qed.

Lemma sim_eq k x q q' : q == q' -> sim k x q -> sim k x q'.
Proof. intros E [N C]. split; [exact N|]. eapply close_eq; [reflexivity | exact E | exact C]. Qed.

Lemma sim_mono k k' x q : (k <= k')%nat -> sim k x q -> sim k' x q.
Proof. intros Hk [N C]. split; [exact N | eapply close_mono; eassumption]. Qed.

Lemma ok_eq q q' : q == q' -> ok q -> ok q'.
Proof. intros E. unfold ok. rewrite E. tauto. Qed.

Lemma small_le k k' : (k <= k')%nat -> small k' -> small k.
Proof. unfold small. lia. Qed.

Lemma sim_fold_add k xs qs :
  Forall2 (sim k) xs qs ->
  forall acc qa j,
    sim j acc qa -> (k <= j)%nat -> small (j + length xs) ->
    (forall n, ok (qa + qsum (take n qs))) ->
    sim (j + length xs) (fold_left (SFadd prec emax) xs acc) (qa + qsum qs).
Proof.
  induction 1 as [|x q xs qs Hx _ IH]; intros acc qa j Hacc Hkj Hsmall Hok.
  - cbn [fold_left length qsum foldr]. rewrite Nat.add_0_r.
    eapply sim_eq; [|exact Hacc]. ring.
  - cbn [fold_left length].
    assert (H1 : sim (S j) (SFadd prec emax acc x) (qa + q)).
    { apply sim_add; [exact Hacc | eapply sim_mono; eassumption | |].
      - eapply small_le; [|exact Hsmall]. lia.
      - eapply ok_eq; [|apply (Hok 1%nat)]. change (take 1 (q :: qs)) with [q].
        cbn [qsum foldr]. ring. }
    replace (j + S (length xs))%nat with (S j + length xs)%nat by lia.
    eapply sim_eq; [|apply (IH _ _ _ H1)].
    + cbn [qsum foldr]. fold (qsum qs). ring.
    + lia.
    + replace (S j + length xs)%nat with (j + S (length xs))%nat by lia. exact Hsmall.
    + intros n. eapply ok_eq; [|apply (Hok (S n))].
      change (take (S n) (q :: qs)) with (q :: take n qs).
      cbn [qsum foldr]. fold (qsum (take n qs)). ring.
Qed.

Lemma amount_eq lo T q q' : q == q' -> amount lo T q -> amount lo T q'.
Proof. intros E. unfold amount. rewrite E. tauto. Qed.

Lemma amount_weaken lo T T' q : T <= T' -> amount lo T q -> amount lo T' q.
Proof. intros HT (H0 & H1 & H2). split; [assumption|]. split; [assumption | lra]. Qed.

Lemma amount_zero lo T : 0 <= T -> amount lo T 0.
Proof. intros HT. split; [lra|]. split; [left; reflexivity | assumption]. Qed.

Lemma amount_ok lo T q : amount lo T q -> (-900 <= lo)%Z -> T <= pow2 900 -> ok q.
Proof.
  intros (H0 & [E | H1] & H2) Hlo HT; [left; exact E | right].
  pose proof (pow2_le (-900) lo Hlo). split; lra.
Qed.

Lemma inject_nat_succ n : inject_Z (Z.of_nat (S n)) == inject_Z (Z.of_nat n) + 1.
Proof. rewrite Nat2Z.inj_succ. unfold Z.succ. rewrite inject_Z_plus. reflexivity. Qed.

Lemma inject_nat_nonneg n : 0 <= inject_Z (Z.of_nat n).
Proof. change 0 with (inject_Z 0). rewrite <- Zle_Qle. lia. Qed.

Lemma amount_sum lo T qs :
  Forall (amount lo T) qs -> 0 <= T ->
  amount lo (inject_Z (Z.of_nat (length qs)) * T) (qsum qs).
Proof.
  intros Hall HT. induction Hall as [|q qs (H0 & H1 & H2) _ IH].
  - cbn [qsum foldr length]. apply amount_zero. change (inject_Z (Z.of_nat 0)) with 0. lra.
  - destruct IH as (I0 & I1 & I2). cbn [qsum foldr length]. fold (qsum qs).
    pose proof (inject_nat_succ (length qs)) as E. unfold amount.
    set (L := inject_Z (Z.of_nat (length qs))) in *.
    set (L' := inject_Z (Z.of_nat (S (length qs)))) in *.
    assert (L' * T == L * T + T) by (rewrite E; ring).
    split; [lra|]. split; [|lra].
    destruct H1 as [E1 | L1]; destruct I1 as [E2 | L2];
      [left; lra | right; lra | right; lra | right; lra].
Qed.

Lemma amount_take lo T qs n :
  Forall (amount lo T) qs -> 0 <= T ->
  amount lo (inject_Z (Z.of_nat (length qs)) * T) (qsum (take n qs)).
Proof.
  intros Hall HT.
  eapply amount_weaken; [|apply amount_sum; [apply Forall_take; exact Hall | exact HT]].
  apply Qmult_le_compat_r; [|exact HT]. rewrite <- Zle_Qle, length_take. lia.
Qed.

(** A column of amounts, summed from zero. *)
Lemma sim_series k xs qs lo T :
  Forall2 (sim k) xs qs -> Forall (amount lo T) qs ->
  0 <= T -> (-900 <= lo)%Z -> inject_Z (Z.of_nat (length qs)) * T <= pow2 900 ->
  small (k + length xs) ->
  sim (k + length xs) (fold_left (SFadd prec emax) xs (S754_zero false)) (qsum qs) /\
  amount lo (inject_Z (Z.of_nat (length qs)) * T) (qsum qs).
Proof.
  intros Hsim Hall HT Hlo Hlen Hsmall. split; [|apply amount_sum; assumption].
  eapply sim_eq; [|apply (sim_fold_add k xs qs Hsim (S754_zero false) 0 k)].
  - ring.
  - apply sim_zero.
  - lia.
  - exact Hsmall.
  - intros n. eapply ok_eq; [|eapply amount_ok; [apply (amount_take lo T qs n) | |]]; try eassumption.
    ring.
Qed.

(** ** The sum of an array as numpy computes it *)

Lemma amount_add lo T1 T2 p q :
  amount lo T1 p -> amount lo T2 q -> amount lo (T1 + T2) (p + q).
Proof.
  intros (P0 & P1 & P2) (Q0 & Q1 & Q2). split; [lra|]. split; [|lra].
  destruct P1 as [E1 | L1]; destruct Q1 as [E2 | L2];
    [left; lra | right; lra | right; lra | right; lra].
Qed.

Lemma qsum_app (a b : list Q) : qsum (a ++ b) == qsum a + qsum b.
Proof.
  induction a as [|x a IH]; cbn [app].
  - change (qsum []) with 0. ring.
  - change (qsum (x :: a ++ b)) with (x + qsum (a ++ b)).
    change (qsum (x :: a)) with (x + qsum a). rewrite IH. ring.
Qed.

Lemma qsum_zip (r t : list Q) :
  length r = length t -> qsum (zip_with Qplus r t) == qsum r + qsum t.
Proof.
  revert t. induction r as [|x r IH]; intros [|y t] Hl; try discriminate.
  - reflexivity.
  - cbn [zip_with].
    change (qsum ((x + y)%Q :: zip_with Qplus r t)) with (x + y + qsum (zip_with Qplus r t)).
    change (qsum (x :: r)) with (x + qsum r). change (qsum (y :: t)) with (y + qsum t).
    rewrite IH by (injection Hl; auto). ring.
Qed.

Lemma SFadd_zero_l x : nf x -> SFadd prec emax (S754_zero false) x = x.
Proof. destruct x as [[|]|[|]| |[|] m e]; cbn; try tauto; reflexivity. Qed.

Section Pairwise.
Variables (k : nat) (lo : Z) (T : Q) (N : nat).
Hypothesis HT : 0 <= T.
Hypothesis Hlo : (-900 <= lo)%Z.
Hypothesis HN : inject_Z (Z.of_nat N) * T <= pow2 900.
Hypothesis Hsmall : small (k + N).

Local Abbreviation approx := (Round.approx k lo T).
Local Abbreviation plus := (add (F:=float)).

Lemma count_le c c' : (c <= c')%nat -> inject_Z (Z.of_nat c) * T <= inject_Z (Z.of_nat c') * T.
Proof. intros Hc. apply Qmult_le_compat_r; [|exact HT]. rewrite <- Zle_Qle. lia. Qed.

Lemma approx_eq d c x q q' : q == q' -> approx d c x q -> approx d c x q'.
Proof. intros E [S A]. split; [eapply sim_eq | eapply amount_eq]; eassumption. Qed.

Lemma approx_mono d d' c c' x q :
  (d <= d')%nat -> (c <= c')%nat -> approx d c x q -> approx d' c' x q.
Proof.
  intros Hd Hc [S A]. split.
  - eapply sim_mono; [|exact S]. lia.
  - eapply amount_weaken; [apply count_le; exact Hc | exact A].
Qed.

Lemma approx_zero : approx 0 0 (S754_zero false) 0.
Proof. split; [apply sim_zero|]. apply amount_zero. change (inject_Z (Z.of_nat 0)) with 0. lra. Qed.

Lemma approx_add d c1 c2 x y p q :
  approx d c1 x p -> approx d c2 y q -> (d <= N)%nat -> (c1 + c2 <= N)%nat ->
  approx (S d) (c1 + c2) (plus x y) (p + q).
Proof.
  intros [S1 A1] [S2 A2] Hd Hc.
  assert (A : amount lo (inject_Z (Z.of_nat (c1 + c2)) * T) (p + q)).
  { eapply amount_weaken; [|apply amount_add; eassumption].
    rewrite Nat2Z.inj_add, inject_Z_plus. lra. }
  split; [|exact A]. replace (k + S d)%nat with (S (k + d)) by lia.
  change (add x y) with (SFadd prec emax x y).
  apply sim_add; [exact S1 | exact S2 | |].
  - eapply small_le; [|exact Hsmall]. lia.
  - eapply amount_ok; [exact A | exact Hlo |].
    pose proof (count_le _ _ Hc). lra.
Qed.

Lemma approx_fold xs qs :
  Forall2 (approx 0 1) xs qs ->
  forall acc qa d c,
    approx d c acc qa -> (d + length xs <= N)%nat -> (c + length xs <= N)%nat ->
    approx (d + length xs) (c + length xs) (fold_left plus xs acc) (qa + qsum qs).
Proof.
  induction 1 as [|x q xs qs Hx _ IH]; intros acc qa d c Hacc Hd Hc; cbn [length] in *.
  - cbn [fold_left qsum foldr]. rewrite !Nat.add_0_r.
    eapply approx_eq; [|exact Hacc]. ring.
  - cbn [fold_left].
    assert (H1 : approx (S d) (c + 1) (plus acc x) (qa + q)).
    { apply approx_add; [exact Hacc | | lia | lia].
      eapply approx_mono; [| |exact Hx]; lia. }
    replace (d + S (length xs))%nat with (S d + length xs)%nat by lia.
    replace (c + S (length xs))%nat with ((c + 1) + length xs)%nat by lia.
    eapply approx_eq; [|apply (IH _ _ _ _ H1); lia].
    cbn [qsum foldr]. fold (qsum qs). ring.
Qed.

Lemma approx_zip d c r rq t tq :
  Forall2 (approx d c) r rq -> Forall2 (approx 0 1) t tq ->
  (d <= N)%nat -> (c + 1 <= N)%nat ->
  Forall2 (approx (S d) (c + 1)) (zip_with plus r t) (zip_with Qplus rq tq).
Proof.
  intros Hr. revert t tq. induction Hr as [|x q r rq Hx _ IH]; intros t tq Ht Hd Hc.
  - constructor.
  - destruct Ht as [|y p t tq Hy Ht]; cbn [zip_with]; constructor.
    + apply approx_add; [exact Hx | | exact Hd | exact Hc].
      eapply approx_mono; [| |exact Hy]; lia.
    + apply IH; assumption.
Qed.

Lemma approx_unrolled blocks : forall d c r rq l lq,
  Forall2 (approx d c) r rq -> Forall2 (approx 0 1) l lq ->
  length r = 8%nat -> (8 * blocks <= length l)%nat ->
  (d + blocks <= N)%nat -> (c + blocks <= N)%nat ->
  exists rq',
    Forall2 (approx (d + blocks) (c + blocks)) (unrolled blocks r l).1 rq' /\
    length (unrolled blocks r l).1 = 8%nat /\
    (unrolled blocks r l).2 = drop (8 * blocks) l /\
    qsum rq' == qsum rq + qsum (take (8 * blocks) lq).
Proof.
  induction blocks as [|b IH]; intros d c r rq l lq Hr Hl Hlen Hb Hd Hc; cbn [unrolled].
  - exists rq. rewrite !Nat.add_0_r. split; [exact Hr|]. split; [exact Hlen|].
    split; [reflexivity|]. change (take (8 * 0) lq) with (@nil Q).
    change (qsum []) with 0. ring.
  - assert (Ht : length (take 8 l) = 8%nat) by (rewrite length_take; lia).
    assert (Hq : length rq = 8%nat) by (rewrite <- (Forall2_length _ _ _ Hr); exact Hlen).
    assert (Hlq : length lq = length l) by (symmetry; eapply Forall2_length; exact Hl).
    destruct (IH (S d) (c + 1)%nat (zip_with plus r (take 8 l)) (zip_with Qplus rq (take 8 lq))
                (drop 8 l) (drop 8 lq)) as (rq' & H1 & H0 & H2 & H3).
    + apply approx_zip; [exact Hr | apply Forall2_take; exact Hl | lia | lia].
    + apply Forall2_drop. exact Hl.
    + rewrite length_zip_with. lia.
    + rewrite length_drop. lia.
    + lia.
    + lia.
    + exists rq'. split; [|split; [exact H0|split]].
      * replace (d + S b)%nat with (S d + b)%nat by lia.
        replace (c + S b)%nat with (c + 1 + b)%nat by lia. exact H1.
      * rewrite H2, drop_drop. f_equal. lia.
      * rewrite H3, qsum_zip by (rewrite length_take; lia).
        replace (8 * S b)%nat with (8 + 8 * b)%nat by lia.
        rewrite <- (take_drop 8 (take (8 + 8 * b) lq)), qsum_app.
        rewrite take_take, skipn_firstn_comm.
        replace (8 `min` (8 + 8 * b))%nat with 8%nat by lia.
        replace (8 + 8 * b - 8)%nat with (8 * b)%nat by lia. ring.
Qed.

Lemma approx_tree8 d c r rq :
  Forall2 (approx d c) r rq -> length r = 8%nat -> (d + 3 <= N)%nat -> (8 * c <= N)%nat ->
  approx (d + 3) (8 * c) (tree8 r) (qsum rq).
Proof.
  intros Hr Hlen Hd Hc.
  do 8 (destruct Hr as [|? ? r rq ? Hr]; [discriminate|]).
  destruct Hr; [|discriminate]. cbn [tree8 qsum foldr].
  assert (P2 : forall x y p q, approx d c x p -> approx d c y q ->
                 approx (S d) (c + c) (plus x y) (p + q))
    by (intros; apply approx_add; [assumption | assumption | lia | lia]).
  assert (P4 : forall x y p q, approx (S d) (c + c) x p -> approx (S d) (c + c) y q ->
                 approx (S (S d)) (c + c + (c + c)) (plus x y) (p + q))
    by (intros; apply approx_add; [assumption | assumption | lia | lia]).
  replace (d + 3)%nat with (S (S (S d))) by lia.
  replace (8 * c)%nat with ((c + c + (c + c)) + (c + c + (c + c)))%nat by lia.
  eapply approx_eq; [|apply approx_add; [apply P4; apply P2 | apply P4; apply P2 | lia | lia]];
    try eassumption.
  ring.
Qed.

Lemma approx_block l lq :
  Forall2 (approx 0 1) l lq -> (length l <= N)%nat ->
  approx (length l) (length l) (block_sum l) (qsum lq).
Proof.
  intros Hl Hn. unfold block_sum. destruct (length l <? 8)%nat eqn:Hlt.
  - eapply approx_eq; [|apply (approx_fold l lq Hl _ _ _ _ approx_zero); lia].
    ring.
  - apply Nat.ltb_ge in Hlt.
    pose proof (Nat.div_mod_eq (length l) 8) as Hdm.
    pose proof (Nat.mod_upper_bound (length l) 8 ltac:(lia)) as Hm.
    set (a := (length l / 8)%nat) in *. set (m := (length l mod 8)%nat) in *.
    assert (Ha : (1 <= a)%nat) by lia.
    assert (Hlq : length lq = length l) by (symmetry; eapply Forall2_length; exact Hl).
    destruct (approx_unrolled (a - 1) 0 1 (take 8 l) (take 8 lq) (drop 8 l) (drop 8 lq))
      as (rq & H1 & Hr & H2 & H3).
    + apply Forall2_take. exact Hl.
    + apply Forall2_drop. exact Hl.
    + rewrite length_take. lia.
    + rewrite length_drop. lia.
    + lia.
    + lia.
    + destruct (unrolled (a - 1) (take 8 l) (drop 8 l)) as [r rest].
      cbn [fst snd] in H1, Hr, H2. subst rest.
      assert (Ht : approx (a - 1 + 3) (8 * a) (tree8 r) (qsum rq)).
      { replace (8 * a)%nat with (8 * (1 + (a - 1)))%nat by lia.
        apply approx_tree8; [exact H1 | exact Hr | lia | lia]. }
      assert (Hrest : Forall2 (approx 0 1) (drop (8 * (a - 1)) (drop 8 l))
                        (drop (8 * (a - 1)) (drop 8 lq)))
        by (do 2 apply Forall2_drop; exact Hl).
      assert (Hlr : length (drop (8 * (a - 1)) (drop 8 l)) = m)
        by (rewrite !length_drop; lia).
      pose proof (approx_fold _ _ Hrest _ _ _ _ Ht) as Hf. rewrite Hlr in Hf.
      assert (E1 : qsum lq == qsum (take 8 lq) + qsum (drop 8 lq))
        by (rewrite <- qsum_app, take_drop; reflexivity).
      assert (E2 : qsum (drop 8 lq) == qsum (take (8 * (a - 1)) (drop 8 lq)) +
                                       qsum (drop (8 * (a - 1)) (drop 8 lq)))
        by (rewrite <- qsum_app, take_drop; reflexivity).
      apply (approx_eq _ _ _ (qsum rq + qsum (drop (8 * (a - 1)) (drop 8 lq)))).
      * rewrite H3, E1, E2. ring.
      * eapply approx_mono; [| |apply Hf]; lia.
Qed.

Lemma approx_pairwise fuel : forall l lq,
  Forall2 (approx 0 1) l lq -> (length l <= N)%nat ->
  approx (length l) (length l) (pairwise_sum fuel l) (qsum lq).
Proof.
  induction fuel as [|f IH]; intros l lq Hl Hn; cbn [pairwise_sum].
  - apply approx_block; assumption.
  - destruct (128 <? length l)%nat eqn:Hlt; [|apply approx_block; assumption].
    apply Nat.ltb_lt in Hlt.
    set (n2 := (length l / 2 - (length l / 2) mod 8)%nat).
    assert (Hn2 : (1 <= n2 /\ 2 * n2 <= length l)%nat).
    { pose proof (Nat.div_mod_eq (length l) 2) as E.
      pose proof (Nat.mod_upper_bound (length l) 2 ltac:(lia)).
      pose proof (Nat.mod_upper_bound (length l / 2) 8 ltac:(lia)).
      pose proof (Nat.Div0.mod_le (length l / 2) 8). subst n2. lia. }
    pose proof (IH (take n2 l) (take n2 lq) (Forall2_take _ _ _ _ Hl)) as H1.
    pose proof (IH (drop n2 l) (drop n2 lq) (Forall2_drop _ _ _ _ Hl)) as H2.
    rewrite length_take in H1. rewrite length_drop in H2.
    replace (length l `min` n2)%nat with n2 in H1 by lia.
    specialize (H1 ltac:(lia)). specialize (H2 ltac:(lia)).
    apply (approx_eq _ _ _ (qsum (take n2 lq) + qsum (drop n2 lq))).
    + rewrite <- qsum_app, take_drop. reflexivity.
    + eapply approx_mono; [| |apply (approx_add (length l - n2) n2 (length l - n2))].
      * lia.
      * lia.
      * eapply approx_mono; [| |exact H1]; lia.
      * exact H2.
      * lia.
      * lia.
Qed.

Lemma nan_to_zero_nf (xs : list float) : Forall nf xs -> nan_to_zero <$> xs = xs.
Proof.
  induction 1 as [|x xs Hx _ IH]; [reflexivity|].
  rewrite fmap_cons, IH. unfold nan_to_zero. change (is_nan x) with (isnan x).
  rewrite (nf_not_nan x Hx). reflexivity.
Qed.

End Pairwise.

(** A column of amounts, summed by numpy. *)
Lemma sim_np_series k xs qs lo T :
  Forall2 (sim k) xs qs -> Forall (amount lo T) qs ->
  0 <= T -> (-900 <= lo)%Z -> inject_Z (Z.of_nat (length qs)) * T <= pow2 900 ->
  small (k + length xs) ->
  sim (k + length xs) (series_sum xs) (qsum qs) /\
  amount lo (inject_Z (Z.of_nat (length qs)) * T) (qsum qs).
Proof.
  intros Hsim Hall HT Hlo Hlen Hsmall. split; [|apply amount_sum; assumption].
  assert (Hl : length qs = length xs) by (symmetry; eapply Forall2_length; exact Hsim).
  rewrite Hl in Hlen.
  assert (Hap : Forall2 (Round.approx k lo T 0 1) xs qs).
  { clear Hlen Hsmall Hl. induction Hsim as [|x q xs qs Hx _ IH]; [constructor|].
    inversion Hall; subst. constructor; [|apply IH; assumption].
    split; [rewrite Nat.add_0_r; exact Hx|].
    eapply amount_eq; [|eapply amount_weaken; [|eassumption]]; [reflexivity|].
    change (inject_Z (Z.of_nat 1)) with 1. lra. }
  destruct (approx_pairwise k lo T (length xs) HT Hlo Hlen Hsmall (length xs) xs qs Hap (le_n _))
    as [[Nf C] _].
  unfold series_sum, np_sum.
  assert (Hnf : Forall nf xs).
  { clear -Hsim. induction Hsim as [|x q xs qs [Hx _] _ IH]; constructor; assumption. }
  rewrite (nan_to_zero_nf xs Hnf).
  change (add (of_int 0) (pairwise_sum (length xs) xs))
    with (SFadd prec emax (S754_zero false) (pairwise_sum (length xs) xs)).
  rewrite SFadd_zero_l by exact Nf. split; assumption.
Qed.


End Sums.

(** ** The rows of a table of cents *)

Section Rows.
Local Open Scope Q_scope.

Lemma pow2_50 : pow2 50 == 1125899906842624 # 1.
Proof. vm_compute. reflexivity. Qed.

Lemma pow2_63 : pow2 63 == 9223372036854775808 # 1.
Proof. vm_compute. reflexivity. Qed.

Lemma pow2_m70 : pow2 (-70) == 1 # 1180591620717411303424.
Proof. vm_compute. reflexivity. Qed.

Lemma pow2_m7 : pow2 (-7) == 1 # 128.
Proof. vm_compute. reflexivity. Qed.

Lemma cents_amount c :
  (0 <= c < 2 ^ 50)%Z -> amount (-7) (pow2 50) (c # 100).
Proof.
  intros Hc. change (2 ^ 50)%Z with 1125899906842624%Z in Hc.
  unfold amount. rewrite pow2_50, pow2_m7. unfold Qle, Qeq. cbn [Qnum Qden].
  split; [lia|]. split; [|lia].
  destruct (Z.eq_dec c 0%Z) as [->|]; [left; reflexivity | right; lia].
Qed.

Lemma qty_bounds q : (1 <= q < 2 ^ 63)%Z -> 1 <= inject_Z q /\ inject_Z q <= pow2 63.
Proof.
  intros Hq. change (2 ^ 63)%Z with 9223372036854775808%Z in Hq.
  rewrite pow2_63. unfold Qle. cbn [Qnum Qden inject_Z]. lia.
Qed.

Lemma share_spec (r : string * Z * Z) :
  (1 <= r.1.2 < 2 ^ 63)%Z -> (0 <= r.2 < 2 ^ 50)%Z ->
  share r * inject_Z r.1.2 == r.2 # 100 /\ amount (-70) (pow2 50) (share r).
Proof.
  intros Hq Hc. destruct (qty_bounds _ Hq) as [Q1 Q2].
  destruct (cents_amount _ Hc) as (C0 & C1 & C2).
  assert (E : share r * inject_Z r.1.2 == r.2 # 100).
  { unfold share. rewrite Qmult_comm. apply Qmult_div_r. lra. }
  split; [exact E|]. rewrite pow2_63 in Q2. rewrite pow2_50 in C2. unfold amount.
  rewrite pow2_50, pow2_m70.
  set (s := share r) in *. set (qq := inject_Z r.1.2) in *. set (cc := r.2 # 100) in *.
  assert (S0 : 0 <= s).
  { destruct (Qlt_le_dec s 0) as [Hneg|]; [exfalso; nra | assumption]. }
  split; [exact S0|]. split; [|nra].
  destruct C1 as [E0 | L0].
  - left. nra.
  - right. rewrite pow2_m7 in L0.
    destruct (Qlt_le_dec s (1 # 1180591620717411303424)) as [Hlt|]; [exfalso | assumption].
    assert (s * qq < (1 # 1180591620717411303424) * qq) by (apply Qmult_lt_compat_r; lra).
    lra.
Qed.

Lemma cost_amount (r : string * Z * Z) (n : Z) :
  (1 <= r.1.2 < 2 ^ 63)%Z -> (0 <= r.2 < 2 ^ 50)%Z -> (0 <= n <= r.1.2)%Z ->
  amount (-70) (pow2 50) (inject_Z n * share r).
Proof.
  intros Hq Hc Hn. destruct (share_spec r Hq Hc) as (E & S0 & S1 & S2).
  destruct (cents_amount _ Hc) as (C0 & C1 & C2).
  assert (N0 : 0 <= inject_Z n) by (change 0 with (inject_Z 0); rewrite <- Zle_Qle; lia).
  assert (N1 : inject_Z n <= inject_Z r.1.2) by (rewrite <- Zle_Qle; lia).
  unfold amount.
  set (s := share r) in *. set (qq := inject_Z r.1.2) in *. set (cc := r.2 # 100) in *.
  set (nn := inject_Z n) in *.
  assert (nn * s <= qq * s) by (apply Qmult_le_compat_r; assumption).
  split; [apply Qmult_le_0_compat; assumption|]. split; [|lra].
  destruct (Z.eq_dec n 0%Z) as [E0 | N0'].
  - left. unfold nn. rewrite E0. change (inject_Z 0) with 0. ring.
  - destruct S1 as [Es | Ls]; [left; rewrite Es; ring | right].
    assert (1 <= nn).
    { unfold nn. change 1 with (inject_Z 1). rewrite <- Zle_Qle. lia. }
    assert (1 * s <= nn * s) by (apply Qmult_le_compat_r; assumption).
    lra.
Qed.

Lemma small_5 : small 5.
Proof. unfold small. change (2 ^ 50)%Z with 1125899906842624%Z. lia. Qed.

Lemma sim_row_total r :
  row_ok r -> sim 1 (total (cent_item (F:=float) r)) (r.2 # 100).
Proof.
  intros [Hq Hc]. cbn [total cent_item]. apply sim_of_frac; [lia|].
  eapply amount_ok; [apply cents_amount; exact Hc | lia |]. apply pow2_le. lia.
Qed.

Lemma sim_qty q : (1 <= q < 2 ^ 63)%Z -> sim 1 (of_Z q) (inject_Z q).
Proof.
  intros Hq. destruct (qty_bounds q Hq) as [Q1 Q2]. apply sim_of_Z; [lia|]. right.
  assert (pow2 (-900) <= pow2 0) by (apply pow2_le; lia).
  assert (pow2 63 <= pow2 900) by (apply pow2_le; lia).
  change (pow2 0) with 1 in *. split; lra.
Qed.

Lemma sim_count n q : (0 <= n <= q)%Z -> (q < 2 ^ 63)%Z -> sim 1 (of_Z n) (inject_Z n).
Proof.
  intros Hn Hq. destruct (Z.eq_dec n 0%Z) as [->|Hne].
  - apply sim_zero.
  - apply sim_qty. lia.
Qed.

Lemma sim_row_price r :
  row_ok r -> sim 3 (unit_price (cent_item (F:=float) r)) (share r).
Proof.
  intros [Hq Hc]. cbn [unit_price cent_item].
  destruct (share_spec r Hq Hc) as [_ Ha]. destruct (qty_bounds _ Hq) as [Q1 _].
  apply (sim_div 1 1).
  - apply (sim_row_total r). split; assumption.
  - apply sim_qty. exact Hq.
  - lra.
  - eapply small_le; [|apply small_5]. lia.
  - eapply amount_ok; [exact Ha | lia |]. apply pow2_le. lia.
Qed.

Lemma sim_row_cost r n :
  row_ok r -> (0 <= n <= r.1.2)%Z ->
  sim 5 (mul (of_int n) (unit_price (cent_item (F:=float) r))) (inject_Z n * share r).
Proof.
  intros Hr Hn. pose proof Hr as [Hq Hc].
  apply (sim_mul 1 3).
  - apply (sim_count n r.1.2); lia.
  - apply sim_row_price. exact Hr.
  - eapply small_le; [|apply small_5]. lia.
  - eapply amount_ok; [apply cost_amount; eassumption | lia |]. apply pow2_le. lia.
Qed.

Lemma sim_costs (rows : list (string * Z * Z)) : forall f : nat -> Z,
  (forall i r, rows !! i = Some r -> row_ok r /\ (0 <= f i <= r.1.2)%Z) ->
  Forall2 (sim 5)
    (imap (fun i r => mul (of_int (f i)) (unit_price (cent_item (F:=float) r))) rows)
    (exact_costs f rows) /\
  Forall (amount (-70) (pow2 50)) (exact_costs f rows).
Proof.
  induction rows as [|r rows IH]; intros f Hf.
  - split; constructor.
  - unfold exact_costs. rewrite !imap_cons.
    destruct (Hf 0%nat r eq_refl) as [Hr Hn].
    destruct (IH (f ∘ S)) as [IH1 IH2].
    { intros i r' Hi. apply (Hf (S i) r' Hi). }
    split; constructor.
    + apply sim_row_cost; assumption.
    + exact IH1.
    + destruct Hr. apply cost_amount; assumption.
    + exact IH2.
Qed.

Lemma sim_nf k x q : sim k x q -> nf x.
Proof. intros [N _]. exact N. Qed.

Lemma Forall2_sim_nf k xs qs : Forall2 (sim k) xs qs -> Forall nf xs.
Proof. induction 1; constructor; [eapply sim_nf; eassumption | assumption]. Qed.

Lemma rows_small (n : nat) : (Z.of_nat n < 2 ^ 50)%Z -> inject_Z (Z.of_nat n) <= pow2 50.
Proof.
  intros Hn. rewrite pow2_Z by lia. rewrite <- Zle_Qle. lia.
Qed.

(** The total of one person. *)
Lemma sim_person (rows : list (string * Z * Z)) (f : nat -> Z) :
  (forall i r, rows !! i = Some r -> row_ok r /\ (0 <= f i <= r.1.2)%Z) ->
  small (5 + length rows) ->
  sim (5 + length rows)
    (series_sum (imap (fun i r => mul (of_int (f i)) (unit_price (cent_item (F:=float) r))) rows))
    (qsum (exact_costs f rows)) /\
  amount (-70) (pow2 100) (qsum (exact_costs f rows)).
Proof.
  intros Hf Hsmall. destruct (sim_costs rows f Hf) as [H1 H2].
  assert (Hlen : length (exact_costs f rows) = length rows) by (unfold exact_costs; apply length_imap).
  assert (Hlen' : length (imap (fun i r => mul (of_int (f i))
                    (unit_price (cent_item (F:=float) r))) rows) = length rows)
    by apply length_imap.
  assert (Hn : inject_Z (Z.of_nat (length rows)) <= pow2 50).
  { apply rows_small. unfold small in Hsmall. lia. }
  assert (Hprod : inject_Z (Z.of_nat (length rows)) * pow2 50 <= pow2 100).
  { change 100%Z with (50 + 50)%Z. rewrite pow2_add. apply Qmult_le_compat_r; [exact Hn|].
    pose proof (pow2_pos 50). lra. }
  pose proof (pow2_pos 50) as P50.
  destruct (sim_np_series 5 _ _ (-70) (pow2 50) H1 H2) as [S1 S2].
  - lra.
  - lia.
  - rewrite Hlen. assert (pow2 100 <= pow2 900) by (apply pow2_le; lia). lra.
  - rewrite Hlen'. exact Hsmall.
  - rewrite Hlen' in S1. rewrite Hlen in S2. split.
    + exact S1.
    + eapply amount_weaken; [exact Hprod | exact S2].
Qed.

(** The column of totals. *)
Lemma sim_totals (rows : list (string * Z * Z)) :
  Forall row_ok rows -> small (1 + length rows) ->
  sim (1 + length rows) (series_sum (total <$> (cent_item (F:=float) <$> rows)))
    (qsum ((fun r => r.2 # 100) <$> rows)).
Proof.
  intros Hall Hsmall.
  assert (H1 : Forall2 (sim 1) (total <$> (cent_item (F:=float) <$> rows))
                 ((fun r => r.2 # 100) <$> rows)).
  { induction Hall as [|r rows Hr _ IH]; [constructor|].
    rewrite !fmap_cons. constructor; [apply sim_row_total; exact Hr|].
    apply IH. eapply small_le; [|exact Hsmall]. cbn [length]. lia. }
  assert (H2 : Forall (amount (-7) (pow2 50)) ((fun r => r.2 # 100) <$> rows)).
  { apply Forall_fmap. eapply Forall_impl; [exact Hall|]. intros r [_ Hc]. cbn.
    apply cents_amount. exact Hc. }
  assert (Hn : inject_Z (Z.of_nat (length rows)) <= pow2 50).
  { apply rows_small. unfold small in Hsmall. lia. }
  pose proof (pow2_pos 50) as P50.
  destruct (sim_np_series 1 _ _ (-7) (pow2 50) H1 H2) as [S1 _].
  - lra.
  - lia.
  - rewrite length_fmap.
    assert (inject_Z (Z.of_nat (length rows)) * pow2 50 <= pow2 100).
    { change 100%Z with (50 + 50)%Z. rewrite pow2_add. apply Qmult_le_compat_r; lra. }
    assert (pow2 100 <= pow2 900) by (apply pow2_le; lia). lra.
  - rewrite !length_fmap. exact Hsmall.
  - rewrite !length_fmap in S1. exact S1.
Qed.

Lemma costs_rows (rows : list (string * Z * Z)) a p :
  costs (cent_item (F:=float) <$> rows) a p =
  imap (fun i r => mul (of_int (assigned_qty a p i)) (unit_price (cent_item (F:=float) r))) rows.
Proof. unfold costs. rewrite imap_fmap. reflexivity. Qed.

(** The grand total. *)
Lemma sim_grand (rows : list (string * Z * Z)) a people :
  Forall row_ok rows ->
  (forall p i r, p ∈ people -> rows !! i = Some r -> (0 <= assigned_qty a p i <= r.1.2)%Z) ->
  small (5 + length rows + length people) ->
  sim (5 + length rows + length people)
    (grand_total (cent_item (F:=float) <$> rows) a people)
    (qsum ((fun p => qsum (exact_costs (assigned_qty a p) rows)) <$> people)).
Proof.
  intros Hrows Hcnt Hsmall.
  assert (Hs : small (5 + length rows)) by (eapply small_le; [|exact Hsmall]; lia).
  assert (Hp : forall p, p ∈ people ->
            sim (5 + length rows) (person_sum (cent_item (F:=float) <$> rows) a p)
              (qsum (exact_costs (assigned_qty a p) rows)) /\
            amount (-70) (pow2 100) (qsum (exact_costs (assigned_qty a p) rows))).
  { intros p Hin. unfold person_sum. rewrite costs_rows. apply sim_person; [|exact Hs].
    intros i r Hi. split; [|apply (Hcnt p i r Hin Hi)].
    rewrite Forall_lookup in Hrows. apply (Hrows i r Hi). }
  assert (H1 : Forall2 (sim (5 + length rows))
                 (person_sum (cent_item (F:=float) <$> rows) a <$> people)
                 ((fun p => qsum (exact_costs (assigned_qty a p) rows)) <$> people)).
  { clear Hcnt Hsmall. induction people as [|p people IH]; [constructor|].
    rewrite !fmap_cons. constructor.
    - apply Hp. apply elem_of_cons. left. reflexivity.
    - apply IH. intros q Hq. apply Hp. apply elem_of_cons. right. exact Hq. }
  assert (H2 : Forall (amount (-70) (pow2 100))
                 ((fun p => qsum (exact_costs (assigned_qty a p) rows)) <$> people)).
  { apply Forall_fmap, Forall_forall. intros q Hq. apply Hp. exact Hq. }
  assert (Hn : inject_Z (Z.of_nat (length people)) <= pow2 50).
  { apply rows_small. unfold small in Hsmall. lia. }
  pose proof (pow2_pos 100) as P100.
  destruct (sim_series (5 + length rows) _ _ (-70) (pow2 100) H1 H2) as [S1 _].
  - lra.
  - lia.
  - rewrite length_fmap.
    assert (inject_Z (Z.of_nat (length people)) * pow2 100 <= pow2 150).
    { change 150%Z with (50 + 100)%Z. rewrite pow2_add. apply Qmult_le_compat_r; lra. }
    assert (pow2 150 <= pow2 900) by (apply pow2_le; lia). lra.
  - rewrite !length_fmap. exact Hsmall.
  - rewrite !length_fmap in S1. exact S1.
Qed.

(** *** The exact amounts reconcile *)

Lemma qsum_app_one (f g : string -> Q) (l : list string) :
  qsum ((fun p => f p + g p) <$> l) == qsum (f <$> l) + qsum (g <$> l).
Proof.
  induction l as [|p l IH]; cbn [fmap list_fmap qsum foldr].
  - ring.
  - fold (qsum ((fun p => f p + g p) <$> l)). fold (qsum (f <$> l)). fold (qsum (g <$> l)).
    rewrite IH. ring.
Qed.

Lemma qsum_const_zero (l : list string) : qsum ((fun _ => 0) <$> l) == 0.
Proof.
  induction l as [|p l IH]; cbn [fmap list_fmap qsum foldr]; [reflexivity|].
  fold (qsum ((fun _ : string => 0) <$> l)). rewrite IH. ring.
Qed.

Lemma qsum_scaled (z : string -> Z) (s : Q) (l : list string) :
  qsum ((fun p => inject_Z (z p) * s) <$> l) == inject_Z (foldr Z.add 0%Z (z <$> l)) * s.
Proof.
  induction l as [|p l IH]; cbn [fmap list_fmap qsum foldr].
  - change (inject_Z 0) with 0. ring.
  - fold (qsum ((fun p => inject_Z (z p) * s) <$> l)). rewrite IH, inject_Z_plus.
    change (list_fmap string Z z l) with (z <$> l). ring.
Qed.

Lemma qsum_ext (f g : string -> Q) (l : list string) :
  (forall p, f p == g p) -> qsum (f <$> l) == qsum (g <$> l).
Proof.
  intros E. induction l as [|p l IH]; cbn [fmap list_fmap qsum foldr]; [reflexivity|].
  fold (qsum (f <$> l)). fold (qsum (g <$> l)). rewrite IH, E. reflexivity.
Qed.

Lemma exact_reconcile (rows : list (string * Z * Z)) (people : list string) :
  forall cnt : string -> nat -> Z,
  (forall i r, rows !! i = Some r ->
     (1 <= r.1.2)%Z /\ foldr Z.add 0%Z ((fun p => cnt p i) <$> people) = r.1.2) ->
  qsum ((fun p => qsum (exact_costs (cnt p) rows)) <$> people) ==
  qsum ((fun r => r.2 # 100) <$> rows).
Proof.
  induction rows as [|r rows IH]; intros cnt H.
  - cbn [exact_costs imap fmap list_fmap qsum foldr]. apply qsum_const_zero.
  - rewrite fmap_cons. cbn [qsum foldr]. fold (qsum ((fun r => r.2 # 100) <$> rows)).
    rewrite <- (IH (fun p i => cnt p (S i))).
    2:{ intros i r' Hi. apply (H (S i) r' Hi). }
    destruct (H 0%nat r eq_refl) as [Hq Hsum].
    rewrite (qsum_ext _ (fun p => inject_Z (cnt p 0%nat) * share r +
                                  qsum (exact_costs (fun i => cnt p (S i)) rows))).
    2:{ intros p. unfold exact_costs. rewrite imap_cons. cbn [qsum foldr]. reflexivity. }
    rewrite qsum_app_one, (qsum_scaled (fun p => cnt p 0%nat)), Hsum.
    assert (E : inject_Z r.1.2 * share r == r.2 # 100).
    { unfold share. apply Qmult_div_r. intros E0.
      assert (Hpos : 0 < inject_Z r.1.2) by (change 0 with (inject_Z 0); rewrite <- Zlt_Qlt; lia).
      lra. }
    rewrite E. reflexivity.
Qed.

Lemma qsum_cents (rows : list (string * Z * Z)) :
  qsum ((fun r => r.2 # 100) <$> rows) == cents_sum rows # 100.
Proof.
  unfold cents_sum. induction rows as [|r rows IH]; cbn [fmap list_fmap qsum foldr]; [reflexivity|].
  fold (qsum ((fun r => r.2 # 100) <$> rows)). rewrite IH.
  change (list_fmap _ _ snd rows) with (snd <$> rows).
  unfold Qeq, Qplus. cbn [Qnum Qden]. lia.
Qed.

(** *** The unit price of a row *)



(** *** To the cent *)

Lemma format2_sim K x (D : Z) :
  sim K x (D # 100) -> (0 <= D)%Z -> ((1 + D) * Z.of_nat K < 2 ^ 49)%Z ->
  format2 x =
  text (dec_of_N (Z.to_N D / 100) ++ "."%char :: two_digits (Z.to_N D mod 100)).
Proof.
  intros [Hnf (H0 & H1 & H2)] HD HK.
  change (2 ^ 49)%Z with 562949953421312%Z in HK.
  pose proof (upow_bound K) as HU. pose proof (upow_ge1 K) as HU1.
  pose proof (inject_nat_nonneg K) as HK0.
  assert (HKq : inject_Z (Z.of_nat K) <= 562949953421312 # 1).
  { change (562949953421312 # 1) with (inject_Z 562949953421312). rewrite <- Zle_Qle. nia. }
  assert (HDq : 0 <= inject_Z D) by (change 0 with (inject_Z 0); rewrite <- Zle_Qle; exact HD).
  assert (HDK : inject_Z D * inject_Z (Z.of_nat K) < 562949953421312 # 1).
  { change (562949953421312 # 1) with (inject_Z 562949953421312).
    rewrite <- inject_Z_mult, <- Zlt_Qlt. nia. }
  assert (Eq : 100 * (D # 100) == inject_Z D).
  { unfold Qeq, Qmult, inject_Z. cbn [Qnum Qden]. lia. }
  set (V := val x) in *. set (U := upow K) in *. set (Kq := inject_Z (Z.of_nat K)) in *.
  set (Dq := inject_Z D) in *. set (q := D # 100) in *.
  assert (HU' : U <= 1 + Kq * (1 # 2251799813685248)) by (apply HU; lra).
  assert (V0 : 0 <= V).
  { destruct (Qlt_le_dec V 0) as [Hneg|]; [exfalso; nra | assumption]. }
  assert (A1 : V * U <= V * (1 + Kq * (1 # 2251799813685248))).
  { rewrite !(Qmult_comm V). apply Qmult_le_compat_r; assumption. }
  assert (A2 : q * U <= q * (1 + Kq * (1 # 2251799813685248))).
  { rewrite !(Qmult_comm q). apply Qmult_le_compat_r; assumption. }
  assert (A3 : V * Kq <= (Dq * (1 # 80)) * Kq).
  { apply Qmult_le_compat_r; [|exact HK0].
    assert (q * U <= q * (5 # 4)).
    { rewrite !(Qmult_comm q). apply Qmult_le_compat_r; [lra | assumption]. }
    lra. }
  assert (A4 : q * Kq == Dq * Kq * (1 # 100)) by (rewrite <- Eq; ring).
  apply format2_cents; [exact Hnf | |]; rewrite Z2N.id by exact HD; fold Dq V; lra.
Qed.

End Rows.

(** ** Reconciliation on binary64 *)

Lemma assigned_nonneg_sum a (people : list string) i :
  (forall p, p ∈ people -> 0 <= assigned_qty a p i) -> 0 <= total_assigned a people i.
Proof.
  unfold total_assigned. induction people as [|q people IH]; intros Hnn; [cbn; lia|].
  rewrite fmap_cons. cbn [foldr].
  assert (0 <= assigned_qty a q i) by (apply Hnn, elem_of_cons; left; reflexivity).
  assert (0 <= foldr Z.add 0 ((fun p0 => assigned_qty a p0 i) <$> people)).
  { apply IH. intros p0 Hp0. apply Hnn, elem_of_cons. right. exact Hp0. }
  lia.
Qed.

Lemma assigned_le_total a (people : list string) p i :
  p ∈ people -> (forall p', p' ∈ people -> 0 <= assigned_qty a p' i) ->
  assigned_qty a p i <= total_assigned a people i.
Proof.
  induction people as [|p' people IH]; intros Hin Hnn.
  - inversion Hin.
  - assert (Hrest : forall p0, p0 ∈ people -> 0 <= assigned_qty a p0 i).
    { intros p0 Hp0. apply Hnn, elem_of_cons. right. exact Hp0. }
    pose proof (assigned_nonneg_sum a people i Hrest) as H0.
    assert (H1 : 0 <= assigned_qty a p' i) by (apply Hnn, elem_of_cons; left; reflexivity).
    unfold total_assigned in *. rewrite fmap_cons. cbn [foldr].
    destruct (decide (p = p')) as [-> | Hne]; [lia|].
    assert (Hin' : p ∈ people).
    { apply elem_of_cons in Hin. destruct Hin as [E | Hin']; [congruence | exact Hin']. }
    specialize (IH Hin' Hrest). lia.
Qed.

Lemma cents_sum_bounds (rows : list (string * Z * Z)) :
  Forall (fun r => 0 <= r.2) rows ->
  0 <= cents_sum rows /\ Forall (fun r => r.2 <= cents_sum rows) rows.
Proof.
  unfold cents_sum. induction 1 as [|r rows Hr _ [IH1 IH2]].
  - split; [cbn; lia | constructor].
  - rewrite fmap_cons. cbn [foldr]. split; [lia|]. constructor; [lia|].
    eapply Forall_impl; [exact IH2|]. cbn. intros r' Hr'. lia.
Qed.

(** The parser produces rows of cents. *)
Lemma split_at_dot_digits a b :
  Forall (fun c => is_digit c = true) a -> split_at_dot (a ++ "."%char :: b) = (a, b).
Proof.
  induction 1 as [|c a Hc _ IH]; cbn [app split_at_dot].
  - reflexivity.
  - destruct (char_eqb_spec c ".") as [-> | _]; [vm_compute in Hc; discriminate Hc|]. rewrite IH. reflexivity.
Qed.

Lemma int_of_digits_nonneg l : Forall (fun c => is_digit c = true) l -> 0 <= int_of_digits l.
Proof.
  unfold int_of_digits. intros Hl.
  assert (Hgen : forall z, 0 <= z ->
            0 <= fold_left (fun acc c => 10 * acc + digit_value c) l z); [|apply Hgen; lia].
  induction Hl as [|c l Hc _ IH]; intros z Hz; cbn [fold_left]; [exact Hz|].
  apply IH. pose proof (digit_value_range c). lia.
Qed.

Lemma to_item_row {F} `{Number F} m :
  item_shape m -> to_item (F:=F) m = cent_item (row_of m).
Proof.
  intros (_ & _ & _ & _ & _ & _ & _ & [_ Hint] & _ & Hlen).
  unfold to_item, cent_item, row_of, float_of_decimal, m_total. cbn [fst snd].
  change (chars "." ++ m_frac m) with ("."%char :: m_frac m).
  rewrite (split_at_dot_digits _ _ Hint), Hlen. reflexivity.
Qed.

Theorem grand_total_to_the_cent (rows : list (string * Z * Z)) a people :
  Forall (fun r => 1 <= r.1.2 < 2 ^ 63 /\ 0 <= r.2) rows ->
  (forall p i, p ∈ people -> 0 <= assigned_qty a p i) ->
  (forall i r, rows !! i = Some r -> total_assigned a people i = r.1.2) ->
  (1 + cents_sum rows) * (Z.of_nat (length rows + length people) + 5) < 2 ^ 49 ->
  fmt2 (grand_total (cent_item (F:=float) <$> rows) a people) =
  fmt2 (series_sum (total <$> (cent_item (F:=float) <$> rows))).
Proof.
  intros Hrows Hnn Hall Hbound.
  destruct (cents_sum_bounds rows) as [HD0 HDle].
  { eapply Forall_impl; [exact Hrows|]. cbn. tauto. }
  set (D := cents_sum rows) in *.
  set (K := (5 + length rows + length people)%nat).
  assert (HK : (1 + D) * Z.of_nat K < 2 ^ 49) by (unfold K; lia).
  assert (HKs : small K).
  { unfold small. change (2 ^ 49) with 562949953421312 in HK.
    change (2 ^ 50) with 1125899906842624. nia. }
  assert (Hok : Forall row_ok rows).
  { rewrite Forall_forall in Hrows, HDle. apply Forall_forall. intros r Hr.
    destruct (Hrows r Hr) as [Hq Hc]. specialize (HDle r Hr). split; [exact Hq|].
    change (2 ^ 49) with 562949953421312 in HK. change (2 ^ 50) with 1125899906842624. nia. }
  assert (HG : sim K (grand_total (cent_item (F:=float) <$> rows) a people) (D # 100)).
  { eapply sim_eq; [|apply (sim_grand rows a people Hok)].
    - rewrite (exact_reconcile rows people (assigned_qty a)); [apply qsum_cents|].
      intros i r Hi. split; [|apply (Hall i r Hi)].
      rewrite Forall_lookup in Hrows. apply (Hrows i r Hi).
    - intros p i r Hp Hi. split; [apply Hnn; exact Hp|].
      rewrite <- (Hall i r Hi). apply assigned_le_total; [exact Hp|].
      intros p' Hp'. apply Hnn. exact Hp'.
    - exact HKs. }
  assert (HS : sim K (series_sum (total <$> (cent_item (F:=float) <$> rows))) (D # 100)).
  { eapply sim_mono; [|eapply sim_eq; [apply qsum_cents | apply (sim_totals rows Hok)]].
    - unfold K. lia.
    - eapply small_le; [|exact HKs]. unfold K. lia. }
  change (fmt2 (F:=float)) with format2.
  rewrite (format2_sim K _ D HG HD0 HK), (format2_sim K _ D HS HD0 HK). reflexivity.
Qed.

End SimFacts.

(** * The session *)

Module SessionFacts.

(** ** str.strip *)

Lemma lstrip_split l :
  exists p, l = p ++ lstrip l /\ Forall (fun c => is_space c = true) p.
Proof.
  induction l as [|c l (p & Hp & Hall)]; cbn [lstrip].
  - exists []. split; [reflexivity | constructor].
  - destruct (is_space c) eqn:Hc.
    + exists (c :: p). split; [cbn; congruence | constructor; assumption].
    + exists []. split; [reflexivity | constructor].
Qed.

Lemma lstrip_head l c r : lstrip l = c :: r -> is_space c = false.
Proof.
  induction l as [|x l IH]; cbn [lstrip]; [discriminate|].
  destruct (is_space x) eqn:Hx; [exact IH|]. intros [= <- _]. exact Hx.
Qed.

Lemma lstrip_spaces p l :
  Forall (fun c => is_space c = true) p -> lstrip (p ++ l) = lstrip l.
Proof. induction 1 as [|c p Hc _ IH]; cbn [app lstrip]; [reflexivity | rewrite Hc; exact IH]. Qed.

Lemma lstrip_all l : Forall (fun c => is_space c = true) l -> lstrip l = [].
Proof. intros H. rewrite <- (app_nil_r l). rewrite lstrip_spaces by assumption. reflexivity. Qed.

Lemma lstrip_id c l : is_space c = false -> lstrip (c :: l) = c :: l.
Proof. intros H. cbn [lstrip]. rewrite H. reflexivity. Qed.

Lemma lstrip_app_ne c r q : is_space c = false -> lstrip ((c :: r) ++ q) = (c :: r) ++ q.
Proof. intros H. cbn [app]. apply lstrip_id. exact H. Qed.

Lemma strip_trimmed l : trimmed (strip l).
Proof.
  unfold strip. set (a := lstrip l). set (b := lstrip (rev a)).
  destruct (lstrip_split (rev a)) as (p & Hp & Hall). fold b in Hp.
  split.
  - intros c r Hr.
    (* the head of rev b is the last of b, which is the last of rev a, the head of a *)
    destruct a as [|x a'] eqn:Ea.
    { cbn in b. subst b. discriminate Hr. }
    assert (Hx : is_space x = false) by (apply (lstrip_head l x a'); exact Ea).
    destruct (decide (b = [])) as [Hb | Hb].
    { rewrite Hb in Hr. discriminate Hr. }
    assert (Hlast : exists b', b = b' ++ [x]).
    { destruct (exists_last Hb) as (b' & y & Hy). exists b'. rewrite Hy in Hp.
      cbn [rev] in Hp. rewrite app_assoc in Hp. apply app_inj_tail in Hp as [_ ->]. exact Hy. }
    destruct Hlast as (b' & Hb'). rewrite Hb', rev_app_distr in Hr. cbn in Hr.
    injection Hr as -> _. exact Hx.
  - intros r c Hr.
    assert (Hb : b = c :: rev r).
    { rewrite <- (rev_involutive b), Hr, rev_app_distr. reflexivity. }
    apply (lstrip_head (rev a) c (rev r)). exact Hb.
Qed.

Lemma strip_id l : trimmed l -> strip l = l.
Proof.
  intros [H1 H2]. unfold strip. destruct l as [|c r]; [reflexivity|].
  rewrite (lstrip_id c r (H1 c r eq_refl)).
  destruct (exists_last (l := c :: r)) as (r' & y & Hy); [discriminate|].
  rewrite Hy, rev_app_distr. cbn [rev app].
  rewrite (lstrip_id y (rev r') (H2 r' y Hy)). cbn [rev]. rewrite rev_involutive. reflexivity.
Qed.


(** Whitespace around a text does not count. *)
Lemma strip_pad p q l :
  Forall (fun c => is_space c = true) p -> Forall (fun c => is_space c = true) q ->
  strip (p ++ l ++ q) = strip l.
Proof.
  intros Hp Hq. unfold strip. rewrite (lstrip_spaces p) by assumption.
  destruct (lstrip_split l) as (s & Hs & Hsall).
  destruct (lstrip l) as [|c r] eqn:El.
  - rewrite app_nil_r in Hs. subst s.
    rewrite (lstrip_all (l ++ q)) by (apply Forall_app; split; assumption). reflexivity.
  - assert (Hc : is_space c = false) by (apply (lstrip_head l c r); exact El).
    rewrite Hs at 1. rewrite <- app_assoc, (lstrip_spaces s) by assumption.
    rewrite (lstrip_app_ne c r q Hc). rewrite rev_app_distr.
    rewrite (lstrip_spaces (rev q)); [reflexivity|].
    apply Forall_rev. exact Hq.
Qed.

Lemma chars_text l : chars (text l) = l.
Proof. reflexivity. Qed.

Lemma text_chars s : text (chars s) = s.
Proof. reflexivity. Qed.

Lemma text_nil_iff l : text l = ""%string <-> l = [].
Proof.
  split; [|intros ->; reflexivity]. intros H. apply (f_equal chars) in H.
  rewrite chars_text in H. exact H.
Qed.

(** ** add_member *)

Lemma add_member_cases s :
  let name := text (strip (chars (new_member s))) in
  (name <> ""%string /\ (name ∉ members s) /\
   add_member s = {| members := members s ++ [name]; new_member := "" |}) \/
  ((name = ""%string \/ name ∈ members s) /\
   add_member s = {| members := members s; new_member := "" |}).
Proof.
  intros name. unfold add_member. fold name.
  destruct (str_eqb_spec name "") as [E | N]; cbn [negb andb].
  - right. split; [left; exact E | reflexivity].
  - destruct (bool_decide_reflect (name ∈ members s)) as [Hin | Hout]; cbn [negb].
    + right. split; [right; exact Hin | reflexivity].
    + left. split; [exact N|]. split; [exact Hout | reflexivity].
Qed.

Lemma type_name_cases s t :
  let name := text (strip (chars t)) in
  (name <> ""%string /\ (name ∉ members s) /\ members (type_name s t) = members s ++ [name]) \/
  ((name = ""%string \/ name ∈ members s) /\ members (type_name s t) = members s).
Proof.
  intros name. unfold type_name.
  destruct (add_member_cases {| members := members s; new_member := t |}) as [(H1 & H2 & ->) | (H1 & ->)];
    cbn [members new_member] in *; fold name in H1; [left | right]; auto.
Qed.

(** The typed names accumulate: distinct, in the order of their first
    appearance. *)
Lemma members_typed typed : forall s,
  NoDup (members s) ->
  NoDup (members (foldl type_name s typed)) /\
  (exists more, members (foldl type_name s typed) = members s ++ more) /\
  forall m, m ∈ members (foldl type_name s typed) <->
            m ∈ members s \/
            (m <> ""%string /\ exists t, t ∈ typed /\ m = text (strip (chars t))).
Proof.
  induction typed as [|t typed IH]; intros s Hnd; cbn [foldl].
  - split; [exact Hnd|]. split; [exists []; rewrite app_nil_r; reflexivity|].
    intros m. split; [auto|]. intros [H | (_ & t & Ht & _)]; [exact H | inversion Ht].
  - destruct (type_name_cases s t) as [(Hne & Hout & Hm) | (Hin & Hm)].
    + assert (Hnd' : NoDup (members (type_name s t))).
      { rewrite Hm. apply NoDup_app. split; [exact Hnd|]. split; [|apply NoDup_singleton].
        intros x Hx Hx'. apply list_elem_of_singleton in Hx'. subst x. contradiction. }
      destruct (IH _ Hnd') as (H1 & (more & H2) & H3). split; [exact H1|]. split.
      * exists (text (strip (chars t)) :: more). rewrite H2, Hm, <- app_assoc. reflexivity.
      * intros m. rewrite H3, Hm, elem_of_app, list_elem_of_singleton. split.
        -- intros [[H | ->] | (Hm0 & u & Hu & ->)]; [left; exact H | right | right].
           ++ split; [exact Hne|]. exists t. split; [left | reflexivity].
           ++ split; [exact Hm0|]. exists u. split; [right; exact Hu | reflexivity].
        -- intros [H | (Hm0 & u & Hu & ->)]; [left; left; exact H|].
           apply elem_of_cons in Hu as [-> | Hu]; [left; right; reflexivity|].
           right. split; [exact Hm0|]. exists u. split; [exact Hu | reflexivity].
    + assert (Hnd' : NoDup (members (type_name s t))) by (rewrite Hm; exact Hnd).
      destruct (IH _ Hnd') as (H1 & (more & H2) & H3). split; [exact H1|]. split.
      * exists more. rewrite H2, Hm. reflexivity.
      * intros m. rewrite H3, Hm. split.
        -- intros [H | (Hm0 & u & Hu & ->)]; [left; exact H | right].
           split; [exact Hm0|]. exists u. split; [right; exact Hu | reflexivity].
        -- intros [H | (Hm0 & u & Hu & ->)]; [left; exact H|].
           apply elem_of_cons in Hu as [-> | Hu].
           ++ destruct Hin as [Hin | Hin]; [contradiction | left; exact Hin].
           ++ right. split; [exact Hm0|]. exists u. split; [exact Hu | reflexivity].
Qed.

(** Whitespace typed around a name does not make another name. *)
Lemma padded_name p q t :
  Forall (fun c => is_space c = true) p -> Forall (fun c => is_space c = true) q ->
  text (strip (chars (text (p ++ chars t ++ q)))) = text (strip (chars t)).
Proof. intros Hp Hq. rewrite chars_text, strip_pad by assumption. reflexivity. Qed.

Lemma type_name_again s t t' :
  text (strip (chars t')) = text (strip (chars t)) ->
  members (type_name (type_name s t) t') = members (type_name s t).
Proof.
  intros Hsame.
  destruct (type_name_cases (type_name s t) t') as [(Hne & Hout & _) | (_ & Hm)]; [|exact Hm].
  exfalso. apply Hout. rewrite Hsame in *.
  destruct (type_name_cases s t) as [(_ & _ & ->) | ([E | Hin] & ->)].
  - apply elem_of_app. right. apply list_elem_of_singleton. reflexivity.
  - contradiction.
  - exact Hin.
Qed.

End SessionFacts.

(** * The unit cards and their indexes *)

Module CardFacts.

(** ** Decimal numerals *)

Lemma ascii_digit_of k : (k < 10)%N -> is_ascii_digit (48 + k)%N = true.
Proof. intros Hk. apply is_ascii_digit_spec. lia. Qed.

Lemma is_digit_digit k : (k < 10)%N -> is_digit (48 + k)%N = true.
Proof. intros Hk. apply ascii_digit_digit, ascii_digit_of, Hk. Qed.

Lemma digit_value_digit k : (k < 10)%N -> digit_value (48 + k)%N = Z.of_N k.
Proof.
  intros Hk. unfold digit_value. rewrite decimal_ascii by lia. f_equal. lia.
Qed.

Lemma int_of_digits_snoc l c : int_of_digits (l ++ [c]) = 10 * int_of_digits l + digit_value c.
Proof. unfold int_of_digits. rewrite fold_left_app. reflexivity. Qed.

Lemma dec_digits_spec fuel : forall n acc,
  (n < 2 ^ N.of_nat fuel)%N -> (0 < fuel)%nat ->
  exists ds, dec_digits fuel n acc = ds ++ acc /\ ds <> [] /\
             Forall (fun c => is_ascii_digit c = true) ds /\ int_of_digits ds = Z.of_N n.
Proof.
  induction fuel as [|fuel IH]; intros n acc Hn Hf; [lia|].
  cbn [dec_digits].
  assert (Hmod : (n mod 10 < 10)%N) by (apply N.mod_upper_bound; lia).
  destruct (N.ltb_spec n 10) as [Hlt | Hge].
  - exists [(48 + n mod 10)%N]. split; [reflexivity|]. split; [discriminate|].
    split; [constructor; [apply ascii_digit_of; exact Hmod | constructor]|].
    unfold int_of_digits. cbn [fold_left]. rewrite digit_value_digit by exact Hmod.
    rewrite N.mod_small by exact Hlt. lia.
  - assert (Hf' : (0 < fuel)%nat).
    { destruct fuel; [|lia]. change (2 ^ N.of_nat 1)%N with 2%N in Hn. lia. }
    assert (Hn' : (n / 10 < 2 ^ N.of_nat fuel)%N).
    { apply N.Div0.div_lt_upper_bound.
      replace (N.of_nat (S fuel)) with (N.succ (N.of_nat fuel)) in Hn by lia.
      rewrite N.pow_succ_r' in Hn. lia. }
    destruct (IH (n / 10)%N ((48 + n mod 10)%N :: acc) Hn' Hf')
      as (ds & Hds & Hne & Hall & Hval).
    exists (ds ++ [(48 + n mod 10)%N]). split.
    { rewrite Hds, <- app_assoc. reflexivity. }
    split; [intros E; apply app_eq_nil in E as [_ E]; discriminate|].
    split.
    { apply Forall_app. split; [exact Hall|].
      constructor; [apply ascii_digit_of; exact Hmod | constructor]. }
    rewrite int_of_digits_snoc, Hval, digit_value_digit by exact Hmod.
    rewrite (N.div_mod n 10) at 3 by lia. lia.
Qed.

(** [str(n)] is written with the digits 0 to 9. *)
Lemma dec_of_N_ascii n :
  dec_of_N n <> [] /\ Forall (fun c => is_ascii_digit c = true) (dec_of_N n) /\
  int_of_digits (dec_of_N n) = Z.of_N n.
Proof.
  unfold dec_of_N.
  destruct (dec_digits_spec (S (N.to_nat (N.log2 n))) n []) as (ds & Hds & Hne & Hall & Hval).
  - destruct n as [|p]; [reflexivity|].
    replace (N.of_nat (S (N.to_nat (N.log2 (N.pos p))))) with (N.succ (N.log2 (N.pos p))) by lia.
    apply N.log2_spec. lia.
  - lia.
  - rewrite Hds, app_nil_r. auto.
Qed.

(** [int(str(n)) == n] *)
Lemma dec_of_N_spec n :
  dec_of_N n <> [] /\ Forall (fun c => is_digit c = true) (dec_of_N n) /\
  int_of_digits (dec_of_N n) = Z.of_N n.
Proof.
  destruct (dec_of_N_ascii n) as (Hne & Hall & Hval).
  split; [exact Hne|]. split; [|exact Hval].
  eapply Forall_impl; [exact Hall|]. intros c Hc. apply ascii_digit_digit. exact Hc.
Qed.

Lemma dec_of_N_inj n m : dec_of_N n = dec_of_N m -> n = m.
Proof.
  intros E. apply (f_equal int_of_digits) in E.
  rewrite (proj2 (proj2 (dec_of_N_spec n))), (proj2 (proj2 (dec_of_N_spec m))) in E. lia.
Qed.

(** ** Cutting at a separator *)

Lemma before_app sep l r :
  Forall (fun c => char_eqb c sep = false) l -> before sep (l ++ sep :: r) = l.
Proof.
  induction 1 as [|c l Hc _ IH]; cbn [app before].
  - rewrite char_eqb_refl. reflexivity.
  - rewrite Hc, IH. reflexivity.
Qed.

Lemma digit_not sep : is_digit sep = false ->
  forall l, Forall (fun c => is_digit c = true) l -> Forall (fun c => char_eqb c sep = false) l.
Proof.
  intros Hsep l Hl. eapply Forall_impl; [exact Hl|]. intros c Hc. cbn beta in *.
  destruct (char_eqb_spec c sep) as [-> | ]; [congruence | reflexivity].
Qed.

(** ** The index of a unit card *)

Lemma chars_unit_card idx i name :
  chars (unit_card idx i name) =
  dec_of_N (N.of_nat idx) ++ "_"%char :: dec_of_N (N.of_nat i) ++ ":"%char :: " "%char :: chars name.
Proof.
  unfold unit_card. rewrite !chars_append, !SessionFacts.chars_text. reflexivity.
Qed.

(** The index written on a card is read back, whatever the name of the
    item contains. *)
Lemma card_index_unit_card idx i name :
  card_index (unit_card idx i name) = Ok (Z.of_nat idx).
Proof.
  unfold card_index. rewrite chars_unit_card.
  destruct (dec_of_N_spec (N.of_nat idx)) as (Hne & Hall & Hval).
  destruct (dec_of_N_spec (N.of_nat i)) as (_ & Halli & _).
  change (dec_of_N (N.of_nat idx) ++ "_"%char :: dec_of_N (N.of_nat i) ++ ":"%char :: " "%char :: chars name)
    with (dec_of_N (N.of_nat idx) ++ "_"%char :: (dec_of_N (N.of_nat i) ++ ":"%char :: " "%char :: chars name)).
  assert (Hcut : before ":" (dec_of_N (N.of_nat idx) ++
                   "_"%char :: (dec_of_N (N.of_nat i) ++ ":"%char :: " "%char :: chars name)) =
                 dec_of_N (N.of_nat idx) ++ "_"%char :: dec_of_N (N.of_nat i)).
  { replace (dec_of_N (N.of_nat idx) ++
               "_"%char :: (dec_of_N (N.of_nat i) ++ ":"%char :: " "%char :: chars name))
      with ((dec_of_N (N.of_nat idx) ++ "_"%char :: dec_of_N (N.of_nat i)) ++
            ":"%char :: (" "%char :: chars name))
      by (rewrite <- app_assoc; reflexivity).
    apply before_app. apply Forall_app. split; [apply digit_not; [reflexivity | exact Hall]|].
    constructor; [reflexivity|]. apply digit_not; [reflexivity | exact Halli]. }
  rewrite Hcut, before_app by (apply digit_not; [reflexivity | exact Hall]).
  rewrite (int_of_str_digits None) by assumption. rewrite Hval. f_equal. lia.
Qed.

(** Cards written for different rows, ordinals or names differ. *)
Lemma unit_card_inj idx i name idx' i' name' :
  unit_card idx i name = unit_card idx' i' name' -> idx = idx' /\ i = i' /\ name = name'.
Proof.
  intros E. apply (f_equal chars) in E. rewrite !chars_unit_card in E.
  destruct (dec_of_N_spec (N.of_nat idx)) as (_ & H1 & _).
  destruct (dec_of_N_spec (N.of_nat idx')) as (_ & H1' & _).
  destruct (dec_of_N_spec (N.of_nat i)) as (_ & H2 & _).
  destruct (dec_of_N_spec (N.of_nat i')) as (_ & H2' & _).
  pose proof (f_equal (before "_") E) as Ea.
  rewrite !before_app in Ea by (apply digit_not; [reflexivity | assumption]).
  rewrite Ea in E. apply app_inv_head in E. injection E as E.
  pose proof (f_equal (before ":") E) as Eb.
  rewrite !before_app in Eb by (apply digit_not; [reflexivity | assumption]).
  rewrite Eb in E. apply app_inv_head in E. injection E as E.
  apply dec_of_N_inj in Ea, Eb. split; [lia|]. split; [lia|].
  apply chars_inj. exact E.
Qed.

End CardFacts.

(** * The tally of the cards *)

Module TallyFacts.

Implicit Types (a : gmap nat (gmap string Z)) (p q : string) (i j : nat).

(** The count kept for a person and a row, if there is one. *)
Local Abbreviation at2 a q j := (a !! j ≫= fun d : gmap string Z => d !! q).

Lemma fmap_add_zero (o : option Z) : (fun c => c + 0) <$> o = o.
Proof. destruct o as [c|]; [cbn; f_equal; lia | reflexivity]. Qed.

Lemma fmap_add_add (o : option Z) x y :
  (fun c => c + y) <$> ((fun c => c + x) <$> o) = (fun c => c + (x + y)) <$> o.
Proof. destruct o as [c|]; [cbn; f_equal; lia | reflexivity]. Qed.


(** A container headed Unassigned is passed over, whatever its cards. *)
Lemma for_fold_skips_unassigned cs1 cs2 cards a :
  for_fold tally_container (cs1 ++ ("Unassigned"%string, cards) :: cs2) a =
  for_fold tally_container (cs1 ++ cs2) a.
Proof.
  rewrite !for_fold_app. destruct (for_fold tally_container cs1 a) as [a1|e]; [|reflexivity].
  rewrite !bind_Ok. cbn [for_fold]. reflexivity.
Qed.

(** ** The initial counts *)

Lemma init_counts_lookup people p :
  init_counts people !! p = if bool_decide (p ∈ people) then Some 0 else None.
Proof.
  unfold init_counts. destruct (bool_decide_reflect (p ∈ people)) as [Hin | Hout].
  - destruct ((list_to_map ((fun p => (p, 0)) <$> people) : gmap string Z) !! p) as [x|] eqn:E.
    + apply elem_of_list_to_map_2 in E. apply list_elem_of_fmap in E as (y & E & _).
      injection E as _ ->. reflexivity.
    + apply not_elem_of_list_to_map_2 in E. exfalso. apply E.
      rewrite <- list_fmap_compose. apply list_elem_of_fmap. exists p. split; [reflexivity | exact Hin].
  - apply not_elem_of_list_to_map_1. rewrite <- list_fmap_compose.
    intros H. apply list_elem_of_fmap in H as (y & -> & Hy). apply Hout. exact Hy.
Qed.

Lemma init_assignments_lookup people n i :
  init_assignments people n !! i =
  if bool_decide (i < n)%nat then Some (init_counts people) else None.
Proof.
  unfold init_assignments. destruct (bool_decide_reflect (i < n)%nat) as [Hin | Hout].
  - destruct ((list_to_map ((fun i => (i, init_counts people)) <$> seq 0 n)
                 : gmap nat (gmap string Z)) !! i) as [x|] eqn:E.
    + apply elem_of_list_to_map_2 in E. apply list_elem_of_fmap in E as (y & E & _).
      injection E as _ ->. reflexivity.
    + apply not_elem_of_list_to_map_2 in E. exfalso. apply E.
      rewrite <- list_fmap_compose. apply list_elem_of_fmap. exists i.
      split; [reflexivity | apply elem_of_seq; lia].
  - apply not_elem_of_list_to_map_1. rewrite <- list_fmap_compose.
    intros H. apply list_elem_of_fmap in H as (y & -> & Hy). apply elem_of_seq in Hy.
    apply Hout. cbn. lia.
Qed.

Lemma init_at2 people n q j :
  at2 (init_assignments people n) q j =
  if bool_decide (j < n)%nat && bool_decide (q ∈ people) then Some 0 else None.
Proof.
  rewrite init_assignments_lookup. destruct (bool_decide (j < n)%nat); [|reflexivity].
  cbn [mbind option_bind andb]. apply init_counts_lookup.
Qed.

(** ** One card *)

Lemma bump_Ok a z p a' :
  bump a z p = Ok a' ->
  0 <= z /\ is_Some (at2 a p (Z.to_nat z)) /\
  (forall q j, at2 a' q j =
               (fun c => c + (if decide (q = p /\ j = Z.to_nat z) then 1 else 0)) <$> at2 a q j) /\
  (forall j, is_Some (a' !! j) <-> is_Some (a !! j)).
Proof.
  unfold bump. destruct (Z.ltb_spec z 0) as [Hneg | Hpos]; [discriminate|].
  destruct (a !! Z.to_nat z) as [d|] eqn:Hd; [|discriminate].
  destruct (d !! p) as [c|] eqn:Hc; [|discriminate].
  intros [= <-]. split; [exact Hpos|]. split.
  { cbn. rewrite Hc. eauto. }
  split.
  - intros q j. destruct (decide (j = Z.to_nat z)) as [-> | Hj].
    + rewrite lookup_insert_eq, Hd. cbn [mbind option_bind].
      destruct (decide (q = p)) as [-> | Hq].
      * rewrite lookup_insert_eq, Hc. rewrite decide_True by auto. reflexivity.
      * rewrite lookup_insert_ne by congruence. rewrite decide_False by tauto.
        rewrite fmap_add_zero. reflexivity.
    + rewrite lookup_insert_ne by congruence. rewrite decide_False by tauto.
      rewrite fmap_add_zero. reflexivity.
  - intros j. destruct (decide (j = Z.to_nat z)) as [-> | Hj].
    + rewrite lookup_insert_eq, Hd. split; eauto.
    + rewrite lookup_insert_ne by congruence. reflexivity.
Qed.

Lemma bump_is_Ok a z p :
  0 <= z -> is_Some (at2 a p (Z.to_nat z)) -> exists a', bump a z p = Ok a'.
Proof.
  intros Hz [c Hc]. unfold bump. destruct (Z.ltb_spec z 0) as [Hneg | _]; [lia|].
  destruct (a !! Z.to_nat z) as [d|]; [|discriminate]. cbn in Hc. rewrite Hc. eauto.
Qed.

(** ** Counting *)

Lemma count_cards_cons i card cards :
  count_cards i (card :: cards) = (if is_index i card then 1 else 0) + count_cards i cards.
Proof.
  unfold count_cards. cbn [List.filter]. destruct (is_index i card); cbn [length]; lia.
Qed.

Lemma count_cards_app i l1 l2 :
  count_cards i (l1 ++ l2) = count_cards i l1 + count_cards i l2.
Proof.
  unfold count_cards. rewrite List.filter_app, length_app. lia.
Qed.

Lemma count_cards_nonneg i cards : 0 <= count_cards i cards.
Proof. unfold count_cards. lia. Qed.

Lemma count_cards_perm i l1 l2 : l1 ≡ₚ l2 -> count_cards i l1 = count_cards i l2.
Proof.
  induction 1 as [|x l1 l2 _ IH|x y l|l1 l2 l3 _ IH1 _ IH2].
  - reflexivity.
  - rewrite !count_cards_cons, IH. reflexivity.
  - rewrite !count_cards_cons. lia.
  - congruence.
Qed.

Lemma held_cons c containers q j :
  held (c :: containers) q j =
  (if str_eqb c.1 "Unassigned" then 0
   else if str_eqb c.1 q then count_cards j c.2 else 0) + held containers q j.
Proof.
  unfold held. rewrite fmap_cons. cbn [foldr].
  destruct (str_eqb_spec q "Unassigned") as [-> | Hq].
  - destruct (str_eqb c.1 "Unassigned"); reflexivity.
  - destruct (str_eqb_spec c.1 "Unassigned") as [E | _]; [|reflexivity].
    destruct (str_eqb_spec c.1 q) as [E' | _]; [congruence | reflexivity].
Qed.

Lemma held_nonneg containers q j : 0 <= held containers q j.
Proof.
  induction containers as [|c containers IH]; [unfold held; destruct (str_eqb _ _); cbn; lia|].
  rewrite held_cons. pose proof (count_cards_nonneg j c.2).
  destruct (str_eqb c.1 "Unassigned"); [lia|]. destruct (str_eqb c.1 q); lia.
Qed.

(** ** The cards of one container *)

Lemma cards_loop p cards : forall a a',
  for_fold (fun a card => idx ← card_index card; bump a idx p) cards a = Ok a' ->
  Forall (fun card => exists z, card_index card = Ok z /\ 0 <= z /\
                                is_Some (at2 a p (Z.to_nat z))) cards /\
  (forall q j, at2 a' q j =
               (fun c => c + (if decide (q = p) then count_cards j cards else 0)) <$> at2 a q j) /\
  (forall j, is_Some (a' !! j) <-> is_Some (a !! j)).
Proof.
  induction cards as [|card cards IH]; intros a a'; cbn [for_fold].
  - intros [= <-]. split; [constructor|]. split; [|reflexivity].
    intros q j. destruct (decide (q = p)); rewrite fmap_add_zero; reflexivity.
  - destruct (card_index card) as [z|e] eqn:Hz; [|discriminate]. rewrite bind_Ok.
    destruct (bump a z p) as [a1|e] eqn:Hb; [|discriminate]. rewrite bind_Ok.
    intros Hrest. destruct (bump_Ok a z p a1 Hb) as (Hz0 & Hsome & Hat & Hdom).
    destruct (IH a1 a' Hrest) as (Hall & Hat' & Hdom').
    split; [|split].
    + constructor; [exists z; auto|].
      eapply Forall_impl; [exact Hall|]. cbn beta.
      intros card' (z' & Hz' & Hz'0 & Hs'). exists z'. split; [exact Hz'|]. split; [exact Hz'0|].
      rewrite Hat in Hs'. apply fmap_is_Some in Hs'. exact Hs'.
    + intros q j. rewrite Hat', Hat, fmap_add_add. f_equal.
      rewrite count_cards_cons. unfold is_index. rewrite Hz.
      destruct (decide (q = p)) as [-> | Hq].
      * destruct (Z.eqb_spec z (Z.of_nat j)) as [E | E].
        -- rewrite decide_True by (split; [reflexivity | lia]). reflexivity.
        -- rewrite decide_False by (intros [_ ->]; lia). reflexivity.
      * rewrite decide_False by tauto. reflexivity.
    + intros j. rewrite Hdom', Hdom. reflexivity.
Qed.

Lemma cards_loop_Ok p cards : forall a,
  Forall (fun card => exists z, card_index card = Ok z /\ 0 <= z /\
                                is_Some (at2 a p (Z.to_nat z))) cards ->
  exists a', for_fold (fun a card => idx ← card_index card; bump a idx p) cards a = Ok a'.
Proof.
  induction cards as [|card cards IH]; intros a Hall; cbn [for_fold]; [eauto|].
  inversion Hall as [|? ? (z & Hz & Hz0 & Hs) Hrest]; subst.
  rewrite Hz, bind_Ok. destruct (bump_is_Ok a z p Hz0 Hs) as (a1 & Hb). rewrite Hb, bind_Ok.
  apply IH. eapply Forall_impl; [exact Hrest|]. cbn beta.
  intros card' (z' & Hz' & Hz'0 & Hs'). exists z'. split; [exact Hz'|]. split; [exact Hz'0|].
  destruct (bump_Ok a z p a1 Hb) as (_ & _ & Hat & _). rewrite Hat. apply fmap_is_Some. exact Hs'.
Qed.

(** ** All containers *)

Section Loop.
Variables (people : list string) (n : nat).


Lemma container_step c a a' :
  covers people n a -> tally_container a c = Ok a' ->
  valid_container people n c /\
  (forall q j, at2 a' q j =
     (fun x => x + (if str_eqb c.1 "Unassigned" then 0
                    else if str_eqb c.1 q then count_cards j c.2 else 0)) <$> at2 a q j) /\
  (forall j, is_Some (a' !! j) <-> is_Some (a !! j)).
Proof.
  intros Hcov. unfold tally_container, valid_container.
  destruct (str_eqb_spec c.1 "Unassigned") as [E | NE].
  - intros [= <-]. split; [left; exact E|]. split; [|reflexivity].
    intros q j. rewrite fmap_add_zero. reflexivity.
  - intros Hloop. destruct (cards_loop c.1 c.2 a a' Hloop) as (Hall & Hat & Hdom).
    split; [right; split|split].
    + eapply Forall_impl; [exact Hall|]. cbn beta. intros card (z & Hz & Hz0 & Hs).
      exists z. split; [exact Hz|]. apply Hcov in Hs as [Hlt _]. lia.
    + destruct c.2 as [|card cards]; [left; reflexivity | right].
      inversion Hall as [|? ? (z & _ & _ & Hs) _]; subst. apply Hcov in Hs as [_ Hin]. exact Hin.
    + intros q j. rewrite Hat. f_equal.
      destruct (str_eqb_spec c.1 q) as [<- | Hq].
      * rewrite decide_True by reflexivity. reflexivity.
      * rewrite decide_False by congruence. reflexivity.
    + exact Hdom.
Qed.

Lemma container_step_Ok c a :
  covers people n a -> valid_container people n c -> exists a', tally_container a c = Ok a'.
Proof.
  intros Hcov Hv. unfold tally_container.
  destruct (str_eqb_spec c.1 "Unassigned") as [E | NE]; [eauto|].
  destruct Hv as [E | [Hall Hin]]; [contradiction|].
  apply cards_loop_Ok. destruct Hin as [-> | Hin]; [constructor|].
  eapply Forall_impl; [exact Hall|]. cbn beta. intros card (z & Hz & Hz0 & Hzn).
  exists z. split; [exact Hz|]. split; [exact Hz0|]. apply Hcov. split; [lia | exact Hin].
Qed.

Lemma covers_step a a' (f : string -> nat -> Z) :
  covers people n a -> (forall q j, at2 a' q j = (fun x => x + f q j) <$> at2 a q j) -> covers people n a'.
Proof.
  intros Hcov Hat q j. rewrite Hat, fmap_is_Some. apply Hcov.
Qed.

Lemma tally_loop containers : forall a a',
  covers people n a -> for_fold tally_container containers a = Ok a' ->
  Forall (valid_container people n) containers /\
  (forall q j, at2 a' q j = (fun x => x + held containers q j) <$> at2 a q j) /\
  (forall j, is_Some (a' !! j) <-> is_Some (a !! j)).
Proof.
  induction containers as [|c containers IH]; intros a a' Hcov; cbn [for_fold].
  - intros [= <-]. split; [constructor|]. split; [|reflexivity].
    intros q j. assert (E : held [] q j = 0) by (unfold held; destruct (str_eqb _ _); reflexivity).
    rewrite E, fmap_add_zero. reflexivity.
  - destruct (tally_container a c) as [a1|e] eqn:Hc; [|discriminate]. rewrite bind_Ok.
    intros Hrest. destruct (container_step c a a1 Hcov Hc) as (Hv & Hat & Hdom).
    destruct (IH a1 a' (covers_step a a1 _ Hcov Hat) Hrest) as (Hall & Hat' & Hdom').
    split; [constructor; assumption|]. split.
    + intros q j. rewrite Hat', Hat, fmap_add_add, held_cons. reflexivity.
    + intros j. rewrite Hdom', Hdom. reflexivity.
Qed.

Lemma tally_loop_Ok containers : forall a,
  covers people n a -> Forall (valid_container people n) containers ->
  exists a', for_fold tally_container containers a = Ok a'.
Proof.
  induction containers as [|c containers IH]; intros a Hcov Hall; cbn [for_fold]; [eauto|].
  inversion Hall as [|? ? Hv Hrest]; subst.
  destruct (container_step_Ok c a Hcov Hv) as (a1 & Hc). rewrite Hc, bind_Ok.
  destruct (container_step c a a1 Hcov Hc) as (_ & Hat & _).
  apply IH; [|exact Hrest]. exact (covers_step a a1 _ Hcov Hat).
Qed.

Lemma covers_init : covers people n (init_assignments people n).
Proof.
  intros q j. rewrite init_at2.
  destruct (bool_decide_reflect (j < n)%nat) as [H1 | H1];
    destruct (bool_decide_reflect (q ∈ people)) as [H2 | H2]; cbn [andb];
    split; try (intros [x Hx]; discriminate); try tauto; eauto.
Qed.

(** Nothing is held where no count is kept. *)
Lemma held_outside containers q j :
  Forall (valid_container people n) containers ->
  ~ ((j < n)%nat /\ q ∈ people) -> held containers q j = 0.
Proof.
  intros Hall Hout. induction Hall as [|c containers Hv _ IH].
  - unfold held. destruct (str_eqb _ _); reflexivity.
  - rewrite held_cons, IH.
    destruct (str_eqb_spec c.1 "Unassigned") as [E | NE]; [reflexivity|].
    destruct (str_eqb_spec c.1 q) as [<- | Hq]; [|reflexivity].
    destruct Hv as [E | [Hcards Hin]]; [contradiction|].
    assert (Hz : count_cards j c.2 = 0); [|lia].
    destruct Hin as [-> | Hin]; [reflexivity|].
    assert (Hj : ~ (j < n)%nat) by tauto.
    clear -Hcards Hj. induction Hcards as [|card cards (z & Hz & Hzn) _ IH]; [reflexivity|].
    rewrite count_cards_cons, IH. unfold is_index. rewrite Hz.
    destruct (Z.eqb_spec z (Z.of_nat j)); [lia | reflexivity].
Qed.

(** What the tally returns. *)
Lemma tally_spec containers a :
  tally people n containers = Ok a ->
  Forall (valid_container people n) containers /\
  (forall p i, assigned_qty a p i = held containers p i) /\
  (forall i, is_Some (a !! i) <-> (i < n)%nat).
Proof.
  unfold tally. intros Ht.
  destruct (tally_loop containers _ a covers_init Ht) as (Hall & Hat & Hdom).
  split; [exact Hall|]. split.
  - intros p i. unfold assigned_qty. rewrite Hat, init_at2.
    destruct (bool_decide_reflect (i < n)%nat) as [H1 | H1];
      destruct (bool_decide_reflect (p ∈ people)) as [H2 | H2]; cbn [andb fmap option_fmap option_map default];
      try (symmetry; apply held_outside; [exact Hall | tauto]).
    unfold id. lia.
  - intros i. rewrite Hdom, init_assignments_lookup.
    destruct (bool_decide_reflect (i < n)%nat) as [H1 | H1]; split; eauto; try tauto.
    intros [x Hx]; discriminate.
Qed.


Lemma tally_is_Ok containers :
  Forall (valid_container people n) containers -> exists a, tally people n containers = Ok a.
Proof. intros Hall. apply tally_loop_Ok; [apply covers_init | exact Hall]. Qed.

End Loop.

End TallyFacts.

(** * From the cards to the summary *)

Module FlowFacts.
Import CardFacts TallyFacts.

(** ** Sums over the people *)

Lemma sum_people_add (f g : string -> Z) people :
  foldr Z.add 0 ((fun p => f p + g p) <$> people) =
  foldr Z.add 0 (f <$> people) + foldr Z.add 0 (g <$> people).
Proof. induction people as [|p people IH]; cbn; [reflexivity | rewrite IH; lia]. Qed.

Lemma sum_people_zero people : foldr Z.add 0 ((fun _ : string => 0) <$> people) = 0.
Proof. induction people as [|p people IH]; cbn; [reflexivity | rewrite IH; lia]. Qed.

Lemma sum_people_ext (f g : string -> Z) people :
  (forall p, p ∈ people -> f p = g p) ->
  foldr Z.add 0 (f <$> people) = foldr Z.add 0 (g <$> people).
Proof.
  induction people as [|p people IH]; intros H; cbn; [reflexivity|].
  rewrite (H p), IH; [reflexivity | | left]. intros q Hq. apply H. right. exact Hq.
Qed.

Lemma sum_people_pick people x (v : Z) :
  NoDup people ->
  foldr Z.add 0 ((fun p => if str_eqb x p then v else 0) <$> people) =
  if bool_decide (x ∈ people) then v else 0.
Proof.
  induction 1 as [|p people Hp _ IH]; cbn [fmap list_fmap foldr]; [reflexivity|].
  change (list_fmap _ _ ?f people) with (f <$> people). rewrite IH.
  destruct (str_eqb_spec x p) as [-> | Hx].
  - rewrite (bool_decide_eq_false_2 _ Hp), bool_decide_eq_true_2 by (left). lia.
  - destruct (bool_decide_reflect (x ∈ people)) as [Hin | Hout].
    + rewrite bool_decide_eq_true_2 by (right; exact Hin). lia.
    + rewrite bool_decide_eq_false_2; [lia|].
      intros Hin. apply elem_of_cons in Hin as [E | Hin]; [congruence | contradiction].
Qed.

(** ** Conservation: a card is counted once *)

Lemma total_held people n containers i :
  NoDup people -> ("Unassigned"%string ∉ people) ->
  Forall (valid_container people n) containers ->
  foldr Z.add 0 ((fun p => held containers p i) <$> people) +
  count_cards i (unassigned_cards containers) = count_cards i (all_cards containers).
Proof.
  intros Hnd Hun Hall. induction Hall as [|c containers Hv _ IH].
  - rewrite (sum_people_ext _ (fun _ => 0)); [rewrite sum_people_zero; reflexivity|].
    intros p _. unfold held. destruct (str_eqb _ _); reflexivity.
  - rewrite (sum_people_ext _ (fun p =>
       (if str_eqb c.1 "Unassigned" then 0
        else if str_eqb c.1 p then count_cards i c.2 else 0) + held containers p i))
      by (intros p _; apply held_cons).
    rewrite sum_people_add.
    unfold unassigned_cards, all_cards in *. rewrite !fmap_cons. cbn [concat].
    rewrite !count_cards_app.
    destruct (str_eqb_spec c.1 "Unassigned") as [E | NE].
    + rewrite sum_people_zero. lia.
    + rewrite (sum_people_pick people c.1 _ Hnd). cbn [app].
      change (count_cards i []) with 0.
      destruct (bool_decide_reflect (c.1 ∈ people)) as [Hin | Hout]; [lia|].
      destruct Hv as [E | [_ [-> | Hin]]]; [contradiction | | contradiction].
      change (count_cards i []) with 0. lia.
Qed.

(** ** The cards of an item table *)

Section Cards.
Context {F : Type} `{Number F}.
Implicit Types (items : list (LineItem F)).

Lemma is_index_unit_card i k o name : is_index i (unit_card k o name) = bool_decide (i = k).
Proof.
  unfold is_index. rewrite card_index_unit_card.
  destruct (Z.eqb_spec (Z.of_nat k) (Z.of_nat i)) as [E | E].
  - rewrite bool_decide_eq_true_2 by lia. reflexivity.
  - rewrite bool_decide_eq_false_2 by lia. reflexivity.
Qed.

Lemma count_cards_of i k (it : LineItem F) :
  count_cards i (cards_of k it) = if bool_decide (i = k) then Z.max 0 (qty it) else 0.
Proof.
  unfold cards_of.
  assert (Hgen : forall l : list nat,
            count_cards i ((fun o => unit_card k o (item it)) <$> l) =
            if bool_decide (i = k) then Z.of_nat (length l) else 0).
  { induction l as [|o l IH]; [destruct (bool_decide _); reflexivity|].
    rewrite fmap_cons, count_cards_cons, IH, is_index_unit_card.
    destruct (bool_decide (i = k)); cbn [length]; lia. }
  rewrite Hgen, length_seq. destruct (bool_decide (i = k)); lia.
Qed.

Lemma count_unit_cards_from items i : forall o,
  count_cards i (concat (imap (fun k => cards_of (o + k)) items)) =
  if bool_decide (o <= i)%nat
  then match items !! (i - o)%nat with Some it => Z.max 0 (qty it) | None => 0 end
  else 0.
Proof.
  induction items as [|it items IH]; intros o.
  - cbn. destruct (bool_decide _); reflexivity.
  - rewrite imap_cons. cbn [concat]. rewrite count_cards_app, count_cards_of.
    rewrite (imap_ext _ (fun k => cards_of (S o + k))) by (intros; cbn; f_equal; lia).
    rewrite IH. replace (o + 0)%nat with o by lia.
    destruct (bool_decide_reflect (i = o)) as [-> | Hne].
    + rewrite (bool_decide_eq_false_2 (S o <= o)%nat) by lia.
      rewrite bool_decide_eq_true_2 by lia. rewrite Nat.sub_diag. cbn. lia.
    + destruct (bool_decide_reflect (S o <= i)%nat) as [Hle | Hgt].
      * rewrite bool_decide_eq_true_2 by lia.
        replace (i - o)%nat with (S (i - S o)) by lia. reflexivity.
      * rewrite bool_decide_eq_false_2 by lia. reflexivity.
Qed.

(** Item [i] has as many cards as its quantity. *)
Lemma count_unit_cards items i :
  count_cards i (concat (imap cards_of items)) =
  match items !! i with Some it => Z.max 0 (qty it) | None => 0 end.
Proof.
  pose proof (count_unit_cards_from items i 0) as H0.
  rewrite bool_decide_eq_true_2, Nat.sub_0_r in H0 by lia. exact H0.
Qed.

Lemma unit_cards_index items card :
  card ∈ concat (imap cards_of items) ->
  exists k, (k < length items)%nat /\ card_index card = Ok (Z.of_nat k).
Proof.
  intros Hin. apply list_elem_of_In, in_concat in Hin as (l & Hl & Hcard).
  apply list_elem_of_In, elem_of_lookup_imap in Hl as (k & it & -> & Hk).
  apply list_elem_of_In in Hcard. unfold cards_of in Hcard.
  apply list_elem_of_fmap in Hcard as (o & -> & _).
  exists k. split; [eapply lookup_lt_Some; exact Hk | apply card_index_unit_card].
Qed.

(** The unit cards are distinct. *)
Lemma unit_cards_NoDup_from items : forall o,
  NoDup (concat (imap (fun k => cards_of (o + k)) items)).
Proof.
  induction items as [|it items IH]; intros o; [constructor|].
  rewrite imap_cons. cbn [concat].
  rewrite (imap_ext _ (fun k => cards_of (S o + k))) by (intros; cbn; f_equal; lia).
  apply NoDup_app. split; [|split; [|apply IH]].
  - unfold cards_of. apply NoDup_fmap_2; [|apply NoDup_seq].
    intros x y E. apply unit_card_inj in E. tauto.
  - intros card Hc Hc'. unfold cards_of in Hc. apply list_elem_of_fmap in Hc as (x & -> & _).
    apply list_elem_of_In, in_concat in Hc' as (l & Hl & Hcard).
    apply list_elem_of_In, elem_of_lookup_imap in Hl as (k & it' & -> & Hk).
    apply list_elem_of_In in Hcard. unfold cards_of in Hcard.
    apply list_elem_of_fmap in Hcard as (y & E & _).
    apply unit_card_inj in E. lia.
Qed.

(** ** The tally of a rearrangement of the unit cards *)

Lemma rearranged_valid items people containers :
  headers_ok people containers ->
  all_cards containers ≡ₚ concat (imap cards_of items) ->
  Forall (valid_container people (length items)) containers.
Proof.
  intros Hh Hperm.
  assert (Hcards : forall card, card ∈ all_cards containers ->
            exists z, card_index card = Ok z /\ 0 <= z < Z.of_nat (length items)).
  { intros card Hin. rewrite Hperm in Hin.
    destruct (unit_cards_index items card Hin) as (k & Hk & Hidx).
    exists (Z.of_nat k). split; [exact Hidx | lia]. }
  clear Hperm. induction Hh as [|c containers Hc _ IH]; [constructor|].
  unfold all_cards in Hcards. rewrite fmap_cons in Hcards. cbn [concat] in Hcards.
  constructor.
  - destruct Hc as [Hin | E]; [right | left; exact E].
    split; [|right; exact Hin]. apply Forall_forall. intros card Hcard.
    apply Hcards, elem_of_app. left. exact Hcard.
  - apply IH. intros card Hcard. apply Hcards, elem_of_app. right. exact Hcard.
Qed.

Lemma tally_rearranged items people containers :
  NoDup people -> ("Unassigned"%string ∉ people) -> headers_ok people containers ->
  all_cards containers ≡ₚ concat (imap cards_of items) ->
  exists a,
    tally people (length items) containers = Ok a /\
    (forall i, is_Some (a !! i) <-> (i < length items)%nat) /\
    (forall p i, 0 <= assigned_qty a p i) /\
    forall i it, items !! i = Some it ->
      total_assigned a people i + count_cards i (unassigned_cards containers) =
      Z.max 0 (qty it).
Proof.
  intros Hnd Hun Hh Hperm.
  pose proof (rearranged_valid items people containers Hh Hperm) as Hvalid.
  destruct (tally_is_Ok people (length items) containers Hvalid) as (a & Ha).
  destruct (tally_spec people (length items) containers a Ha) as (_ & Hheld & Hdom).
  exists a. split; [exact Ha|]. split; [exact Hdom|]. split.
  - intros p i. rewrite Hheld. apply held_nonneg.
  - intros i it Hit. unfold total_assigned.
    rewrite (sum_people_ext _ (fun p => held containers p i)) by (intros p _; apply Hheld).
    rewrite (total_held people (length items) containers i Hnd Hun Hvalid).
    rewrite (count_cards_perm i _ _ Hperm), count_unit_cards, Hit. reflexivity.
Qed.

(** ** Compute Summary *)

Lemma compute_summary_fresh items people containers d a :
  items <> [] -> fresh_names people ->
  tally people (length items) containers = Ok a ->
  compute_summary (frame_of_items items) people containers d =
  Ok (summary_text items a people d).
Proof.
  intros Hne Hfresh Ht. unfold compute_summary. rewrite nrows_frame, Ht, bind_Ok.
  apply build_summary_fresh; [exact Hne | exact Hfresh|].
  intros i Hi. apply (tally_spec people (length items) containers a Ht). exact Hi.
Qed.

End Cards.

End FlowFacts.

(** * The text read, the rows parsed and the summaries printed *)

Module TextFacts.

(** ** The text of the pages *)

Lemma page_text_from pages : forall acc,
  fold_left (fun acc page =>
               match page with
               | Some (c :: t) => acc +:+ (c :: t) +:+ nl
               | _ => acc
               end) pages acc = acc +:+ page_text pages.
Proof.
  unfold page_text. induction pages as [|page pages IH]; intros acc; cbn [fold_left].
  - rewrite append_nil_r. reflexivity.
  - rewrite IH. rewrite (IH (match page with Some (c :: t) => _ | _ => _ end)).
    destruct page as [[|c t]|]; try reflexivity.
    change ("" +:+ (c :: t) +:+ nl) with ((c :: t) +:+ nl).
    rewrite <- !app_assoc. reflexivity.
Qed.

Lemma page_text_app ps qs : page_text (ps ++ qs) = page_text ps +:+ page_text qs.
Proof. unfold page_text at 1. rewrite fold_left_app. fold (page_text ps). apply page_text_from. Qed.

(** ** The rows of the parser *)

Lemma lstrip_Forall (P : char -> Prop) l : Forall P l -> Forall P (lstrip l).
Proof.
  induction 1 as [|c l Hc Hl IH]; cbn [lstrip]; [constructor|].
  destruct (is_space c); [exact IH | constructor; assumption].
Qed.

Lemma strip_Forall (P : char -> Prop) l : Forall P l -> Forall P (strip l).
Proof.
  intros H. unfold strip. apply Forall_rev, lstrip_Forall, Forall_rev, lstrip_Forall. exact H.
Qed.

Lemma row_of_facts m :
  item_shape m ->
  0 <= (row_of m).1.2 /\ 0 <= (row_of m).2 /\ trimmed (chars (row_of m).1.1) /\
  Forall (fun c => c <> "010"%char) (chars (row_of m).1.1).
Proof.
  intros (_ & Hname & _ & _ & [_ Hq] & _ & _ & [_ Hi] & Hf & _).
  unfold row_of. cbn [fst snd]. rewrite SessionFacts.chars_text.
  split; [apply SimFacts.int_of_digits_nonneg; exact Hq|].
  split; [apply SimFacts.int_of_digits_nonneg, Forall_app; split; assumption|].
  split; [apply SessionFacts.strip_trimmed | apply strip_Forall; exact Hname].
Qed.

Section Rows.
Context {F : Type} `{Number F}.

(** ** Extra items *)

Lemma cards_app (items extra : list (LineItem F)) :
  concat (imap cards_of (items ++ extra)) =
  concat (imap cards_of items) ++ concat (imap (fun k => cards_of (length items + k)) extra).
Proof. rewrite imap_app, concat_app. reflexivity. Qed.

End Rows.

End TextFacts.

(** * Binary64: what is printed *)

Module PrintFacts.
Import B64 Round RoundFacts SimFacts CardFacts TallyFacts FlowFacts.

(** ** A quantity of 0 *)

Lemma of_frac_finite p :
  Zpos p <= 2 ^ 1000 ->
  exists m e, of_frac (Zpos p) 100 = S754_finite false m e.
Proof.
  intros Hp. cbn [of_frac].
  destruct (SFdiv_finite_spec p 0 100 0) as (m & e & Hm & _); [|eauto].
  assert (E : (inject_Z (Z.pos p) * pow2 0 / (inject_Z (Z.pos 100) * pow2 0) == Z.pos p # 100)%Q).
  { change (pow2 0) with 1%Q. rewrite !Qmult_1_r. unfold Qdiv. rewrite Qmult_comm.
    change (/ inject_Z (Z.pos 100))%Q with (1 # 100)%Q. unfold Qeq, Qmult. cbn. lia. }
  unfold inrange. rewrite E.
  pose proof (pow2_le (-1000) (-7) ltac:(lia)) as H1. rewrite pow2_m7 in H1.
  pose proof (pow2_Z 1000 ltac:(lia)) as H2.
  assert (H3 : (inject_Z (Zpos p) <= pow2 1000)%Q) by (rewrite H2, <- Zle_Qle; exact Hp).
  assert (H4 : (1 <= inject_Z (Zpos p))%Q) by (change 1%Q with (inject_Z 1); rewrite <- Zle_Qle; lia).
  assert (E2 : (Z.pos p # 100 == inject_Z (Zpos p) * (1 # 100))%Q).
  { unfold Qeq, Qmult. cbn. lia. }
  rewrite E2. split; lra.
Qed.

Lemma zero_qty_price name c :
  0 <= c <= 2 ^ 1000 ->
  unit_price (cent_item (F:=float) (name, 0, c)) =
  if c =? 0 then S754_nan else S754_infinity false.
Proof.
  intros Hc. cbn [cent_item unit_price fst snd of_ratio number div of_int].
  destruct c as [|p|p]; [reflexivity | | lia].
  destruct (of_frac_finite p) as (m & e & ->); [lia|]. reflexivity.
Qed.

(** ** Nothing assigned *)

Lemma mul_zero_cases (x : float) :
  SFmul prec emax (S754_zero false) x = S754_nan \/
  exists s, SFmul prec emax (S754_zero false) x = S754_zero s.
Proof. destruct x as [s|s| |s m e]; cbn; eauto. Qed.

Lemma series_sum_zeros (xs : list float) :
  Forall (fun v => v = S754_nan \/ exists s, v = S754_zero s) xs ->
  series_sum xs = S754_zero false.
Proof.
  intros Hall. unfold series_sum.
  assert (Hz : Forall (fun v : float => exists s, v = S754_zero s) (nan_to_zero <$> xs)).
  { apply Forall_fmap. eapply Forall_impl; [exact Hall|]. cbn.
    intros v [-> | (s & ->)]; [exists false; reflexivity | exists s; reflexivity]. }
  unfold np_sum.
  assert (H0 : exists s, of_int (F:=float) 0 = S754_zero s) by (exists false; reflexivity).
  assert (Hadd : forall x y : float, (exists s, x = S754_zero s) -> (exists s, y = S754_zero s) ->
                   exists s, add x y = S754_zero s).
  { intros x y [sx ->] [sy ->]. destruct sx, sy; eexists; reflexivity. }
  destruct (pairwise_sum_closed (fun v : float => exists s, v = S754_zero s) H0 Hadd
              (length (nan_to_zero <$> xs)) (nan_to_zero <$> xs) Hz) as [s Hs].
  rewrite Hs. destruct s; reflexivity.
Qed.

Lemma grand_zeros (xs : list float) :
  Forall (fun v => v = S754_zero false) xs -> fold_left add xs (of_int 0) = S754_zero false.
Proof.
  change (of_int 0) with (S754_zero false).
  induction 1 as [|v xs -> _ IH]; cbn [fold_left]; [reflexivity | exact IH].
Qed.

Lemma person_sum_none (items : list (LineItem float)) a p :
  (forall i, assigned_qty a p i = 0) -> person_sum items a p = S754_zero false.
Proof.
  intros H0. unfold person_sum, costs. apply series_sum_zeros.
  apply Forall_lookup. intros i v Hv. rewrite list_lookup_imap in Hv.
  destruct (items !! i) as [it|]; [|discriminate]. injection Hv as <-.
  rewrite H0. apply mul_zero_cases.
Qed.

Lemma item_lines_none (items : list (LineItem float)) a p :
  (forall i, assigned_qty a p i = 0) -> item_lines items a p = [].
Proof.
  intros H0. unfold item_lines.
  induction (seq 0 (length items)) as [|i l IH]; [reflexivity|].
  cbn [omap list_omap]. rewrite H0. destruct (items !! i); cbn; exact IH.
Qed.

Lemma summary_nothing (items : list (LineItem float)) a people d :
  (forall p i, assigned_qty a p i = 0) ->
  summary_text items a people d =
  (d +:+ ":" +:+ nl +:+ nl) +:+
  concat_str ((fun p => p +:+ ": $0.00" +:+ nl +:+ nl) <$> people) +:+
  "Grand Total = $0.00" +:+ nl.
Proof.
  intros H0. unfold summary_text, grand_total.
  rewrite grand_zeros.
  2:{ apply Forall_fmap, Forall_forall. intros p _. cbn. apply person_sum_none, H0. }
  f_equal. f_equal.
  - f_equal. apply list_fmap_ext. intros _ p _. unfold section_text.
    rewrite person_sum_none, item_lines_none by apply H0. reflexivity.
Qed.

Lemma tally_start people n cards :
  tally people n (start_containers people cards) = Ok (init_assignments people n).
Proof.
  unfold tally, start_containers. rewrite for_fold_app.
  assert (Hp : forall a, for_fold tally_container ((fun p => (p, [])) <$> people) a = Ok a).
  { intros a. induction people as [|p people IH]; [reflexivity|].
    rewrite fmap_cons. cbn [for_fold].
    assert (E : tally_container a (p, []) = Ok a).
    { unfold tally_container. cbn [fst snd]. destruct (str_eqb p "Unassigned"); reflexivity. }
    rewrite E, bind_Ok. exact IH. }
  rewrite Hp, bind_Ok. reflexivity.
Qed.

Lemma init_assigned people n p i : assigned_qty (init_assignments people n) p i = 0.
Proof.
  unfold assigned_qty. rewrite init_at2. destruct (_ && _); reflexivity.
Qed.

(** ** Everything assigned *)

Lemma grand_total_money (rows : list (string * Z * Z)) a people :
  Forall (fun r => 1 <= r.1.2 < 2 ^ 63 /\ 0 <= r.2) rows ->
  (forall p i, p ∈ people -> 0 <= assigned_qty a p i) ->
  (forall i r, rows !! i = Some r -> total_assigned a people i = r.1.2) ->
  (1 + cents_sum rows) * (Z.of_nat (length rows + length people) + 5) < 2 ^ 49 ->
  fmt2 (grand_total (cent_item (F:=float) <$> rows) a people) = money (cents_sum rows).
Proof.
  intros Hrows Hnn Hall Hbound.
  destruct (cents_sum_bounds rows) as [HD0 HDle].
  { eapply Forall_impl; [exact Hrows|]. cbn. tauto. }
  set (D := cents_sum rows) in *.
  set (K := (5 + length rows + length people)%nat).
  assert (HK : (1 + D) * Z.of_nat K < 2 ^ 49) by (unfold K; lia).
  assert (HKs : small K).
  { unfold small. change (2 ^ 49) with 562949953421312 in HK.
    change (2 ^ 50) with 1125899906842624. nia. }
  assert (Hok : Forall row_ok rows).
  { rewrite Forall_forall in Hrows, HDle. apply Forall_forall. intros r Hr.
    destruct (Hrows r Hr) as [Hq Hc]. specialize (HDle r Hr). split; [exact Hq|].
    change (2 ^ 49) with 562949953421312 in HK. change (2 ^ 50) with 1125899906842624. nia. }
  assert (HG : sim K (grand_total (cent_item (F:=float) <$> rows) a people) (D # 100)).
  { eapply sim_eq; [|apply (sim_grand rows a people Hok)].
    - rewrite (exact_reconcile rows people (assigned_qty a)); [apply qsum_cents|].
      intros i r Hi. split; [|apply (Hall i r Hi)].
      rewrite Forall_lookup in Hrows. apply (Hrows i r Hi).
    - intros p i r Hp Hi. split; [apply Hnn; exact Hp|].
      rewrite <- (Hall i r Hi). apply assigned_le_total; [exact Hp|].
      intros p' Hp'. apply Hnn. exact Hp'.
    - exact HKs. }
  change (fmt2 (F:=float)) with format2. unfold money.
  apply (format2_sim K _ D HG HD0 HK).
Qed.

Lemma totals_money (rows : list (string * Z * Z)) :
  Forall (fun r => 1 <= r.1.2 < 2 ^ 63 /\ 0 <= r.2) rows ->
  (1 + cents_sum rows) * (Z.of_nat (length rows) + 5) < 2 ^ 49 ->
  fmt2 (series_sum (total <$> (cent_item (F:=float) <$> rows))) = money (cents_sum rows).
Proof.
  intros Hrows Hbound.
  destruct (cents_sum_bounds rows) as [HD0 HDle].
  { eapply Forall_impl; [exact Hrows|]. cbn. tauto. }
  set (D := cents_sum rows) in *.
  set (K := (5 + length rows)%nat).
  assert (HK : (1 + D) * Z.of_nat K < 2 ^ 49) by (unfold K; lia).
  assert (HKs : small K).
  { unfold small. change (2 ^ 49) with 562949953421312 in HK.
    change (2 ^ 50) with 1125899906842624. nia. }
  assert (Hok : Forall row_ok rows).
  { rewrite Forall_forall in Hrows, HDle. apply Forall_forall. intros r Hr.
    destruct (Hrows r Hr) as [Hq Hc]. specialize (HDle r Hr). split; [exact Hq|].
    change (2 ^ 49) with 562949953421312 in HK. change (2 ^ 50) with 1125899906842624. nia. }
  assert (HS : sim K (series_sum (total <$> (cent_item (F:=float) <$> rows))) (D # 100)).
  { eapply sim_mono; [|eapply sim_eq; [apply qsum_cents | apply (sim_totals rows Hok)]].
    - unfold K. lia.
    - eapply small_le; [|exact HKs]. unfold K. lia. }
  change (fmt2 (F:=float)) with format2. unfold money.
  apply (format2_sim K _ D HS HD0 HK).
Qed.

End PrintFacts.

(** * The claims of the specification *)

Import Re ReFacts ScanFacts PatternFacts.

Example date_ex :
  Re.search date_pattern (chars "Your Oct 5, 2023 order was delivered") =
  Some (chars "Your ", (map chars ["O"; "ct"; " "; "5"; ","; " "; "2023"; " "; "o"; "r"; "d"; "e"; "r"]%string,
        chars " was delivered")).
Proof. vm_compute. reflexivity. Qed.

Example items_ex :
  map (fun segs => (text (Re.group 1 item_pattern segs), text (Re.group 2 item_pattern segs),
                    text (Re.group 3 item_pattern segs)))
      (Re.finditer item_pattern (chars ("Walmart" +:+ nl +:+ "Bananas Qty 3 $1.50" +:+ nl +:+ "  Milk 2%   Qty 12 3.00 x")))
  = [("Bananas", "3", "1.50"); ("  Milk 2%", "12", "3.00")]%string.
Proof. vm_compute. reflexivity. Qed.

(** Scenario C of the specification, on binary64. *)
Example scenario_c :
  build_summary (F:=B64.float)
    (frame_of_items [{| item := "Bananas"; qty := 3; total := B64.of_frac 150 100;
                        unit_price := B64.of_frac 50 100 |}])
    {[ 0%nat := {[ "Alice" := 2; "Bob" := 1 ]} ]} ["Alice"; "Bob"] "Oct 5, 2023" =
  Ok ("Oct 5, 2023:" +:+ nl +:+ nl +:+
      "Alice: $1.00" +:+ nl +:+ "2" +:+ times +:+ " Bananas " +:+ dash +:+ " $1.00" +:+ nl +:+ nl +:+
      "Bob: $0.50" +:+ nl +:+ "1" +:+ times +:+ " Bananas " +:+ dash +:+ " $0.50" +:+ nl +:+ nl +:+
      "Grand Total = $1.50" +:+ nl).
Proof. vm_compute. reflexivity. Qed.

(** Whitespace is that of Unicode: a receipt whose words are separated by
    no-break spaces is read like one with blanks. *)
Example no_break_spaces :
  parse_receipt (F:=B64.float)
    [Some ("Widget" +:+ [160%N] +:+ "Qty" +:+ [160%N] +:+ "3" +:+ [160%N] +:+ "$1.50")] =
  Ok (frame_of_items [{| item := "Widget"; qty := 3; total := B64.of_frac 150 100;
                         unit_price := B64.of_frac 50 100 |}],
      "Date Not Found").
Proof. vm_compute. reflexivity. Qed.

(** Digits are those of Unicode: an Arabic-Indic 5 is a day of the month. *)
Example arabic_indic_day :
  order_date_of ("Oct " +:+ [1637%N] +:+ ", 2023 order") = "Oct " +:+ [1637%N] +:+ ", 2023".
Proof. vm_compute. reflexivity. Qed.

(** ** Shared facts *)






(** ** C1: the line items *)






(** C2, at the failing input: a matched quantity of 0 is not skipped; the
    row enters the table with an infinite unit price. *)
Theorem zero_quantity_row :
  parse_receipt (F:=B64.float) [Some "Widget Qty 0 $1.00"] =
    Ok (frame_of_items [{| item := "Widget"; qty := 0; total := B64.of_frac 100 100;
                           unit_price := S754_infinity false |}],
        "Date Not Found").
Proof. vm_compute. reflexivity. Qed.

(** C5. When the text has no match of the item shape, parse_receipt returns
    the empty table and raises nothing; when no page has text, the order
    date is "Date Not Found". *)
Theorem parse_receipt_no_items :
  (forall pages : list (option string),
     (forall pre suf, chars (page_text pages) = pre ++ suf -> ~ item_starts suf) ->
     parse_receipt (F:=B64.float) pages = Ok (empty_frame, order_date_of (page_text pages))) /\
  (forall pages : list (option string),
     Forall (fun p => p = None \/ p = Some "") pages ->
     page_text pages = "" /\
     parse_receipt (F:=B64.float) pages = Ok (empty_frame, "Date Not Found")).
Proof.
  split.
  - intros pages Hno.
    destruct (parse_text_spec (F:=B64.float) (page_text pages)) as (ms & Hscan & Hp).
    unfold parse_receipt. rewrite Hp. destruct ms as [|m ms]; [reflexivity|].
    exfalso. inversion Hscan as [|gap m' rest ms' Hshape _ _ _ Heq]; subst.
    apply (Hno gap (matched m ++ rest)); [auto|]. exists m, rest. auto.
  - intros pages Hall.
    assert (Ht : page_text pages = "").
    { unfold page_text.
      assert (Hg : forall acc, fold_left (fun acc page =>
                     match page with
                     | Some (c :: t) => acc +:+ (c :: t) +:+ nl
                     | _ => acc
                     end) pages acc = acc); [|apply Hg].
      induction Hall as [|p pages [-> | ->] _ IH]; intros acc; simpl; auto. }
    split; [exact Ht|]. unfold parse_receipt. rewrite Ht. reflexivity.
Qed.

Lemma no_item_here s :
  search item_pattern s = None -> forall pre suf, s = pre ++ suf -> ~ item_starts suf.
Proof.
  intros Hs pre suf Heq. rewrite item_starts_iff. eapply search_none; eauto.
Qed.

Lemma parse_receipt_no_items_witness :
  ((forall pre suf, chars (page_text [Some "Thank you for shopping"]) = pre ++ suf ->
                    ~ item_starts suf) /\
   parse_receipt (F:=B64.float) [Some "Thank you for shopping"] =
     Ok (empty_frame, "Date Not Found")) /\
  (Forall (fun p : option string => p = None \/ p = Some "") [None; Some ""] /\
   page_text [None; Some ""] = "" /\
   parse_receipt (F:=B64.float) [None; Some ""] = Ok (empty_frame, "Date Not Found")).
Proof.
  assert (H : forall pre suf, chars (page_text [Some "Thank you for shopping"]) = pre ++ suf ->
                              ~ item_starts suf).
  { apply no_item_here. vm_compute. reflexivity. }
  assert (H' : Forall (fun p : option string => p = None \/ p = Some "") [None; Some ""]).
  { constructor; [left; reflexivity|]. constructor; [right; reflexivity|]. constructor. }
  split.
  - split; [exact H|].
    exact (proj1 parse_receipt_no_items [Some "Thank you for shopping"] H).
  - split; [exact H'|].
    exact (proj2 parse_receipt_no_items [None; Some ""] H').
Defined.



(** C7. The unit cards of an item table are, for each item in table order
    and for each ordinal from 0 up to its quantity less one, in increasing
    order, the card that reads row index, underscore, ordinal, colon,
    blank, item name, with index and ordinal written in decimal; so the
    cards that carry the index of item i are as many as its quantity (none
    for a quantity that is not positive).  The decimal writing of a number
    is made of digits 0 to 9 and reads back as the number.  The table of
    3 Bananas and 1 Milk has the cards 0_0, 0_1, 0_2 of Bananas and 1_0 of
    Milk. *)
Theorem unit_cards_per_item :
  (forall items : list (LineItem B64.float),
     let cards :=
       concat (imap (fun i it =>
                       (fun k => text (dec_of_N (N.of_nat i)) +:+ "_" +:+
                                 text (dec_of_N (N.of_nat k)) +:+ ": " +:+ item it)
                       <$> seq 0 (Z.to_nat (qty it))) items) in
     unit_cards (frame_of_items items) = Ok cards /\
     forall i, count_cards i cards =
               match items !! i with Some it => Z.max 0 (qty it) | None => 0 end) /\
  (forall n : N,
     dec_of_N n <> [] /\ Forall (fun c => is_ascii_digit c = true) (dec_of_N n) /\
     int_of_digits (dec_of_N n) = Z.of_N n) /\
  unit_cards (frame_of_items
                [{| item := "Bananas"; qty := 3; total := B64.of_frac 150 100;
                    unit_price := B64.of_frac 50 100 |};
                 {| item := "Milk"; qty := 1; total := B64.of_frac 200 100;
                    unit_price := B64.of_frac 200 100 |}]) =
    Ok ["0_0: Bananas"; "0_1: Bananas"; "0_2: Bananas"; "1_0: Milk"].
Proof.
  split; [|split; [exact CardFacts.dec_of_N_ascii | vm_compute; reflexivity]].
  intros items cards.
  assert (E : cards = concat (imap cards_of items)) by reflexivity.
  rewrite E. split; [apply unit_cards_frame|].
  intros i. apply FlowFacts.count_unit_cards.
Qed.

(** C8. With an empty people list build_summary raises nothing: it returns
    the header followed at once by the grand total line, which reads
    $0.00. *)
Theorem build_summary_no_people :
  forall (df : DataFrame B64.float) (assignments : gmap nat (gmap string Z))
         (order_date : string),
    build_summary df assignments [] order_date =
    Ok (order_date +:+ ":" +:+ nl +:+ nl +:+ "Grand Total = $0.00" +:+ nl).
Proof.
  intros df a d. unfold build_summary. simpl.
  rewrite append_nil_r, !append_assoc. reflexivity.
Qed.

(** ** C9: the unit price *)




Section MissingIndex.
Context {F : Type} `{Number F}.

(** A row label without an entry in the assignments makes build_summary
    raise the KeyError of the first such label. *)
Lemma build_summary_missing_index (df : DataFrame F) a people d i :
  people <> [] -> (i < nrows df)%nat -> a !! i = None ->
  exists j, a !! j = None /\ build_summary df a people d = Err (IndexKeyError j).
Proof.
  intros Hne Hi Hnone. destruct people as [|p people]; [congruence|].
  destruct (person_counts_Err a p (nrows df) i Hi Hnone) as (j & _ & Hj & _ & Herr).
  exists j. split; [exact Hj|].
  unfold build_summary, assign_frame. simpl. unfold add_person. rewrite Herr. reflexivity.
Qed.

Lemma assigned_present a people i :
  total_assigned a people i <> 0 -> is_Some (a !! i).
Proof.
  intros Hne. destruct (a !! i) as [d|] eqn:Ha; [eauto|]. exfalso. apply Hne.
  unfold total_assigned, assigned_qty. rewrite Ha. simpl. clear Hne.
  induction people as [|p people IH]; [reflexivity | simpl; exact IH].
Qed.

End MissingIndex.

(** C10, at two failing inputs: every row label has an entry, the people
    are A_cost and A, and a unit price is infinite (a total too large for a
    float, or a quantity of 0); the cost column of A replaces the quantity
    column of A_cost and int(inf) raises. *)
Theorem name_collision_overflow :
  let receipt := "X Qty 1 $1" +:+ text (repeat "0"%char 309) +:+ ".00" in
  let inf := S754_infinity false in
  let assignments : gmap nat (gmap string Z) := {[ 0%nat := {[ "A" := 1 ]} ]} in
  parse_receipt (F:=B64.float) [Some receipt] =
    Ok (frame_of_items [{| item := "X"; qty := 1; total := inf; unit_price := inf |}],
        "Date Not Found") /\
  build_summary (frame_of_items [{| item := "X"; qty := 1; total := inf; unit_price := inf |}])
    assignments ["A_cost"; "A"] "Date Not Found" = Err OverflowError /\
  parse_receipt (F:=B64.float) [Some "X Qty 0 $1.00"] =
    Ok (frame_of_items [{| item := "X"; qty := 0; total := B64.of_frac 100 100;
                           unit_price := inf |}], "Date Not Found") /\
  build_summary (frame_of_items [{| item := "X"; qty := 0; total := B64.of_frac 100 100;
                                    unit_price := inf |}])
    assignments ["A_cost"; "A"] "Date Not Found" = Err OverflowError.
Proof. vm_compute. repeat split; reflexivity. Qed.

(** C4, at the failing input: a person called unit_price.  The quantity
    column of that person replaces the unit prices, the cost of 2 units
    becomes 2 * 2, and the grand total reads $4.00 where the sum of
    assigned quantity times unit price is 2 * 0.50 = 1.00. *)
Theorem name_collision_total :
  let bananas := {| item := "Bananas"; qty := 3; total := B64.of_frac 150 100;
                    unit_price := B64.of_frac 50 100 |} in
  let assignments : gmap nat (gmap string Z) := {[ 0%nat := {[ "unit_price" := 2 ]} ]} in
  build_summary (frame_of_items [bananas]) assignments ["unit_price"] "Oct 5, 2023" =
    Ok ("Oct 5, 2023:" +:+ nl +:+ nl +:+
        "unit_price: $4.00" +:+ nl +:+
        "2" +:+ times +:+ " Bananas " +:+ dash +:+ " $4.00" +:+ nl +:+ nl +:+
        "Grand Total = $4.00" +:+ nl) /\
  fmt2 (grand_total [bananas] assignments ["unit_price"]) = "1.00".
Proof. vm_compute. split; reflexivity. Qed.

(** The total of a person is the sum of a column as numpy computes it:
    with 8 rows the costs are added pairwise, and Alice's total reads
    $5.88 where adding them from the left would give $5.87. *)
Example eight_rows :
  let rows : list (string * Z * Z) :=
    [("A", 2, 188); ("B", 2, 299); ("C", 2, 30); ("D", 2, 260);
     ("E", 2, 110); ("F", 2, 20); ("G", 2, 45); ("H", 2, 223)] in
  let items : list (LineItem B64.float) := cent_item <$> rows in
  let assignments : gmap nat (gmap string Z) :=
    list_to_map ((fun i => (i, {[ "Alice" := 1 ]})) <$> seq 0 8) in
  build_summary (frame_of_items items) assignments ["Alice"] "Oct 5, 2023" =
    Ok ("Oct 5, 2023:" +:+ nl +:+ nl +:+
        "Alice: $5.88" +:+ nl +:+
        "1" +:+ times +:+ " A " +:+ dash +:+ " $0.94" +:+ nl +:+
        "1" +:+ times +:+ " B " +:+ dash +:+ " $1.50" +:+ nl +:+
        "1" +:+ times +:+ " C " +:+ dash +:+ " $0.15" +:+ nl +:+
        "1" +:+ times +:+ " D " +:+ dash +:+ " $1.30" +:+ nl +:+
        "1" +:+ times +:+ " E " +:+ dash +:+ " $0.55" +:+ nl +:+
        "1" +:+ times +:+ " F " +:+ dash +:+ " $0.10" +:+ nl +:+
        "1" +:+ times +:+ " G " +:+ dash +:+ " $0.23" +:+ nl +:+
        "1" +:+ times +:+ " H " +:+ dash +:+ " $1.11" +:+ nl +:+ nl +:+
        "Grand Total = $5.88" +:+ nl) /\
  fmt2 (fold_left add (costs items assignments "Alice") (of_int 0)) = "5.87".
Proof. vm_compute. split; reflexivity. Qed.

(** C3 as stated fails on binary64: one item of 7 units at
    $1000000000000000.01, all assigned to Alice.  The total is read as
    1000000000000000.00, the unit price is rounded, and 7 times that price
    is printed as 999999999999999.88. *)
Lemma reconciliation_fails_in_binary64 :
  ~ reconciles (F:=B64.float)
      [{| item := "Gold"; qty := 7; total := B64.of_frac 100000000000000001 100;
          unit_price := div (B64.of_frac 100000000000000001 100) (of_int 7) |}]
      {[ 0%nat := {[ "Alice" := 7 ]} ]} ["Alice"].
Proof.
  intros Hr.
  assert (Hall : forall i (it : LineItem B64.float),
            [{| item := "Gold"; qty := 7; total := B64.of_frac 100000000000000001 100;
                unit_price := div (B64.of_frac 100000000000000001 100) (of_int 7) |}] !! i
            = Some it ->
            total_assigned {[ 0%nat := {[ "Alice" := 7 ]} ]} ["Alice"] i = qty it).
  { intros [|i] it Hi; [|discriminate]. injection Hi as <-. vm_compute. reflexivity. }
  specialize (Hr Hall ""%string). vm_compute in Hr. discriminate Hr.
Qed.

Example gold_summary :
  build_summary (F:=B64.float)
    (frame_of_items
       [{| item := "Gold"; qty := 7; total := B64.of_frac 100000000000000001 100;
           unit_price := div (B64.of_frac 100000000000000001 100) (of_int 7) |}])
    {[ 0%nat := {[ "Alice" := 7 ]} ]} ["Alice"] "" =
  Ok (":" +:+ nl +:+ nl +:+ "Alice: $999999999999999.88" +:+ nl +:+
      "7" +:+ times +:+ " Gold " +:+ dash +:+ " $999999999999999.88" +:+ nl +:+ nl +:+
      "Grand Total = $999999999999999.88" +:+ nl) /\
  fmt2 (B64.of_frac 100000000000000001 100) = "1000000000000000.00".
Proof. vm_compute. split; reflexivity. Qed.

(** The same table in exact arithmetic. *)
Example gold_summary_exact :
  build_summary (F:=Qc)
    (frame_of_items
       [{| item := "Gold"; qty := 7; total := Rat.of_frac 100000000000000001 100;
           unit_price := div (Rat.of_frac 100000000000000001 100) (of_int 7) |}])
    {[ 0%nat := {[ "Alice" := 7 ]} ]} ["Alice"] "" =
  Ok (":" +:+ nl +:+ nl +:+ "Alice: $1000000000000000.01" +:+ nl +:+
      "7" +:+ times +:+ " Gold " +:+ dash +:+ " $1000000000000000.01" +:+ nl +:+ nl +:+
      "Grand Total = $1000000000000000.01" +:+ nl).
Proof. vm_compute. reflexivity. Qed.

(** X17. Without rounding there is nothing to bound.  In exact arithmetic, for
    a non-empty item table whose quantities are at least 1 and whose unit
    prices are total / quantity, and for people whose names are fresh: when
    the quantities assigned to the people add up, for every item, to the
    quantity of the item, the summary reports the sum of the item totals as
    its grand total. *)
Theorem reconciliation_exact :
  forall (F : Type) (N : Number F), Exact F ->
  forall (items : list (LineItem F)) (assignments : gmap nat (gmap string Z))
         (people : list string),
    items <> [] -> fresh_names people ->
    (forall i it, items !! i = Some it ->
                  1 <= qty it /\ unit_price it = div (total it) (of_int (qty it))) ->
    reconciles items assignments people.
Proof.
  intros F N E items a people Hne Hfresh Hitems Hall d.
  rewrite build_summary_fresh; auto.
  - unfold summary_text, summary_with. rewrite grand_total_exact; [reflexivity|].
    intros i it Hi. destruct (Hitems i it Hi) as [Hq Hu].
    split; [lia|]. split; [exact Hu | apply Hall; exact Hi].
  - intros i Hi. destruct (lookup_lt_is_Some_2 items i Hi) as [it Hit].
    apply (assigned_present a people). rewrite (Hall i it Hit).
    destruct (Hitems i it Hit). lia.
Qed.

Lemma fresh_alice_bob : fresh_names ["Alice"; "Bob"].
Proof.
  split; [|split].
  - intros Hin. repeat (apply elem_of_cons in Hin as [Hin|Hin]; [discriminate|]). inversion Hin.
  - intros Hin. repeat (apply elem_of_cons in Hin as [Hin|Hin]; [discriminate|]). inversion Hin.
  - intros p q Hp Hq.
    repeat (apply elem_of_cons in Hp as [->|Hp]);
      repeat (apply elem_of_cons in Hq as [->|Hq]);
      try discriminate; try inversion Hp; try inversion Hq.
Qed.

Lemma reconciliation_exact_bananas :
  let bananas : LineItem Qc :=
    {| item := "Bananas"; qty := 3; total := Rat.of_frac 150 100;
       unit_price := div (Rat.of_frac 150 100) (of_int 3) |} in
  let assignments : gmap nat (gmap string Z) := {[ 0%nat := {[ "Alice" := 2; "Bob" := 1 ]} ]} in
  [bananas] <> [] /\ fresh_names ["Alice"; "Bob"] /\
  (forall i it, [bananas] !! i = Some it ->
                1 <= qty it /\ unit_price it = div (total it) (of_int (qty it))) /\
  (forall i it, [bananas] !! i = Some it ->
                total_assigned assignments ["Alice"; "Bob"] i = qty it) /\
  forall order_date,
    build_summary (frame_of_items [bananas]) assignments ["Alice"; "Bob"] order_date =
    Ok (summary_with [bananas] assignments ["Alice"; "Bob"] order_date
          (series_sum (total <$> [bananas]))).
Proof.
  intros bananas assignments.
  assert (H1 : [bananas] <> []) by discriminate.
  assert (H2 : forall i it, [bananas] !! i = Some it ->
                 1 <= qty it /\ unit_price it = div (total it) (of_int (qty it))).
  { intros [|i] it Hi; [|discriminate]. injection Hi as <-. split; [simpl; lia | reflexivity]. }
  assert (H3 : forall i it, [bananas] !! i = Some it ->
                 total_assigned assignments ["Alice"; "Bob"] i = qty it).
  { intros [|i] it Hi; [|discriminate]. injection Hi as <-. vm_compute. reflexivity. }
  split; [exact H1|]. split; [exact fresh_alice_bob|]. split; [exact H2|]. split; [exact H3|].
  exact (reconciliation_exact Qc _ _ [bananas] assignments ["Alice"; "Bob"]
           H1 fresh_alice_bob H2 H3).
Defined.

(** C3, amended.  On binary64, for a non-empty item table whose totals are
    whole numbers of cents (as float reads them from a literal with two
    decimals), whose quantities lie between 1 and 2^63 - 1 and whose unit
    prices are total / quantity, for people whose names are fresh and
    assigned quantities that are not negative, with
    (1 + the cents of all totals) * (items + people + 5) < 2^49: the sum
    of the item totals reads, with two decimals, as the exact sum of the
    cents; and when the quantities assigned to the people add up, for
    every item, to the quantity of the item, the grand total of the
    summary reads the same. *)
Theorem reconciliation_binary64 :
  forall (rows : list (string * Z * Z)) (assignments : gmap nat (gmap string Z))
         (people : list string),
    rows <> [] -> fresh_names people ->
    Forall (fun r => 1 <= r.1.2 < 2 ^ 63 /\ 0 <= r.2) rows ->
    (forall p i, p ∈ people -> 0 <= assigned_qty assignments p i) ->
    (1 + cents_sum rows) * (Z.of_nat (length rows + length people) + 5) < 2 ^ 49 ->
    fmt2 (series_sum (total <$> (cent_item (F:=B64.float) <$> rows))) = money (cents_sum rows) /\
    reconciles (F:=B64.float) (cent_item <$> rows) assignments people.
Proof.
  intros rows a people Hne Hfresh Hrows Hnn Hbound. split.
  { apply PrintFacts.totals_money; [exact Hrows|].
    destruct (SimFacts.cents_sum_bounds rows) as [HD0 _].
    { eapply Forall_impl; [exact Hrows|]. cbn. tauto. }
    nia. }
  intros Hall d.
  assert (Hrow : forall i r, rows !! i = Some r ->
            (cent_item (F:=B64.float) <$> rows) !! i = Some (cent_item r)).
  { intros i r Hi. rewrite list_lookup_fmap, Hi. reflexivity. }
  assert (Hall' : forall i r, rows !! i = Some r -> total_assigned a people i = r.1.2).
  { intros i r Hi. apply (Hall i (cent_item r)). apply Hrow. exact Hi. }
  rewrite build_summary_fresh.
  - unfold summary_text, summary_with.
    rewrite (SimFacts.grand_total_to_the_cent rows a people Hrows Hnn Hall' Hbound).
    reflexivity.
  - destruct rows; [congruence | discriminate].
  - exact Hfresh.
  - intros i Hi. rewrite length_fmap in Hi.
    destruct (lookup_lt_is_Some_2 rows i Hi) as [r Hr].
    apply (assigned_present a people). rewrite (Hall' i r Hr).
    rewrite Forall_lookup in Hrows. destruct (Hrows i r Hr) as [Hq _]. lia.
Qed.

Lemma reconciliation_binary64_witness :
  let rows := [("Bananas"%string, 3, 150)] in
  let assignments : gmap nat (gmap string Z) := {[ 0%nat := {[ "Alice" := 2; "Bob" := 1 ]} ]} in
  let people := ["Alice"; "Bob"]%string in
  rows <> [] /\ fresh_names people /\
  Forall (fun r : string * Z * Z => 1 <= r.1.2 < 2 ^ 63 /\ 0 <= r.2) rows /\
  (forall p i, p ∈ people -> 0 <= assigned_qty assignments p i) /\
  (1 + cents_sum rows) * (Z.of_nat (length rows + length people) + 5) < 2 ^ 49 /\
  (forall i it, (cent_item (F:=B64.float) <$> rows) !! i = Some it ->
                total_assigned assignments people i = qty it) /\
  money (cents_sum rows) = "1.50" /\
  fmt2 (series_sum (total <$> (cent_item (F:=B64.float) <$> rows))) = money (cents_sum rows) /\
  forall order_date,
    build_summary (frame_of_items (cent_item (F:=B64.float) <$> rows)) assignments people
      order_date =
    Ok (summary_with (cent_item <$> rows) assignments people order_date
          (series_sum (total <$> (cent_item (F:=B64.float) <$> rows)))).
Proof.
  intros rows assignments people.
  assert (H1 : rows <> []) by discriminate.
  assert (H2 : Forall (fun r : string * Z * Z => 1 <= r.1.2 < 2 ^ 63 /\ 0 <= r.2) rows).
  { constructor; [|constructor]. cbn. change (2 ^ 63) with 9223372036854775808. lia. }
  assert (H3 : forall p i, p ∈ people -> 0 <= assigned_qty assignments p i).
  { intros p i Hp. unfold assigned_qty, assignments.
    destruct i as [|i]; [|rewrite lookup_singleton_ne by lia; cbn; lia].
    rewrite lookup_singleton_eq. cbn [mbind option_bind].
    apply elem_of_cons in Hp as [-> | Hp]; [vm_compute; discriminate|].
    apply elem_of_cons in Hp as [-> | Hp]; [vm_compute; discriminate | inversion Hp]. }
  assert (H4 : (1 + cents_sum rows) * (Z.of_nat (length rows + length people) + 5) < 2 ^ 49).
  { vm_compute. reflexivity. }
  assert (H5 : forall i it, (cent_item (F:=B64.float) <$> rows) !! i = Some it ->
                 total_assigned assignments people i = qty it).
  { intros [|i] it Hi; [|discriminate]. injection Hi as <-. vm_compute. reflexivity. }
  destruct (reconciliation_binary64 rows assignments people H1 fresh_alice_bob H2 H3 H4)
    as [Hm Hr].
  split; [exact H1|]. split; [exact fresh_alice_bob|]. split; [exact H2|].
  split; [exact H3|]. split; [exact H4|]. split; [exact H5|].
  split; [vm_compute; reflexivity|]. split; [exact Hm|]. exact (Hr H5).
Defined.

(** * Further properties of the program

    The members, the cards and their tally, and the summary that main
    computes from them. *)

(** ** The running example: three bananas between Alice and Bob *)

Lemma alice_bob_distinct : NoDup ["Alice"; "Bob"]%string.
Proof.
  apply NoDup_cons. split; [|apply NoDup_singleton].
  intros H. apply list_elem_of_singleton in H. discriminate H.
Qed.

Lemma alice_bob_members : "Unassigned"%string ∉ ["Alice"; "Bob"]%string.
Proof.
  intros H. apply elem_of_cons in H as [H | H]; [discriminate H|].
  apply list_elem_of_singleton in H. discriminate H.
Qed.

Lemma alice_bob_headers :
  headers_ok ["Alice"; "Bob"]%string
    [("Alice", ["0_0: Bananas"; "0_2: Bananas"]); ("Bob", ["0_1: Bananas"]);
     ("Unassigned", [])]%string.
Proof.
  constructor; [left; left|]. constructor; [left; right; left|].
  constructor; [right; reflexivity | constructor].
Qed.

Lemma widget_shape :
  item_shape {| m_name := chars "Widget"; m_ws1 := chars " "; m_ws2 := chars " ";
                m_qty := chars "0"; m_ws3 := chars " "; m_cur := chars "$";
                m_int := chars "1"; m_frac := chars "00" |}.
Proof.
  unfold item_shape, spaces, digits. simpl.
  repeat split; try discriminate; auto; repeat constructor; discriminate.
Qed.

(** ** add_member *)

(** X1. Whatever is typed into the member box, any number of times and in
    any order, starting from no member: the members are distinct, and they
    are the texts typed, trimmed, that are not empty once trimmed; so no
    member is empty or begins or ends with whitespace, and a name is never
    lost. *)
Theorem members_are_the_typed_names :
  forall typed : list string,
    NoDup (members (foldl type_name start_session typed)) /\
    forall m,
      m ∈ members (foldl type_name start_session typed) <->
      m <> ""%string /\ trimmed (chars m) /\
      exists t, t ∈ typed /\ m = text (strip (chars t)).
Proof.
  intros typed.
  destruct (SessionFacts.members_typed typed start_session) as (Hnd & _ & Hm); [constructor|].
  split; [exact Hnd|]. intros m. rewrite Hm. cbn [members start_session]. split.
  - intros [Hin | (Hne & t & Ht & ->)]; [inversion Hin|].
    split; [exact Hne|]. split; [|eauto].
    rewrite SessionFacts.chars_text. apply SessionFacts.strip_trimmed.
  - intros (Hne & _ & Hex). right. split; assumption.
Qed.

(** X2. Typing a name again, with whitespace before or after it, adds no
    member: the list is the same as after the first time. *)
Theorem retyped_name_is_not_added :
  forall (s : Session) (t : string) (p q : list char),
    Forall (fun c => is_space c = true) p ->
    Forall (fun c => is_space c = true) q ->
    members (type_name (type_name s t) (text (p ++ chars t ++ q))) =
    members (type_name s t).
Proof.
  intros s t p q Hp Hq. apply SessionFacts.type_name_again.
  apply SessionFacts.padded_name; assumption.
Qed.

Lemma retyped_name_is_not_added_witness :
  Forall (fun c => is_space c = true) (chars "  ") /\
  Forall (fun c => is_space c = true) (chars nl) /\
  members (type_name (type_name start_session "Ann") (text (chars "  " ++ chars "Ann" ++ chars nl))) =
  members (type_name start_session "Ann").
Proof.
  assert (H1 : Forall (fun c => is_space c = true) (chars "  ")) by (repeat constructor).
  assert (H2 : Forall (fun c => is_space c = true) (chars nl)) by (repeat constructor).
  split; [exact H1|]. split; [exact H2|].
  exact (retyped_name_is_not_added start_session "Ann" (chars "  ") (chars nl) H1 H2).
Defined.

(** The whitespace that strip removes is that of Unicode: a no-break space
    before the name and a next-line character after it do not make a new
    member. *)
Example no_break_space_is_trimmed :
  members (type_name (type_name start_session "Ann") ([160%N] +:+ "Ann" +:+ [133%N])) =
  ["Ann"].
Proof. vm_compute. reflexivity. Qed.

(** ** The unit cards *)

(** X3. The row index that the tally reads from a unit card is the index
    of the row the card was written for, whatever the name of the item
    contains (digits, colons, underscores, blanks). *)
Theorem card_index_reads_the_row :
  forall (idx i : nat) (name : string),
    card_index (unit_card idx i name) = Ok (Z.of_nat idx).
Proof. exact CardFacts.card_index_unit_card. Qed.

(** X4. Two unit cards are equal only if they are written for the same
    row, the same ordinal and the same name; so the unit cards of an item
    table are distinct. *)
Theorem unit_cards_are_distinct :
  (forall idx i name idx' i' name',
     unit_card idx i name = unit_card idx' i' name' -> idx = idx' /\ i = i' /\ name = name') /\
  forall items : list (LineItem B64.float), NoDup (concat (imap cards_of items)).
Proof.
  split; [exact CardFacts.unit_card_inj|].
  intros items. apply (FlowFacts.unit_cards_NoDup_from items 0).
Qed.

(** ** The tally *)

(** X5. When the tally completes, the quantity it has recorded for a
    person and a row is the number of cards of that row under the headers
    equal to the person's name; cards under the header Unassigned are not
    counted, also when a member is called Unassigned; and the assignments
    have an entry for the rows of the table and for no other index. *)
Theorem tally_counts_the_cards :
  forall (people : list string) (n : nat) (containers : list (string * list string))
         (a : gmap nat (gmap string Z)),
    tally people n containers = Ok a ->
    (forall p i, assigned_qty a p i = held containers p i) /\
    (forall i, assigned_qty a "Unassigned" i = 0) /\
    (forall i, is_Some (a !! i) <-> (i < n)%nat).
Proof.
  intros people n containers a Ht.
  destruct (TallyFacts.tally_spec people n containers a Ht) as (_ & Hheld & Hdom).
  split; [exact Hheld|]. split; [|exact Hdom].
  intros i. rewrite Hheld. reflexivity.
Qed.

Lemma tally_counts_the_cards_witness :
  let people := ["Alice"; "Bob"]%string in
  let containers := [("Alice", ["0_0: Bananas"; "0_2: Bananas"]); ("Bob", ["0_1: Bananas"]);
                     ("Unassigned", [])]%string in
  let a : gmap nat (gmap string Z) := {[ 0%nat := {[ "Alice" := 2; "Bob" := 1 ]} ]} in
  tally people 1 containers = Ok a /\
  (forall p i, assigned_qty a p i = held containers p i) /\
  (forall i, assigned_qty a "Unassigned" i = 0) /\
  (forall i, is_Some (a !! i) <-> (i < 1)%nat).
Proof.
  intros people containers a.
  assert (H : tally people 1 containers = Ok a) by (vm_compute; reflexivity).
  split; [exact H|]. exact (tally_counts_the_cards people 1 containers a H).
Defined.


(** X7. No unit is assigned twice.  When the containers are headed by the
    members (distinct, none called Unassigned) or by Unassigned and their
    cards are the unit cards of the table in some arrangement, the tally
    completes, no recorded quantity is negative and, for every item, the
    quantities recorded for the members and the cards of the item left
    under Unassigned add up to the quantity of the item (to 0 for a
    negative quantity, which has no card). *)
Theorem units_assigned_at_most_once :
  forall (items : list (LineItem B64.float)) (people : list string)
         (containers : list (string * list string)),
    NoDup people -> ("Unassigned"%string ∉ people) -> headers_ok people containers ->
    all_cards containers ≡ₚ concat (imap cards_of items) ->
    exists a,
      tally people (length items) containers = Ok a /\
      (forall p i, 0 <= assigned_qty a p i) /\
      forall i it, items !! i = Some it ->
        total_assigned a people i + count_cards i (unassigned_cards containers) =
        Z.max 0 (qty it).
Proof.
  intros items people containers Hnd Hun Hh Hperm.
  destruct (FlowFacts.tally_rearranged items people containers Hnd Hun Hh Hperm)
    as (a & Ha & _ & Hnn & Hsum).
  exists a. auto.
Qed.

Lemma units_assigned_at_most_once_witness :
  let items : list (LineItem B64.float) := [cent_item ("Bananas"%string, 3, 150)] in
  let people := ["Alice"; "Bob"]%string in
  let containers := [("Alice", ["0_0: Bananas"; "0_2: Bananas"]); ("Bob", ["0_1: Bananas"]);
                     ("Unassigned", [])]%string in
  NoDup people /\ ("Unassigned"%string ∉ people) /\ headers_ok people containers /\
  all_cards containers ≡ₚ concat (imap cards_of items) /\
  exists a,
    tally people (length items) containers = Ok a /\
    (forall p i, 0 <= assigned_qty a p i) /\
    forall i it, items !! i = Some it ->
      total_assigned a people i + count_cards i (unassigned_cards containers) =
      Z.max 0 (qty it).
Proof.
  intros items people containers.
  assert (H : all_cards containers ≡ₚ concat (imap cards_of items)).
  { vm_compute. apply perm_skip, perm_swap. }
  split; [exact alice_bob_distinct|]. split; [exact alice_bob_members|].
  split; [exact alice_bob_headers|]. split; [exact H|].
  exact (units_assigned_at_most_once items people containers
           alice_bob_distinct alice_bob_members alice_bob_headers H).
Defined.

(** X18. Cards left under Unassigned are charged to nobody and are not
    even read: a container headed Unassigned, whatever its cards are,
    changes neither the tally nor what Compute Summary returns or
    raises. *)
Theorem unassigned_container_is_ignored :
  forall (F : Type) (N : Number F) (df : DataFrame F) (people : list string)
         (cs1 cs2 : list (string * list string)) (cards : list string) (d : string),
    tally people (nrows df) (cs1 ++ ("Unassigned"%string, cards) :: cs2) =
      tally people (nrows df) (cs1 ++ cs2) /\
    compute_summary df people (cs1 ++ ("Unassigned"%string, cards) :: cs2) d =
      compute_summary df people (cs1 ++ cs2) d.
Proof.
  intros F N df people cs1 cs2 cards d.
  assert (H : tally people (nrows df) (cs1 ++ ("Unassigned"%string, cards) :: cs2) =
              tally people (nrows df) (cs1 ++ cs2)).
  { apply TallyFacts.for_fold_skips_unassigned. }
  split; [exact H|]. unfold compute_summary. rewrite H. reflexivity.
Qed.

(** ** Compute Summary *)

(** X8. The tally and build_summary fit together: for a non-empty item
    table and members with fresh names, when the tally completes, Compute
    Summary completes as well (the assignments have an entry for every
    row, so build_summary raises no KeyError) and returns the summary laid
    out from the tallied quantities. *)
Theorem compute_summary_of_the_tally :
  forall (F : Type) (N : Number F) (items : list (LineItem F)) (people : list string)
         (containers : list (string * list string)) (d : string)
         (a : gmap nat (gmap string Z)),
    items <> [] -> fresh_names people ->
    tally people (length items) containers = Ok a ->
    compute_summary (frame_of_items items) people containers d =
    Ok (summary_text items a people d).
Proof.
  intros F N items people containers d a. apply FlowFacts.compute_summary_fresh.
Qed.

Lemma compute_summary_of_the_tally_witness :
  let items : list (LineItem B64.float) := [cent_item ("Bananas"%string, 3, 150)] in
  let people := ["Alice"; "Bob"]%string in
  let containers := [("Alice", ["0_0: Bananas"; "0_2: Bananas"]); ("Bob", ["0_1: Bananas"]);
                     ("Unassigned", [])]%string in
  let a : gmap nat (gmap string Z) := {[ 0%nat := {[ "Alice" := 2; "Bob" := 1 ]} ]} in
  items <> [] /\ fresh_names people /\
  tally people (length items) containers = Ok a /\
  compute_summary (frame_of_items items) people containers "Oct 5, 2023" =
  Ok (summary_text items a people "Oct 5, 2023").
Proof.
  intros items people containers a.
  assert (H1 : items <> []) by discriminate.
  assert (H2 : tally people (length items) containers = Ok a) by (vm_compute; reflexivity).
  split; [exact H1|]. split; [exact fresh_alice_bob|]. split; [exact H2|].
  exact (compute_summary_of_the_tally B64.float _ items people containers "Oct 5, 2023" a
           H1 fresh_alice_bob H2).
Defined.

(** X9. From the cards to the total, on binary64.  For a non-empty table
    of rows whose totals are whole numbers of cents and whose quantities
    lie between 1 and 2^63 - 1, and for members with distinct, fresh names
    none of which is Unassigned: when the containers hold the unit cards
    of the table in some arrangement, none of them under Unassigned, and
    (1 + the cents of all totals) * (rows + members + 5) < 2^49, Compute
    Summary completes and its last line shows the sum of the totals,
    exactly, in dollars and cents. *)
Theorem all_cards_assigned_gives_the_total :
  forall (rows : list (string * Z * Z)) (people : list string)
         (containers : list (string * list string)) (d : string),
    rows <> [] -> fresh_names people -> NoDup people -> ("Unassigned"%string ∉ people) ->
    Forall (fun r => 1 <= r.1.2 < 2 ^ 63 /\ 0 <= r.2) rows ->
    headers_ok people containers ->
    all_cards containers ≡ₚ concat (imap cards_of (cent_item (F:=B64.float) <$> rows)) ->
    unassigned_cards containers = [] ->
    (1 + cents_sum rows) * (Z.of_nat (length rows + length people) + 5) < 2 ^ 49 ->
    exists a,
      tally people (length rows) containers = Ok a /\
      compute_summary (frame_of_items (cent_item (F:=B64.float) <$> rows)) people containers d =
      Ok ((d +:+ ":" +:+ nl +:+ nl) +:+
          concat_str (section_text (cent_item (F:=B64.float) <$> rows) a <$> people) +:+
          "Grand Total = $" +:+ money (cents_sum rows) +:+ nl).
Proof.
  intros rows people containers d Hne Hfresh Hnd Hun Hrows Hh Hperm Hnone Hbound.
  destruct (FlowFacts.tally_rearranged (cent_item (F:=B64.float) <$> rows) people containers
              Hnd Hun Hh Hperm) as (a & Ha & _ & Hnn & Hsum).
  rewrite length_fmap in Ha. exists a. split; [exact Ha|].
  rewrite (FlowFacts.compute_summary_fresh _ people containers d a).
  - unfold summary_text.
    rewrite PrintFacts.grand_total_money; [reflexivity | exact Hrows | | | exact Hbound].
    + intros p i _. apply Hnn.
    + intros i r Hr. specialize (Hsum i (cent_item r)).
      rewrite list_lookup_fmap, Hr, Hnone in Hsum. specialize (Hsum eq_refl).
      change (count_cards i []) with 0 in Hsum. cbn [qty cent_item] in Hsum.
      rewrite Forall_lookup in Hrows. destruct (Hrows i r Hr) as [Hq _]. lia.
  - destruct rows; [congruence | discriminate].
  - exact Hfresh.
  - rewrite length_fmap. exact Ha.
Qed.

Lemma all_cards_assigned_gives_the_total_witness :
  let rows := [("Bananas"%string, 3, 150)] in
  let people := ["Alice"; "Bob"]%string in
  let containers := [("Alice", ["0_0: Bananas"; "0_2: Bananas"]); ("Bob", ["0_1: Bananas"]);
                     ("Unassigned", [])]%string in
  rows <> [] /\ fresh_names people /\ NoDup people /\ ("Unassigned"%string ∉ people) /\
  Forall (fun r : string * Z * Z => 1 <= r.1.2 < 2 ^ 63 /\ 0 <= r.2) rows /\
  headers_ok people containers /\
  all_cards containers ≡ₚ concat (imap cards_of (cent_item (F:=B64.float) <$> rows)) /\
  unassigned_cards containers = [] /\
  (1 + cents_sum rows) * (Z.of_nat (length rows + length people) + 5) < 2 ^ 49 /\
  money (cents_sum rows) = "1.50"%string /\
  exists a,
    tally people (length rows) containers = Ok a /\
    compute_summary (frame_of_items (cent_item (F:=B64.float) <$> rows)) people containers
      "Oct 5, 2023" =
    Ok (("Oct 5, 2023" +:+ ":" +:+ nl +:+ nl) +:+
        concat_str (section_text (cent_item (F:=B64.float) <$> rows) a <$> people) +:+
        "Grand Total = $" +:+ money (cents_sum rows) +:+ nl).
Proof.
  intros rows people containers.
  assert (H1 : rows <> []) by discriminate.
  assert (H2 : Forall (fun r : string * Z * Z => 1 <= r.1.2 < 2 ^ 63 /\ 0 <= r.2) rows).
  { constructor; [|constructor]. cbn. change (2 ^ 63) with 9223372036854775808. lia. }
  assert (H3 : all_cards containers ≡ₚ
               concat (imap cards_of (cent_item (F:=B64.float) <$> rows))).
  { vm_compute. apply perm_skip, perm_swap. }
  assert (H4 : unassigned_cards containers = []) by reflexivity.
  assert (H5 : (1 + cents_sum rows) * (Z.of_nat (length rows + length people) + 5) < 2 ^ 49).
  { vm_compute. reflexivity. }
  split; [exact H1|]. split; [exact fresh_alice_bob|]. split; [exact alice_bob_distinct|].
  split; [exact alice_bob_members|]. split; [exact H2|]. split; [exact alice_bob_headers|].
  split; [exact H3|]. split; [exact H4|]. split; [exact H5|].
  split; [vm_compute; reflexivity|].
  exact (all_cards_assigned_gives_the_total rows people containers "Oct 5, 2023"
           H1 fresh_alice_bob alice_bob_distinct alice_bob_members H2 alice_bob_headers
           H3 H4 H5).
Defined.

(** X10. Before any card is moved, on binary64: with the containers as
    main builds them (one empty container for each member, every card
    under Unassigned), for a non-empty item table and members with fresh
    names, Compute Summary completes and shows $0.00 for every member, no
    item line and a grand total of $0.00, whatever the unit prices are
    (also infinite or NaN ones) and whatever the cards are. *)
Theorem nothing_assigned_gives_zero :
  forall (items : list (LineItem B64.float)) (people : list string) (cards : list string)
         (d : string),
    items <> [] -> fresh_names people ->
    compute_summary (frame_of_items items) people (start_containers people cards) d =
    Ok ((d +:+ ":" +:+ nl +:+ nl) +:+
        concat_str ((fun p => p +:+ ": $0.00" +:+ nl +:+ nl) <$> people) +:+
        "Grand Total = $0.00" +:+ nl).
Proof.
  intros items people cards d Hne Hfresh.
  rewrite (FlowFacts.compute_summary_fresh items people _ d (init_assignments people (length items)))
    by (auto; apply PrintFacts.tally_start).
  rewrite PrintFacts.summary_nothing; [reflexivity|].
  intros p i. apply PrintFacts.init_assigned.
Qed.

Lemma nothing_assigned_gives_zero_witness :
  let items : list (LineItem B64.float) :=
    [{| item := "Widget"; qty := 0; total := B64.of_frac 100 100;
        unit_price := S754_infinity false |}] in
  let people := ["Alice"; "Bob"]%string in
  items <> [] /\ fresh_names people /\
  compute_summary (frame_of_items items) people
    (start_containers people ["0_0: Widget"]%string) "Oct 5, 2023" =
  Ok (("Oct 5, 2023" +:+ ":" +:+ nl +:+ nl) +:+
      concat_str ((fun p => p +:+ ": $0.00" +:+ nl +:+ nl) <$> people) +:+
      "Grand Total = $0.00" +:+ nl).
Proof.
  intros items people.
  assert (H1 : items <> []) by discriminate.
  split; [exact H1|]. split; [exact fresh_alice_bob|].
  exact (nothing_assigned_gives_zero items people ["0_0: Widget"]%string "Oct 5, 2023"
           H1 fresh_alice_bob).
Defined.

(** ** parse_receipt *)

(** X11. The text that parse_receipt scans is made of the texts of the
    pages in order, each followed by a line feed; a page without text, or
    with an empty text, adds nothing. *)
Theorem page_text_joins_the_pages :
  (forall ps qs : list (option string), page_text (ps ++ qs) = page_text ps +:+ page_text qs) /\
  page_text [None] = ""%string /\
  page_text [Some ""%string] = ""%string /\
  forall (c : char) (t : string), page_text [Some (c :: t)] = (c :: t) +:+ nl.
Proof.
  split; [exact TextFacts.page_text_app|]. repeat split.
Qed.




(** X13. A matched quantity of 0 never gets a finite unit price: on
    binary64 the row made from such a match has the unit price NaN when
    its total is 0.00 and +infinity otherwise (for a total of at most
    2^1000 cents). *)
Theorem zero_quantity_unit_price :
  forall m : item_match,
    item_shape m -> int_of_digits (m_qty m) = 0 ->
    int_of_digits (m_int m ++ m_frac m) <= 2 ^ 1000 ->
    unit_price (to_item (F:=B64.float) m) =
    if int_of_digits (m_int m ++ m_frac m) =? 0 then S754_nan else S754_infinity false.
Proof.
  intros m Hm Hq Hc. rewrite (SimFacts.to_item_row m Hm).
  destruct (TextFacts.row_of_facts m Hm) as (_ & Hc0 & _).
  unfold row_of in *. cbn [fst snd] in Hc0. rewrite Hq.
  apply PrintFacts.zero_qty_price. split; assumption.
Qed.

Lemma zero_quantity_unit_price_witness :
  let m := {| m_name := chars "Widget"; m_ws1 := chars " "; m_ws2 := chars " ";
              m_qty := chars "0"; m_ws3 := chars " "; m_cur := chars "$";
              m_int := chars "1"; m_frac := chars "00" |} in
  item_shape m /\ int_of_digits (m_qty m) = 0 /\
  int_of_digits (m_int m ++ m_frac m) <= 2 ^ 1000 /\
  unit_price (to_item (F:=B64.float) m) =
  if int_of_digits (m_int m ++ m_frac m) =? 0 then S754_nan else S754_infinity false.
Proof.
  intros m.
  assert (H1 : int_of_digits (m_qty m) = 0) by reflexivity.
  assert (H2 : int_of_digits (m_int m ++ m_frac m) <= 2 ^ 1000) by (vm_compute; discriminate).
  split; [exact widget_shape|]. split; [exact H1|]. split; [exact H2|].
  exact (zero_quantity_unit_price m widget_shape H1 H2).
Defined.

(** ** Extra items *)

(** X14. Adding extra items leaves the parsed rows and their cards as
    they are: the table of main holds the parsed items followed by the
    extra ones, and its unit cards are the unit cards of the parsed items
    followed by those of the extra items, numbered from the number of
    parsed items on. *)
Theorem extra_items_keep_the_cards :
  forall items extra : list (LineItem B64.float),
    items <> [] ->
    exists tbl,
      item_table (frame_of_items items) extra = Some tbl /\
      line_items tbl = items ++ extra /\
      unit_cards tbl =
      Ok (concat (imap cards_of items) ++
          concat (imap (fun k => cards_of (length items + k)) extra)).
Proof.
  intros items extra Hne. exists (frame_of_items (items ++ extra)).
  split; [apply item_table_frame; exact Hne|]. split; [apply line_items_frame|].
  rewrite unit_cards_frame, TextFacts.cards_app. reflexivity.
Qed.

Lemma extra_items_keep_the_cards_witness :
  let items : list (LineItem B64.float) := [cent_item ("Bananas"%string, 3, 150)] in
  let extra : list (LineItem B64.float) := [cent_item ("Tax"%string, 1, 12)] in
  items <> [] /\
  exists tbl,
    item_table (frame_of_items items) extra = Some tbl /\
    line_items tbl = items ++ extra /\
    unit_cards tbl =
    Ok (concat (imap cards_of items) ++
        concat (imap (fun k => cards_of (length items + k)) extra)).
Proof.
  intros items extra.
  assert (H1 : items <> []) by discriminate.
  split; [exact H1|]. exact (extra_items_keep_the_cards items extra H1).
Defined.

(** ** build_summary *)

(** X15. When a row label of the table has no entry in the assignments
    and there is at least one person, build_summary raises the KeyError of
    the first such label. *)
Theorem build_summary_first_missing_row :
  forall (df : DataFrame B64.float) (a : gmap nat (gmap string Z)) (people : list string)
         (d : string) (i : nat),
    people <> [] -> (i < nrows df)%nat -> a !! i = None ->
    exists j,
      (j <= i)%nat /\ a !! j = None /\ (forall k, (k < j)%nat -> is_Some (a !! k)) /\
      build_summary df a people d = Err (IndexKeyError j).
Proof.
  intros df a people d i Hne Hi Hnone. destruct people as [|p people]; [congruence|].
  destruct (person_counts_Err a p (nrows df) i Hi Hnone) as (j & Hji & Hj & Hfirst & Herr).
  exists j. split; [exact Hji|]. split; [exact Hj|]. split; [exact Hfirst|].
  unfold build_summary, assign_frame. simpl. unfold add_person. rewrite Herr. reflexivity.
Qed.

Lemma build_summary_first_missing_row_witness :
  let df : DataFrame B64.float :=
    frame_of_items [cent_item ("Bananas"%string, 3, 150); cent_item ("Milk"%string, 1, 200)] in
  let a : gmap nat (gmap string Z) := {[ 0%nat := {[ "Alice" := 2 ]} ]} in
  ["Alice"]%string <> [] /\ (1 < nrows df)%nat /\ a !! 1%nat = None /\
  exists j,
    (j <= 1)%nat /\ a !! j = None /\ (forall k, (k < j)%nat -> is_Some (a !! k)) /\
    build_summary df a ["Alice"]%string "Oct 5, 2023" = Err (IndexKeyError j).
Proof.
  intros df a.
  assert (H1 : ["Alice"]%string <> []) by discriminate.
  assert (H2 : (1 < nrows df)%nat) by (cbn; lia).
  assert (H3 : a !! 1%nat = None) by reflexivity.
  split; [exact H1|]. split; [exact H2|]. split; [exact H3|].
  exact (build_summary_first_missing_row df a ["Alice"]%string "Oct 5, 2023" 1%nat H1 H2 H3).
Defined.

(** X16. For a non-empty item table, people with fresh names (none is
    item or unit_price or the name of another followed by _cost) and
    assignments with an entry for every row and quantities that fit int64
    (the dtype of the quantity columns), build_summary completes and
    returns: the order date and a colon, a blank line; for each person in
    order the name, the total of the person's costs with two decimals, one
    line for each item of which the person has a positive quantity (the
    quantity, the name and the cost), and a blank line; then the grand
    total. *)
Theorem build_summary_layout :
  forall (F : Type) (N : Number F) (items : list (LineItem F))
         (a : gmap nat (gmap string Z)) (people : list string) (d : string),
    items <> [] -> fresh_names people ->
    (forall i, (i < length items)%nat -> is_Some (a !! i)) ->
    (forall p i, p ∈ people -> - 2 ^ 63 <= assigned_qty a p i < 2 ^ 63) ->
    build_summary (frame_of_items items) a people d =
    Ok ((d +:+ ":" +:+ nl +:+ nl) +:+
        concat_str
          ((fun p =>
              p +:+ ": $" +:+ fmt2 (person_sum items a p) +:+ nl +:+
              concat_str
                (omap (fun i =>
                         it ← items !! i;
                         let c := assigned_qty a p i in
                         if 0 <? c
                         then Some (str_of_Z c +:+ times +:+ " " +:+ item it +:+ " " +:+ dash +:+
                                    " $" +:+ fmt2 (mul (of_int c) (unit_price it)) +:+ nl)
                         else None)
                      (seq 0 (length items))) +:+ nl) <$> people) +:+
        "Grand Total = $" +:+ fmt2 (grand_total items a people) +:+ nl).
Proof.
  intros F N items a people d Hne Hfresh Hall _.
  rewrite build_summary_fresh by assumption. reflexivity.
Qed.

Lemma build_summary_layout_witness :
  let items : list (LineItem B64.float) := [cent_item ("Bananas"%string, 3, 150)] in
  let a : gmap nat (gmap string Z) := {[ 0%nat := {[ "Alice" := 2; "Bob" := 1 ]} ]} in
  let people := ["Alice"; "Bob"]%string in
  items <> [] /\ fresh_names people /\
  (forall i, (i < length items)%nat -> is_Some (a !! i)) /\
  (forall p i, p ∈ people -> - 2 ^ 63 <= assigned_qty a p i < 2 ^ 63) /\
  build_summary (frame_of_items items) a people "Oct 5, 2023" =
  Ok ("Oct 5, 2023:" +:+ nl +:+ nl +:+
      "Alice: $1.00" +:+ nl +:+ "2" +:+ times +:+ " Bananas " +:+ dash +:+ " $1.00" +:+ nl +:+ nl +:+
      "Bob: $0.50" +:+ nl +:+ "1" +:+ times +:+ " Bananas " +:+ dash +:+ " $0.50" +:+ nl +:+ nl +:+
      "Grand Total = $1.50" +:+ nl).
Proof.
  intros items a people.
  assert (H1 : items <> []) by discriminate.
  assert (H2 : forall i, (i < length items)%nat -> is_Some (a !! i)).
  { intros [|i] Hi; [eexists; reflexivity | cbn in Hi; lia]. }
  assert (H3 : forall p i, p ∈ people -> - 2 ^ 63 <= assigned_qty a p i < 2 ^ 63).
  { intros p i Hp. unfold assigned_qty, a.
    destruct i as [|i]; [|rewrite lookup_singleton_ne by lia; cbn; lia].
    rewrite lookup_singleton_eq. cbn [mbind option_bind].
    apply elem_of_cons in Hp as [-> | Hp]; [vm_compute; split; [discriminate | reflexivity]|].
    apply elem_of_cons in Hp as [-> | Hp]; [|inversion Hp].
    vm_compute. split; [discriminate | reflexivity]. }
  split; [exact H1|]. split; [exact fresh_alice_bob|]. split; [exact H2|]. split; [exact H3|].
  rewrite (build_summary_layout B64.float _ items a people "Oct 5, 2023" H1 fresh_alice_bob H2 H3).
  vm_compute. reflexivity.
Defined.
